(** * iotagent-ul: the Ultralight 2.0 parser and the transport-binding dispatcher

    A shallow embedding of [lib/ulParser.js] and [lib/iotagent-ul.js].

    - JavaScript strings are [string]s, arrays are [list]s, [undefined] is
      [None], and an object created by [{}] and used as a dictionary
      ([collection[k] = v]) is the list of its own string-keyed properties
      in the order in which the engine lists them; an assignment to the
      inherited accessor [__proto__] creates no property.
    - A function that may [throw] returns an [outcome].
    - Callback-passing code is written in continuation-passing style over an
      explicit state (the world the handlers act on, the module variable
      [transportBindings], and a log of what was invoked and what called
      back).  The functions of the bindings and of the backend are
      arbitrary, except that they do not throw and call their callback at
      most once; they may never call it. *)

From Stdlib Require Import String Ascii ZArith List Lia Sorted.
From stdpp Require Import base option list gmap strings fin_maps.

Local Open Scope string_scope.
Local Open Scope list_scope.

(** ** Outcomes of a JavaScript call *)

(** [new errors.ParseError(msg)]: the constructor lives in [lib/errors.js];
    only the message it is built from is kept.  A message is either
    [prefix + s] or [prefix + JSON.stringify(pair)]. *)
Inductive Message : Type :=
| Concat (prefix : string) (s : string)
| ConcatJSON (prefix : string) (pair : list string).

Inductive Exn : Type :=
| ParseError (msg : Message).

(** A call returns a value, throws, or (a [while] loop that never ends)
    diverges. *)
Inductive outcome (A : Type) : Type :=
| Returns (a : A)
| Throws (e : Exn)
| Diverges.
Arguments Returns {A} a.
Arguments Throws {A} e.
Arguments Diverges {A}.

#[global] Instance outcome_ret : MRet outcome := fun A a => Returns a.

#[global] Instance outcome_bind : MBind outcome := fun A B f m =>
  match m with
  | Returns a => f a
  | Throws e => Throws e
  | Diverges => Diverges
  end.

(** [arr.reduce(f, init)] where [f] may throw. *)
Fixpoint reduce {A B : Type} (f : B -> A -> outcome B) (arr : list A) (init : B)
  : outcome B :=
  match arr with
  | [] => Returns init
  | x :: rest => acc ← f init x; reduce f rest acc
  end.

(** [arr.map(f)] where [f] may throw: elements are visited left to right and
    the first exception aborts the traversal. *)
Fixpoint map_throwing {A B : Type} (f : A -> outcome B) (arr : list A)
  : outcome (list B) :=
  match arr with
  | [] => Returns []
  | x :: rest =>
      y ← f x;
      ys ← map_throwing f rest;
      Returns (y :: ys)
  end.

Definition fails_with_ParseError {A : Type} (o : outcome A) : Prop :=
  exists msg, o = Throws (ParseError msg).

(** ** Strings *)

(** [s.split(sep)] for a one-character separator: never empty, and the
    empty string splits into one empty piece. *)
Fixpoint split (sep : ascii) (s : string) : list string :=
  match s with
  | EmptyString => [EmptyString]
  | String c rest =>
      if Ascii.eqb c sep then EmptyString :: split sep rest
      else match split sep rest with
           | piece :: pieces => String c piece :: pieces
           | [] => [String c EmptyString]
           end
  end.

(** [s.indexOf(c)]: position of the first occurrence, [-1] when absent. *)
Fixpoint indexOf (c : ascii) (s : string) : Z :=
  match s with
  | EmptyString => (-1)%Z
  | String d rest =>
      if Ascii.eqb d c then 0%Z
      else let i := indexOf c rest in
           if (i <? 0)%Z then (-1)%Z else (i + 1)%Z
  end.

(** [_.isEmpty(s)] on a string. *)
Definition isEmpty (s : string) : bool :=
  match s with
  | EmptyString => true
  | String _ _ => false
  end.

Definition hash : ascii := "#"%char.
Definition bar : ascii := "|"%char.
Definition at_sign : ascii := "@"%char.
Definition equals : ascii := "="%char.

(** ** lib/ulParser.js *)

Module UlParser.

(** A JavaScript value read out of an array: a string, or [undefined]. *)
Definition jsval : Type := option string.

(** An object created by [{}] and used as a dictionary: its own properties
    in the order in which the engine lists them, which is array indices
    first, in ascending order, then the other keys in the order in which
    they were created. *)
Record object : Type := Obj { properties : list (string * string) }.

(** The value of a decimal digit. *)
Definition digit (c : ascii) : option N :=
  let n := N_of_ascii c in
  if ((48 <=? n) && (n <=? 57))%N then Some (n - 48)%N else None.

(** The number a string of decimal digits writes, on top of [acc]. *)
Fixpoint numeral (s : string) (acc : N) : option N :=
  match s with
  | EmptyString => Some acc
  | String c rest =>
      match digit c with
      | Some d => numeral rest (10 * acc + d)%N
      | None => None
      end
  end.

(** The array index that a property key stands for, if any: the key is the
    decimal numeral, without a leading zero, of an integer below
    [2^32 - 1]. *)
Definition array_index (key : string) : option N :=
  match key with
  | EmptyString => None
  | String c rest =>
      if Ascii.eqb c "0" && negb (isEmpty rest) then None
      else match numeral key 0 with
           | Some n => if (n <? 4294967295)%N then Some n else None
           | None => None
           end
  end.

(** [collection.hasOwnProperty(key)]. *)
Definition hasOwnProperty (key : string) (props : list (string * string)) : bool :=
  existsb (fun kv => String.eqb kv.1 key) props.

(** The own property [key], [undefined] when there is none. *)
Fixpoint get (key : string) (props : list (string * string)) : option string :=
  match props with
  | [] => None
  | (k, v) :: rest => if String.eqb k key then Some v else get key rest
  end.

#[global] Instance object_lookup : Lookup string string object :=
  fun key collection => get key (properties collection).

(** A new value for the existing own property [key], which keeps its
    place. *)
Fixpoint overwrite (key value : string) (props : list (string * string))
  : list (string * string) :=
  match props with
  | [] => []
  | (k, v) :: rest =>
      if String.eqb k key then (k, value) :: rest
      else (k, v) :: overwrite key value rest
  end.

(** A new own property whose key is the array index [n]: it comes after
    the array indices below [n] and before every other property. *)
Fixpoint insert_indexed (n : N) (key value : string) (props : list (string * string))
  : list (string * string) :=
  match props with
  | [] => [(key, value)]
  | (k, v) :: rest =>
      match array_index k with
      | Some m =>
          if (m <? n)%N then (k, v) :: insert_indexed n key value rest
          else (key, value) :: (k, v) :: rest
      | None => (key, value) :: (k, v) :: rest
      end
  end.

(** [collection[key] = value] for a string [value].  [__proto__] is an
    accessor inherited from [Object.prototype] whose setter ignores a value
    that is neither an object nor [null]: the assignment leaves the object
    as it was.  Every other key becomes (or stays) an own property. *)
Definition assign (key value : string) (collection : object) : object :=
  if String.eqb key "__proto__" then collection
  else if hasOwnProperty key (properties collection)
  then Obj (overwrite key value (properties collection))
  else match array_index key with
       | Some n => Obj (insert_indexed n key value (properties collection))
       | None => Obj (properties collection ++ [(key, value)])
       end.

(** [addAttribute(separator)]: the reducer it returns. *)
Definition addAttribute (separator : ascii)
    (collection : object) (newAttr : string)
  : outcome object :=
  let fields := split separator newAttr in
  match fields with
  | [key; value] => Returns (assign key value collection)
  | _ => Throws (ParseError (Concat "Extracting attribute:" newAttr))
  end.

Definition addAttributePair
    (collection : object) (pair : list string)
  : outcome object :=
  match pair with
  | [key; value] => Returns (assign key value collection)
  | _ => Throws (ParseError (ConcatJSON "Extracting attribute:" pair))
  end.

(** [chunk(list, size)]: the [while (list.length)] loop, each turn moving
    [list.splice(0, size)] to the end of [chunks].  With [size = 0] the loop
    never ends; [fuel] bounds the number of turns. *)
Fixpoint chunk_loop {A : Type} (fuel : nat) (lst : list A) (size : nat)
    (chunks : list (list A)) : outcome (list (list A)) :=
  match fuel with
  | O => Diverges
  | S fuel' =>
      match lst with
      | [] => Returns chunks
      | _ :: _ =>
          chunk_loop fuel' (drop size lst) size (chunks ++ [take size lst])
      end
  end.

Definition chunk {A : Type} (lst : list A) (size : nat)
  : outcome (list (list A)) :=
  chunk_loop (S (length lst)) lst size [].

Definition parseGroup (group : string) : outcome object :=
  let attributes := split bar group in
  if (length attributes =? 0)%nat
     || negb (length attributes mod 2 =? 0)%nat
     || (0 <? length (filter (fun a => isEmpty a = true) attributes))%nat
  then Throws (ParseError (Concat "Parsing group:" group))
  else
    chunks ← chunk attributes 2;
    reduce addAttributePair chunks (Obj []).

Definition parse (payload : string) : outcome (list object) :=
  let groups := split hash payload in
  map_throwing parseGroup groups.

Record CommandInvocation : Type := {
  ci_deviceId : jsval;
  ci_command : jsval;
  ci_params : object
}.

Record CommandResult : Type := {
  cr_deviceId : jsval;
  cr_command : jsval;
  cr_result : jsval
}.

Definition command (payload : string) : outcome CommandInvocation :=
  let fields := split bar payload in
  match fields with
  | [] => Throws (ParseError (Concat "Parsing command:" payload))
  | header :: trailing =>
      if (indexOf at_sign header <? 0)%Z
      then Throws (ParseError (Concat "Parsing command:" payload))
      else
        let deviceData := split at_sign header in
        commandData ← reduce (addAttribute equals) trailing (Obj []);
        Returns {| ci_deviceId := deviceData !! 0%nat;
                   ci_command := deviceData !! 1%nat;
                   ci_params := commandData |}
  end.

Definition result (payload : string) : outcome CommandResult :=
  let fields := split bar payload in
  match fields with
  | [] => Throws (ParseError (Concat "Parsing command:" payload))
  | header :: _ =>
      if (indexOf at_sign header <? 0)%Z
      then Throws (ParseError (Concat "Parsing command:" payload))
      else
        let deviceData := split at_sign header in
        Returns {| cr_deviceId := deviceData !! 0%nat;
                   cr_command := deviceData !! 1%nat;
                   cr_result := fields !! 1%nat |}
  end.

End UlParser.

Import UlParser.

(** ** lib/iotagent-ul.js *)

Module IotAgent.

Section Agent.

(** What the bindings and the backend act on, the errors they report, the
    configuration object and the arguments of the handlers are left open. *)
Context {World Error Config Arg : Type}.

(** A node-style asynchronous function [f(..., callback)], applied to all
    its arguments but the callback.  It acts on the world and either calls
    its callback before it returns ([Now]), or leaves work behind that calls
    the callback in a later turn of the event loop ([Later]), or returns
    without ever calling it ([Never]).  The argument of the callback is the
    error, [None] for a falsy one. *)
Definition Continuation : Type := World -> World * option Error.

Inductive Reply : Type :=
| Now (err : option Error)
| Later (k : Continuation)
| Never.

Definition Async : Type := World -> World * Reply.

(** A transport binding, as a module of [lib/bindings/]: [binding.start],
    [binding.stop], and [binding[functionName]] for the handlers it
    implements. *)
Record Binding : Type := {
  binding_start : Config -> Async;
  binding_stop : Async;
  binding_handler : string -> option (list Arg -> Async)
}.

(** The two functions of [iotagent-node-lib] that [stop] calls. *)
Record IotAgentLib : Type := {
  resetMiddlewares : Async;
  deactivate : Async
}.

(** What is observed of a run. *)
Inductive Callee : Type :=
| BindingStart (i : nat)
| BindingStop (i : nat)
| BindingHandler (functionName : string) (i : nat)
| ResetMiddlewares
| Deactivate.

Inductive Event : Type :=
| Invoked (c : Callee)
| CalledBack (c : Callee) (err : option Error)
| Completed (err : option Error).

(** The state of the process: the world, the module variable
    [transportBindings], and the events so far, oldest first. *)
Record State : Type := {
  world : World;
  transportBindings : list Binding;
  log : list Event
}.

Definition record (ev : Event) (s : State) : State :=
  {| world := world s;
     transportBindings := transportBindings s;
     log := log s ++ [ev] |}.

Definition set_world (w : World) (s : State) : State :=
  {| world := w; transportBindings := transportBindings s; log := log s |}.

Definition set_transportBindings (bindings : list Binding) (s : State) : State :=
  {| world := world s; transportBindings := bindings; log := log s |}.

(** Code in continuation-passing style: what happens from a point on, and a
    callback [function (error) { ... }]. *)
Definition Proc : Type := State -> State.
Definition Callback : Type := option Error -> Proc.

(** A caller's callback that does nothing but note that it was called. *)
Definition report : Callback := fun err => record (Completed err).

(** A function that takes a callback as its last argument. *)
Definition Task : Type := Callback -> Proc.

(** Calling [f] and waiting for its callback, nothing else being under
    way: what follows the call is in [callback], so that nothing follows
    when [f] never calls it. *)
Definition call (c : Callee) (f : Async) : Task := fun callback s =>
  let s1 := record (Invoked c) s in
  let (w, reply) := f (world s1) in
  match reply with
  | Now err => callback err (record (CalledBack c err) (set_world w s1))
  | Later k =>
      let (w', err) := k w in
      callback err (record (CalledBack c err) (set_world w' s1))
  | Never => set_world w s1
  end.

(** *** The library [async]

    [async] is a dependency, not part of the repository; [async.series] and
    [async.map] are modelled after its [eachOfSeries] and [eachOf]. *)

(** [async.series(tasks, callback)]: each task is started when the one
    before has called back without error; the first error goes to
    [callback] and the remaining tasks are not started; without tasks, or
    after the last one, [callback] gets no error. *)
Fixpoint series (tasks : list Task) (callback : Callback) : Proc :=
  match tasks with
  | [] => callback None
  | task :: rest =>
      task (fun err =>
              match err with
              | Some e => callback (Some e)
              | None => series rest callback
              end)
  end.

(** The state of one [async.map]: the process state, the number of
    iteratees that called back without error, whether the final callback
    was called (it is wrapped in [once]), and the iteratees that have not
    called back yet, by index. *)
Record MapState : Type := {
  ms_state : State;
  ms_completed : nat;
  ms_called : bool;
  ms_pending : gmap nat Continuation
}.

Definition once (callback : Callback) (err : option Error) (m : MapState)
  : MapState :=
  if ms_called m then m
  else {| ms_state := callback err (ms_state m);
          ms_completed := ms_completed m;
          ms_called := true;
          ms_pending := ms_pending m |}.

(** The callback handed to each iteratee: an error goes to the final
    callback at once; the last success calls it without error. *)
Definition iteratorCallback (length : nat) (callback : Callback)
    (err : option Error) (m : MapState) : MapState :=
  match err with
  | Some e => once callback (Some e) m
  | None =>
      let m' := {| ms_state := ms_state m;
                   ms_completed := S (ms_completed m);
                   ms_called := ms_called m;
                   ms_pending := ms_pending m |} in
      if (S (ms_completed m) =? length)%nat then once callback None m' else m'
  end.

(** One turn of the loop [for (; index < length; index++)]: the iteratee is
    applied to the item whether or not an earlier one failed. *)
Definition dispatch (callee : nat -> Callee) (length : nat) (callback : Callback)
    (m : MapState) (item : nat * Async) : MapState :=
  let s1 := record (Invoked (callee item.1)) (ms_state m) in
  let (w, reply) := item.2 (world s1) in
  match reply with
  | Now err =>
      iteratorCallback length callback err
        {| ms_state := record (CalledBack (callee item.1) err) (set_world w s1);
           ms_completed := ms_completed m;
           ms_called := ms_called m;
           ms_pending := ms_pending m |}
  | Later k =>
      {| ms_state := set_world w s1;
         ms_completed := ms_completed m;
         ms_called := ms_called m;
         ms_pending := <[item.1 := k]> (ms_pending m) |}
  | Never =>
      {| ms_state := set_world w s1;
         ms_completed := ms_completed m;
         ms_called := ms_called m;
         ms_pending := ms_pending m |}
  end.

(** One later turn of the event loop: the iteratee of index [i], if it has
    not called back yet, does so. *)
Definition settle (callee : nat -> Callee) (length : nat) (callback : Callback)
    (m : MapState) (i : nat) : MapState :=
  match (ms_pending m !! i : option Continuation) with
  | None => m
  | Some k =>
      let (w, err) := k (world (ms_state m)) in
      iteratorCallback length callback err
        {| ms_state := record (CalledBack (callee i) err) (set_world w (ms_state m));
           ms_completed := ms_completed m;
           ms_called := ms_called m;
           ms_pending := delete i (ms_pending m) |}
  end.

(** [async.map(coll, iteratee, callback)], the results array left out.
    [schedule] is the order in which the iteratees that left their callback
    for later call it; an iteratee that is not in [schedule] has not called
    back by the end of the run. *)
Definition async_map {A : Type} (callee : nat -> Callee) (coll : list A)
    (iteratee : A -> Async) (schedule : list nat) (callback : Callback) : Proc :=
  fun s =>
    let length := length coll in
    let m0 := {| ms_state := s; ms_completed := 0; ms_called := false;
                 ms_pending := ∅ |} in
    let m1 := if (length =? 0)%nat then once callback None m0 else m0 in
    let m2 := fold_left (dispatch callee length callback)
                (imap (fun (i : nat) (item : A) => (i, iteratee item)) coll) m1 in
    ms_state (fold_left (settle callee length callback) schedule m2).

(** *** The agent *)

(** [fs.readdirSync] and [require] are outside the model: [found] is the
    list of modules they yield. *)
Definition startTransportBindings (newConfig : Config) (found : list Binding)
    (schedule : list nat) : Task := fun callback s =>
  let invokeBinding (binding : Binding) : Async := binding_start binding newConfig in
  let s1 := set_transportBindings found s in
  async_map BindingStart (transportBindings s1) invokeBinding schedule callback s1.

Definition stopTransportBindings (schedule : list nat) : Task := fun callback s =>
  let invokeBinding (binding : Binding) : Async := binding_stop binding in
  async_map BindingStop (transportBindings s) invokeBinding schedule callback s.

(** The reducer of [applyFunctionFromBinding]; [item] is a binding with its
    index in [transportBindings]. *)
Definition addHandler (argument : list Arg) (functionName : string)
    (current : list Task) (item : nat * Binding) : list Task :=
  match binding_handler item.2 functionName with
  | Some f => current ++ [call (BindingHandler functionName item.1) (f argument)]
  | None => current
  end.

Definition applyFunctionFromBinding (argument : list Arg) (functionName : string)
  : Task := fun callback s =>
  series
    (fold_left (addHandler argument functionName)
       (imap (fun (i : nat) (binding : Binding) => (i, binding))
          (transportBindings s)) [])
    callback s.

Definition deviceProvisioningHandler (device : Arg) : Task :=
  applyFunctionFromBinding [device] "deviceProvisioningHandler".

Definition configurationHandler (configuration : Arg) : Task :=
  applyFunctionFromBinding [configuration] "configurationHandler".

Definition commandHandler (id type attributes : Arg) : Task :=
  applyFunctionFromBinding [id; type; attributes] "commandHandler".

Definition updateHandler (id type attributes : Arg) : Task :=
  fun callback => callback None.

(** [stop(callback)]: the final function of the series takes no argument
    and calls [callback()] without one. *)
Definition stop (lib : IotAgentLib) (schedule : list nat) : Task :=
  fun callback =>
    series
      [ stopTransportBindings schedule;
        call ResetMiddlewares (resetMiddlewares lib);
        call Deactivate (deactivate lib) ]
      (fun _ => callback None).

End Agent.

End IotAgent.

Import IotAgent.

(** ** Vocabulary of the statements *)

(** [occurs c s]: the character [c] occurs in [s]. *)
Fixpoint occurs (c : ascii) (s : string) : Prop :=
  match s with
  | EmptyString => False
  | String d rest => d = c \/ occurs c rest
  end.

(** Number of occurrences of [c] in [s]. *)
Fixpoint count (c : ascii) (s : string) : nat :=
  match s with
  | EmptyString => 0
  | String d rest => (if Ascii.eqb d c then 1 else 0) + count c rest
  end.

(** The text before the first [c] (all of [s] when there is none), and the
    text after it (empty when there is none). *)
Fixpoint before (c : ascii) (s : string) : string :=
  match s with
  | EmptyString => EmptyString
  | String d rest => if Ascii.eqb d c then EmptyString else String d (before c rest)
  end.

Fixpoint after (c : ascii) (s : string) : string :=
  match s with
  | EmptyString => EmptyString
  | String d rest => if Ascii.eqb d c then rest else after c rest
  end.

(** [pieces.join(sep)]. *)
Fixpoint join (sep : ascii) (pieces : list string) : string :=
  match pieces with
  | [] => EmptyString
  | [piece] => piece
  | piece :: rest => piece ++ String sep (join sep rest)
  end.

(** Consecutive tokens taken two at a time. *)
Fixpoint pairs (toks : list string) : list (string * string) :=
  match toks with
  | key :: value :: rest => (key, value) :: pairs rest
  | _ => []
  end.

(** The value that follows the last occurrence of [key] among the pairs. *)
Fixpoint last_value (key : string) (kvs : list (string * string)) : option string :=
  match kvs with
  | [] => None
  | (k, v) :: rest =>
      match last_value key rest with
      | Some v' => Some v'
      | None => if decide (k = key) then Some v else None
      end
  end.

(** The object [collection] after every pair was assigned to it in turn. *)
Definition assign_all (kvs : list (string * string)) (collection : object) : object :=
  fold_left (fun o kv => assign kv.1 kv.2 o) kvs collection.

(** The group read from a token sequence: the consecutive tokens, taken as
    key and value, assigned in turn to an empty object. *)
Definition group_of (toks : list string) : object :=
  assign_all (pairs toks) (Obj []).

(** The keys of the own properties, in the order of the object. *)
Definition own_keys (collection : object) : list string :=
  (properties collection).*1.


(** A key that is no array index. *)
Definition named (key : string) : Prop := array_index key = None.

#[global] Instance named_dec (key : string) : Decision (named key).
Proof. unfold named. apply _. Defined.

(** A token sequence the measure grammar accepts: not empty, of even length,
    without an empty token. *)
Definition well_formed (toks : list string) : Prop :=
  toks <> [] /\ Nat.Even (length toks) /\ Forall (fun t => t <> EmptyString) toks.

(** The list cut into pieces of two elements, the last one shorter when the
    length is odd. *)
Fixpoint chunks2 (lst : list string) : list (list string) :=
  match lst with
  | [] => []
  | [x] => [[x]]
  | x :: y :: rest => [x; y] :: chunks2 rest
  end.

(** The first ['|']-delimited field of a payload and the fields after it. *)
Definition first_field (payload : string) : string := before bar payload.
Definition trailing_fields (payload : string) : list string := tail (split bar payload).

(** A field that splits into exactly two parts on ['=']. *)
Definition two_parts (field : string) : Prop := length (split equals field) = 2.

(** The key and the value of a field [key=value]. *)
Definition key_value (field : string) : string * string :=
  (before equals field, after equals field).




(** *** Vocabulary of the statements about the agent *)

Section AgentVocabulary.

Context {World Error Config Arg : Type}.

Local Abbreviation StateT := (@State World Error Config Arg).
Local Abbreviation CallbackT := (@Callback World Error Config Arg).
Local Abbreviation BindingT := (@Binding World Error Config Arg).
Local Abbreviation MapStateT := (@MapState World Error Config Arg).
Local Abbreviation AsyncT := (@Async World Error).
Local Abbreviation EventT := (@Event Error).

(** The functions invoked, in order. *)
Definition invocations (evs : list EventT) : list Callee :=
  omap (fun ev => match ev with Invoked c => Some c | _ => None end) evs.

(** No callee has called back with an error. *)
Definition no_failure (evs : list EventT) : Prop :=
  Forall (fun ev => forall c e, ev <> CalledBack c (Some e)) evs.

(** Only invocations and callbacks of the family [callee] of functions. *)
Definition events_of (callee : nat -> Callee) (evs : list EventT) : Prop :=
  Forall (fun ev => exists i, ev = Invoked (callee i) \/ exists r, ev = CalledBack (callee i) r) evs.

(** Every one of the [n] iteratees that has left its callback for later
    calls it at some point. *)
Definition complete (n : nat) (schedule : list nat) : Prop :=
  forall i, i < n -> i ∈ schedule.

(** Every one of the [n] functions of the family [callee] was invoked, in
    order of index, and called back without error. *)
Definition all_called_back (callee : nat -> Callee) (n : nat)
    (evs : list EventT) : Prop :=
  events_of callee evs /\ no_failure evs /\
  invocations evs = map callee (seq 0 n) /\
  forall i, i < n -> CalledBack (callee i) None ∈ evs.

(** The events of handlers invoked one after the other, each calling back
    before the next is invoked. *)
Definition handler_events (functionName : string)
    (calls : list (nat * option Error)) : list EventT :=
  flat_map (fun call => [Invoked (BindingHandler functionName call.1);
                         CalledBack (BindingHandler functionName call.1) call.2])
    calls.

(** The indices of the bindings that implement [functionName], in
    registration order, counted from [k]. *)
Fixpoint implementing (functionName : string) (k : nat)
    (bindings : list BindingT) : list nat :=
  match bindings with
  | [] => []
  | binding :: rest =>
      match binding_handler binding functionName with
      | Some _ => k :: implementing functionName (S k) rest
      | None => implementing functionName (S k) rest
      end
  end.

(** The tasks that [applyFunctionFromBinding] hands to [async.series]. *)
Definition handler_tasks (argument : list Arg) (functionName : string)
    (k : nat) (bindings : list BindingT) : list (@Task World Error Config Arg) :=
  fold_left (addHandler argument functionName)
    (imap (fun (i : nat) (binding : BindingT) => (k + i, binding)) bindings) [].

(** The dispatch loop over [items], then the deferred callbacks in the
    order of [schedule]. *)
Definition run_map (callee : nat -> Callee) (n : nat) (callback : CallbackT)
    (items : list (nat * AsyncT)) (schedule : list nat) (m : MapStateT)
  : MapStateT :=
  fold_left (settle callee n callback) schedule
    (fold_left (dispatch callee n callback) items m).

(** [f] calls its callback, at once or in a later turn, whatever the
    world. *)
Definition calls_back (f : AsyncT) : Prop :=
  forall w, (f w).2 <> Never.

(** What a call of [f] in the world [w] comes to when nothing else is under
    way: the world it leaves and, when [f] calls back, the error it calls
    back with. *)
Definition answer (f : AsyncT) (w : World) : World * option (option Error) :=
  let (w1, reply) := f w in
  match reply with
  | Now r => (w1, Some r)
  | Later k => let (w2, r) := k w1 in (w2, Some r)
  | Never => (w1, None)
  end.

(** The state [s] after the events [evs], the world being [w] by then. *)
Definition extend (s : StateT) (w : World) (evs : list EventT) : StateT :=
  {| world := w; transportBindings := transportBindings s; log := log s ++ evs |}.

(** The caller's callback is reached with [outcome], or never. *)
Definition finish (callback : CallbackT) (result : option (option Error))
  : StateT -> StateT :=
  match result with
  | Some outcome => callback outcome
  | None => fun s => s
  end.

(** [in_turn argument functionName k bindings w evs w' result]: the
    handlers named [functionName] of [bindings], the first of which has
    index [k], applied to [argument] one after the other from the world
    [w].  A binding without such a handler is passed over; the handler of
    the next binding is invoked only when the one before has called back
    without error.  [evs] are the events, [w'] is the world in the end, and
    [result] is [Some None] when every handler has called back without
    error, [Some (Some e)] when a handler has called back with [e], [None]
    when a handler never calls back. *)
Inductive in_turn (argument : list Arg) (functionName : string)
  : nat -> list BindingT -> World -> list EventT -> World
    -> option (option Error) -> Prop :=
| in_turn_done k w :
    in_turn argument functionName k [] w [] w (Some None)
| in_turn_skip k b bindings w evs w' result :
    binding_handler b functionName = None ->
    in_turn argument functionName (S k) bindings w evs w' result ->
    in_turn argument functionName k (b :: bindings) w evs w' result
| in_turn_next k b bindings h w w1 evs w' result :
    binding_handler b functionName = Some h ->
    answer (h argument) w = (w1, Some None) ->
    in_turn argument functionName (S k) bindings w1 evs w' result ->
    in_turn argument functionName k (b :: bindings) w
      (Invoked (BindingHandler functionName k)
       :: CalledBack (BindingHandler functionName k) None :: evs) w' result
| in_turn_failed k b bindings h w w1 e :
    binding_handler b functionName = Some h ->
    answer (h argument) w = (w1, Some (Some e)) ->
    in_turn argument functionName k (b :: bindings) w
      [Invoked (BindingHandler functionName k);
       CalledBack (BindingHandler functionName k) (Some e)] w1 (Some (Some e))
| in_turn_waiting k b bindings h w w1 :
    binding_handler b functionName = Some h ->
    answer (h argument) w = (w1, None) ->
    in_turn argument functionName k (b :: bindings) w
      [Invoked (BindingHandler functionName k)] w1 None.

(** [performed callee fs w p evs w' p']: the events [evs] are what the
    functions [fs], the family [callee], did from the world [w], the
    callbacks [p] being left for later, and they leave the world [w'] and
    the callbacks [p'].  An invocation of index [i] is the function
    [fs !! i] applied to the world of that moment; a callback that comes
    with the invocation is the one the function called at once, and a
    callback that comes by itself is the one the function left for later,
    run in the world of that moment. *)
Inductive performed (callee : nat -> Callee) (fs : list AsyncT)
  : World -> gmap nat (@Continuation World Error) -> list EventT
    -> World -> gmap nat (@Continuation World Error) -> Prop :=
| performed_nothing w p :
    performed callee fs w p [] w p
| performed_now i f w w1 r p evs w' p' :
    fs !! i = Some f -> f w = (w1, Now r) ->
    performed callee fs w1 p evs w' p' ->
    performed callee fs w p
      (Invoked (callee i) :: CalledBack (callee i) r :: evs) w' p'
| performed_later i f w w1 k p evs w' p' :
    fs !! i = Some f -> f w = (w1, Later k) ->
    performed callee fs w1 (<[i := k]> p) evs w' p' ->
    performed callee fs w p (Invoked (callee i) :: evs) w' p'
| performed_never i f w w1 p evs w' p' :
    fs !! i = Some f -> f w = (w1, Never) ->
    performed callee fs w1 p evs w' p' ->
    performed callee fs w p (Invoked (callee i) :: evs) w' p'
| performed_callback i k w w1 r p evs w' p' :
    p !! i = Some k -> k w = (w1, r) ->
    performed callee fs w1 (delete i p) evs w' p' ->
    performed callee fs w p (CalledBack (callee i) r :: evs) w' p'.

(** What the two steps of [stop] that follow the bindings come to from the
    world [w]: the world they leave, their events, and whether the final
    function of the series is reached.  [deactivate] is called only when
    [resetMiddlewares] has called back without error. *)
Definition backend_steps (lib : @IotAgentLib World Error) (w : World)
  : World * list EventT * bool :=
  match answer (resetMiddlewares lib) w with
  | (w2, None) => (w2, [Invoked ResetMiddlewares], false)
  | (w2, Some (Some e)) =>
      (w2, [Invoked ResetMiddlewares; CalledBack ResetMiddlewares (Some e)], true)
  | (w2, Some None) =>
      match answer (deactivate lib) w2 with
      | (w3, None) =>
          (w3, [Invoked ResetMiddlewares; CalledBack ResetMiddlewares None;
                Invoked Deactivate], false)
      | (w3, Some r) =>
          (w3, [Invoked ResetMiddlewares; CalledBack ResetMiddlewares None;
                Invoked Deactivate; CalledBack Deactivate r], true)
      end
  end.

(** What a part of a run adds once the final callback was called: from
    [m] to [m'] the functions of [invoked] are invoked and nothing else
    happens than what they and the pending callbacks do. *)
Definition step_adds (callee : nat -> Callee) (fs : list AsyncT)
    (m m' : MapStateT) (invoked : list Callee) : Prop :=
  ms_called m' = true /\
  exists evs,
    log (ms_state m') = log (ms_state m) ++ evs /\
    transportBindings (ms_state m') = transportBindings (ms_state m) /\
    performed callee fs (world (ms_state m)) (ms_pending m) evs
      (world (ms_state m')) (ms_pending m') /\
    invocations evs = invoked.

(** The run from [s] to [final] leaves the registry as it is, whether or
    not it reaches [callback]; [callback] itself is free to change it. *)
Definition keeps_registry (callback : CallbackT) (s final : StateT) : Prop :=
  (exists outcome s1 (rest : StateT -> StateT),
      final = rest (callback outcome s1) /\
      transportBindings s1 = transportBindings s /\
      forall s', transportBindings (rest s') = transportBindings s') \/
  transportBindings final = transportBindings s.

(** What holds while the final callback has not been called: [k] iteratees
    were invoked, each of them is pending or has called back without error,
    and none has failed. *)
Definition map_inv (callee : nat -> Callee) (fs : list AsyncT) (n : nat)
    (s0 : StateT) (k : nat) (m : MapStateT) : Prop :=
  ms_called m = false /\
  transportBindings (ms_state m) = transportBindings s0 /\
  ms_completed m + size (ms_pending m) = k /\
  ms_completed m < n /\
  (forall i, is_Some (ms_pending m !! i) -> i < k) /\
  exists evs,
    log (ms_state m) = log s0 ++ evs /\
    performed callee fs (world s0) ∅ evs (world (ms_state m)) (ms_pending m) /\
    no_failure evs /\
    invocations evs = map callee (seq 0 k) /\
    (forall i, i < k ->
       is_Some (ms_pending m !! i) \/ CalledBack (callee i) None ∈ evs).

(** What holds of a run started in [s0]: the final callback is called once,
    with [outcome] and in state [s1]; [rest] is what the run does after that
    call. *)
Definition map_post (callee : nat -> Callee) (fs : list AsyncT) (n : nat)
    (s0 : StateT) (outcome : option Error) (s1 : StateT)
    (rest : StateT -> StateT) : Prop :=
  exists evs1 p1,
    log s1 = log s0 ++ evs1 /\
    transportBindings s1 = transportBindings s0 /\
    performed callee fs (world s0) ∅ evs1 (world s1) p1 /\
    (forall s', exists evs2 p2,
        log (rest s') = log s' ++ evs2 /\
        transportBindings (rest s') = transportBindings s' /\
        performed callee fs (world s') p1 evs2 (world (rest s')) p2 /\
        invocations (evs1 ++ evs2) = map callee (seq 0 n)) /\
    (outcome = None ->
       (forall s', rest s' = s') /\
       p1 = ∅ /\
       no_failure evs1 /\
       forall i, i < n -> CalledBack (callee i) None ∈ evs1) /\
    (forall e, outcome = Some e ->
       exists i pre,
         evs1 = pre ++ [CalledBack (callee i) (Some e)] /\ no_failure pre).

End AgentVocabulary.

(** *** Sample bindings and backend, for the concrete runs *)

Module Sample.

Definition succeeds_now : @Async unit string := fun w => (w, Now None).

Definition fails_now (e : string) : @Async unit string :=
  fun w => (w, Now (Some e)).

Definition succeeds_later : @Async unit string :=
  fun w => (w, Later (fun w' => (w', None))).

Definition fails_later (e : string) : @Async unit string :=
  fun w => (w, Later (fun w' => (w', Some e))).

Definition never_calls_back : @Async unit string := fun w => (w, Never).

(** A binding with the given [start] and [stop] and, when [commandHandler]
    is given, that one handler. *)
Definition binding (start stop : @Async unit string)
    (commandHandler : option (@Async unit string))
  : @Binding unit string unit string :=
  {| binding_start := fun _ => start;
     binding_stop := stop;
     binding_handler := fun functionName =>
       if String.eqb functionName "commandHandler"
       then (fun f => fun _ : list string => f) <$> commandHandler
       else None |}.

Definition initial (bindings : list (@Binding unit string unit string))
  : @State unit string unit string :=
  {| world := tt; transportBindings := bindings; log := [] |}.

Definition backend : @IotAgentLib unit string :=
  {| resetMiddlewares := succeeds_now; deactivate := succeeds_now |}.

End Sample.

(** *** More vocabulary of the statements about the parser *)

(** The tokens of a payload: the pieces of each ['#']-group split on ['|']. *)
Definition tokens (payload : string) : list string :=
  flat_map (split bar) (split hash payload).

(** One of the two separators of a measure payload. *)
Definition separator (c : ascii) : Prop := c = hash \/ c = bar.

(** A token that can be written in a measure payload: not empty and free
    of both separators. *)
Definition plain (t : string) : Prop :=
  t <> EmptyString /\ ~ occurs bar t /\ ~ occurs hash t.

(** A group written on the wire: keys and values in turn, joined by ['|'];
    a payload: the groups joined by ['#']. *)
Definition group_text (kvs : list (string * string)) : string :=
  join bar (flat_map (fun kv => [kv.1; kv.2]) kvs).

Definition measures_text (groups : list (list (string * string))) : string :=
  join hash (map group_text groups).

(** A command written on the wire: [deviceId@command|key=value|...], and a
    command result: [deviceId@command|result]. *)
Definition command_text (deviceId cmd : string) (params : list (string * string))
  : string :=
  join bar ((deviceId ++ String at_sign cmd)%string
            :: map (fun kv => (kv.1 ++ String equals kv.2)%string) params).

Definition result_text (deviceId cmd res : string) : string :=
  (deviceId ++ String at_sign (cmd ++ String bar res))%string.

(** ** The function [start] of lib/iotagent-ul.js *)

Section AgentStart.

Context {World Error Config Arg : Type}.

Local Abbreviation StateT := (@State World Error Config Arg).
Local Abbreviation CallbackT := (@Callback World Error Config Arg).
Local Abbreviation TaskT := (@Task World Error Config Arg).
Local Abbreviation BindingT := (@Binding World Error Config Arg).
Local Abbreviation AsyncT := (@Async World Error).

(** [config.mqtt]: each of [username] and [password] is a string or
    [undefined]. *)
Record MqttSection : Type := {
  mqtt_username : option string;
  mqtt_password : option string
}.

(** The local [options] of [start]. *)
Record MqttOptions : Type := {
  keepalive : Z;
  connectTimeout : Z;
  options_username : option string;
  options_password : option string
}.

(** A string or [undefined] taken as a condition: [undefined] and the empty
    string are falsy. *)
Definition truthy (v : option string) : bool :=
  match v with
  | Some (String _ _) => true
  | _ => false
  end.

(** The [options] object as [start] fills it; nothing reads it afterwards. *)
Definition mqtt_options (mqtt : MqttSection) : MqttOptions :=
  if truthy (mqtt_username mqtt) && truthy (mqtt_password mqtt)
  then {| keepalive := 0; connectTimeout := 60 * 60 * 1000;
          options_username := mqtt_username mqtt;
          options_password := mqtt_password mqtt |}
  else {| keepalive := 0; connectTimeout := 60 * 60 * 1000;
          options_username := None; options_password := None |}.

(** What [start] reads of the configuration object: [config.mqtt], which
    may be missing, and [config.iota]. *)
Context {IotaConfig Middleware : Type}.
Variable config_mqtt : Config -> option MqttSection.
Variable config_iota : Config -> IotaConfig.

(** The functions of [iotagent-node-lib] that [start] calls: [activate]
    takes a callback, the others act at once on what the library holds. *)
Record IotAgentLibStart : Type := {
  activate : IotaConfig -> AsyncT;
  setProvisioningHandler : (Arg -> TaskT) -> World -> World;
  setConfigurationHandler : (Arg -> TaskT) -> World -> World;
  setCommandHandler : (Arg -> Arg -> Arg -> TaskT) -> World -> World;
  setDataUpdateHandler : (Arg -> Arg -> Arg -> TaskT) -> World -> World;
  addUpdateMiddleware : Middleware -> World -> World;
  attributeAlias_update : Middleware
}.

(** Calling [f] and waiting for its callback, the call leaving no event. *)
Definition await (f : AsyncT) : TaskT := fun callback s =>
  let (w, reply) := f (world s) in
  match reply with
  | Now err => callback err (set_world w s)
  | Later k => let (w', err) := k w in callback err (set_world w' s)
  | Never => set_world w s
  end.

(** The registrations that follow a successful activation, in the order
    of the source. *)
Definition register_handlers (lib : IotAgentLibStart) (w : World) : World :=
  let w1 := setProvisioningHandler lib deviceProvisioningHandler w in
  let w2 := setConfigurationHandler lib configurationHandler w1 in
  let w3 := setCommandHandler lib commandHandler w2 in
  let w4 := setDataUpdateHandler lib updateHandler w3 in
  addUpdateMiddleware lib (attributeAlias_update lib) w4.

(** [start] either throws a [TypeError] before it has done anything ([config.mqtt]
    is missing and [config.mqtt.username] is read), or runs. *)
Inductive start_result : Type :=
| TypeError
| Ran (s : StateT).

(** [start(newConfig, callback)].  The module variable [config] is written
    and read by [start] alone; [found] and [schedule] are those of
    [startTransportBindings]. *)
Definition start (lib : IotAgentLibStart) (newConfig : Config)
    (found : list BindingT) (schedule : list nat)
    (callback : CallbackT) (s : StateT) : start_result :=
  match config_mqtt newConfig with
  | None => TypeError
  | Some mqtt =>
      let options := mqtt_options mqtt in
      Ran (await (activate lib (config_iota newConfig))
             (fun error =>
                match error with
                | Some e => callback (Some e)
                | None => fun s' =>
                    startTransportBindings newConfig found schedule callback
                      (set_world (register_handlers lib (world s')) s')
                end) s)
  end.

(** [f], started in the world [w], calls back with [r] and leaves the
    world [w']. *)
Definition completes (f : AsyncT) (w : World) (r : option Error) (w' : World) : Prop :=
  f w = (w', Now r) \/ exists w1 k, f w = (w1, Later k) /\ k w1 = (w', r).

(** [f] never reports an error, whatever the world. *)
Definition succeeds (f : AsyncT) : Prop :=
  forall w, match (f w).2 with
            | Now r => r = None
            | Later k => forall w', (k w').2 = None
            | Never => True
            end.

End AgentStart.

(** *** A sample backend and configuration for [start] *)

Module SampleStart.

Definition config_mqtt (newConfig : unit) : option MqttSection :=
  Some {| mqtt_username := None; mqtt_password := None |}.

Definition config_iota (newConfig : unit) : unit := newConfig.

Definition lib : @IotAgentLibStart unit string unit string unit unit :=
  {| activate := fun _ => Sample.succeeds_later;
     setProvisioningHandler := fun _ w => w;
     setConfigurationHandler := fun _ w => w;
     setCommandHandler := fun _ w => w;
     setDataUpdateHandler := fun _ w => w;
     addUpdateMiddleware := fun _ w => w;
     attributeAlias_update := tt |}.

End SampleStart.

(** ** Facts about strings *)

Section StringFacts.

Variable c : ascii.

Lemma split_not_nil (s : string) : split c s <> [].
Proof.
  induction s as [|d s IH]; simpl; [discriminate|].
  destruct (Ascii.eqb d c); [discriminate|].
  destruct (split c s); discriminate.
Qed.

Lemma indexOf_ge_m1 (s : string) : (-1 <= indexOf c s)%Z.
Proof.
  induction s as [|d s IH]; simpl; [lia|].
  destruct (Ascii.eqb d c); [lia|].
  destruct (Z.ltb_spec (indexOf c s) 0); lia.
Qed.

Lemma indexOf_neg_iff (s : string) : (indexOf c s <? 0)%Z = true <-> ~ occurs c s.
Proof.
  induction s as [|d s IH]; simpl.
  - split; [tauto | reflexivity].
  - destruct (Ascii.eqb_spec d c) as [->|Hne].
    + split; [discriminate | tauto].
    + destruct (Z.ltb_spec (indexOf c s) 0) as [Hlt|Hge]; simpl.
      * split; [|reflexivity]. intros _ [?|?]; [congruence|]. by apply IH.
      * destruct (Z.ltb_spec (indexOf c s + 1) 0); [lia|].
        split; [discriminate|]. intros Hno.
        assert (~ occurs c s) as Hs by tauto.
        apply IH in Hs. discriminate.
Qed.

Lemma occurs_dec (s : string) : {occurs c s} + {~ occurs c s}.
Proof.
  induction s as [|d s [IH|IH]]; simpl.
  - right; tauto.
  - left; tauto.
  - destruct (Ascii.ascii_dec d c); [left | right]; tauto.
Qed.

Lemma count_pos_iff (s : string) : 0 < count c s <-> occurs c s.
Proof.
  induction s as [|d s IH]; simpl; [split; [lia | tauto]|].
  destruct (Ascii.eqb_spec d c) as [->|Hne]; simpl.
  - split; [tauto | lia].
  - rewrite IH. split; [tauto|]. intros [?|?]; [congruence | done].
Qed.

Lemma count_after (s : string) : count c (after c s) = pred (count c s).
Proof.
  induction s as [|d s IH]; simpl; [done|].
  by destruct (Ascii.eqb d c).
Qed.

Lemma before_no_sep (s : string) : ~ occurs c (before c s).
Proof.
  induction s as [|d s IH]; simpl; [tauto|].
  destruct (Ascii.eqb_spec d c); simpl; tauto.
Qed.

Lemma split_absent (s : string) : ~ occurs c s -> split c s = [s].
Proof.
  induction s as [|d s IH]; simpl; [done|]. intros Hno.
  destruct (Ascii.eqb_spec d c) as [->|Hne]; [tauto|].
  rewrite IH; [done | tauto].
Qed.

Lemma split_present (s : string) :
  occurs c s -> split c s = before c s :: split c (after c s).
Proof.
  induction s as [|d s IH]; simpl; [tauto|]. intros Hocc.
  destruct (Ascii.eqb_spec d c) as [->|Hne]; [done|].
  rewrite IH; [done|]. destruct Hocc; [congruence | done].
Qed.

Lemma split_head (s : string) : exists rest, split c s = before c s :: rest.
Proof.
  destruct (occurs_dec s) as [H|H].
  - eexists. by apply split_present.
  - exists []. rewrite split_absent by done. f_equal.
    clear -H. induction s as [|d s IH]; simpl in *; [done|].
    destruct (Ascii.eqb_spec d c) as [->|Hne]; [tauto|].
    f_equal. apply IH. tauto.
Qed.

Lemma split_app (a b : string) :
  ~ occurs c a -> split c (a ++ String c b) = a :: split c b.
Proof.
  induction a as [|d a IH]; simpl; intros Hno.
  - by rewrite Ascii.eqb_refl.
  - destruct (Ascii.eqb_spec d c) as [->|Hne]; [tauto|].
    rewrite IH; [done | tauto].
Qed.

Lemma split_join (pieces : list string) :
  pieces <> [] -> Forall (fun piece => ~ occurs c piece) pieces ->
  split c (join c pieces) = pieces.
Proof.
  induction pieces as [|piece rest IH]; [done|]. intros _ Hall.
  inversion Hall as [|? ? Hp Hrest]; subst.
  destruct rest as [|piece' rest'].
  - simpl. by apply split_absent.
  - change (join c (piece :: piece' :: rest'))
      with (piece ++ String c (join c (piece' :: rest')))%string.
    rewrite split_app by done. f_equal. by apply IH.
Qed.

Lemma split_pieces_no_sep (s : string) :
  Forall (fun piece => ~ occurs c piece) (split c s).
Proof.
  induction s as [|d s IH]; simpl.
  - constructor; [simpl; tauto | constructor].
  - destruct (Ascii.eqb_spec d c) as [->|Hne].
    + constructor; [simpl; tauto | done].
    + destruct (split c s) as [|piece pieces]; inversion IH; subst.
      * constructor; [|constructor]. simpl. intros [?|[]]. congruence.
      * constructor; [|done]. simpl. intros [?|?]; [congruence | done].
Qed.

End StringFacts.

Lemma occurs_split_pieces (c d : ascii) (s : string) :
  ~ occurs d s -> Forall (fun piece => ~ occurs d piece) (split c s).
Proof.
  induction s as [|e s IH]; simpl; intros Hno.
  - constructor; [simpl; tauto | constructor].
  - assert (~ occurs d s) as Hs by tauto. specialize (IH Hs).
    destruct (Ascii.eqb_spec e c) as [->|Hne].
    + constructor; [simpl; tauto | done].
    + destruct (split c s) as [|piece pieces]; inversion IH; subst.
      * constructor; [|constructor]. simpl. tauto.
      * constructor; [|done]. simpl. tauto.
Qed.

(** ** Facts about objects *)

Lemma hasOwnProperty_iff (key : string) (props : list (string * string)) :
  hasOwnProperty key props = true <-> key ∈ props.*1.
Proof.
  induction props as [|[k v] props IH]; simpl.
  - split; [done | by intros ?%elem_of_nil].
  - rewrite elem_of_cons. destruct (String.eqb_spec k key) as [->|Hne]; simpl.
    + split; [by left | done].
    + rewrite IH. split; [by right | by intros [?|?]].
Qed.

Lemma hasOwnProperty_false (key : string) (props : list (string * string)) :
  hasOwnProperty key props = false <-> key ∉ props.*1.
Proof.
  rewrite <- hasOwnProperty_iff. by destruct (hasOwnProperty key props).
Qed.

Lemma get_None (key : string) (props : list (string * string)) :
  get key props = None <-> key ∉ props.*1.
Proof.
  induction props as [|[k v] props IH]; simpl.
  - split; [intros _; apply not_elem_of_nil | done].
  - rewrite not_elem_of_cons. destruct (String.eqb_spec k key) as [->|Hne].
    + split; [done | by intros [? _]].
    + rewrite IH. split; [by split | by intros [_ ?]].
Qed.

Lemma get_elem (key v : string) (props : list (string * string)) :
  get key props = Some v -> (key, v) ∈ props.
Proof.
  induction props as [|[k w] props IH]; simpl; [done|].
  destruct (String.eqb_spec k key) as [->|Hne].
  - intros [= ->]. apply list_elem_of_here.
  - intros H. by apply list_elem_of_further, IH.
Qed.

Lemma elem_get (key v : string) (props : list (string * string)) :
  NoDup props.*1 -> (key, v) ∈ props -> get key props = Some v.
Proof.
  induction props as [|[k w] props IH]; simpl; [by intros _ ?%elem_of_nil|].
  intros [Hk Hnd]%NoDup_cons [[= -> ->]|Hin]%elem_of_cons.
  - by rewrite String.eqb_refl.
  - destruct (String.eqb_spec k key) as [->|Hne]; [|by apply IH].
    exfalso. apply Hk. apply list_elem_of_fmap. by exists (key, v).
Qed.

Lemma keys_overwrite (key value : string) (props : list (string * string)) :
  (overwrite key value props).*1 = props.*1.
Proof.
  induction props as [|[k v] props IH]; [done|]. cbn [overwrite].
  destruct (String.eqb k key); [done|]. rewrite !fmap_cons. by rewrite IH.
Qed.

Lemma get_overwrite (key value key' : string) (props : list (string * string)) :
  key ∈ props.*1 ->
  get key' (overwrite key value props)
  = if decide (key' = key) then Some value else get key' props.
Proof.
  induction props as [|[k v] props IH]; simpl; [by intros ?%elem_of_nil|].
  intros Hin. destruct (String.eqb_spec k key) as [->|Hne]; simpl.
  - destruct (String.eqb_spec key key') as [->|Hne'].
    + by destruct (decide (key' = key')).
    + by destruct (decide (key' = key)).
  - apply elem_of_cons in Hin as [?|Hin]; [done|].
    destruct (String.eqb_spec k key') as [->|Hne'].
    + by destruct (decide (key' = key)).
    + by apply IH.
Qed.

Lemma get_insert_indexed (n : N) (key value key' : string)
    (props : list (string * string)) :
  key ∉ props.*1 ->
  get key' (insert_indexed n key value props)
  = if decide (key' = key) then Some value else get key' props.
Proof.
  induction props as [|[k v] props IH]; simpl; intros Hno.
  - destruct (String.eqb_spec key key') as [->|Hne].
    + by destruct (decide (key' = key')).
    + by destruct (decide (key' = key)).
  - apply not_elem_of_cons in Hno as [Hk Hno].
    assert (get key' ((key, value) :: (k, v) :: props)
            = if decide (key' = key) then Some value
              else if String.eqb k key' then Some v else get key' props) as Hfront.
    { simpl. destruct (String.eqb_spec key key') as [->|Hne].
      - by destruct (decide (key' = key')).
      - by destruct (decide (key' = key)). }
    destruct (array_index k) as [m|]; [|exact Hfront].
    destruct (m <? n)%N; [|exact Hfront].
    simpl. destruct (String.eqb_spec k key') as [->|Hne'].
    + by destruct (decide (key' = key)).
    + by apply IH.
Qed.

Lemma get_app_new (key value key' : string) (props : list (string * string)) :
  key ∉ props.*1 ->
  get key' (props ++ [(key, value)])
  = if decide (key' = key) then Some value else get key' props.
Proof.
  induction props as [|[k v] props IH]; simpl; intros Hno.
  - destruct (String.eqb_spec key key') as [->|Hne].
    + by destruct (decide (key' = key')).
    + by destruct (decide (key' = key)).
  - apply not_elem_of_cons in Hno as [Hk Hno].
    destruct (String.eqb_spec k key') as [->|Hne'].
    + by destruct (decide (key' = key)).
    + by apply IH.
Qed.

Lemma insert_indexed_perm (n : N) (key value : string)
    (props : list (string * string)) :
  insert_indexed n key value props ≡ₚ (key, value) :: props.
Proof.
  induction props as [|[k v] props IH]; simpl; [done|].
  destruct (array_index k) as [m|]; [|done].
  destruct (m <? n)%N; [|done].
  rewrite IH. apply Permutation_swap.
Qed.

(** An assignment sets the own property, unless the key is [__proto__],
    and leaves the other properties as they were. *)
Lemma lookup_assign (key value key' : string) (collection : object) :
  assign key value collection !! key'
  = if decide (key' = key /\ key <> "__proto__") then Some value
    else collection !! key'.
Proof.
  unfold assign, lookup, object_lookup.
  destruct (String.eqb_spec key "__proto__") as [->|Hproto].
  { destruct (decide (key' = "__proto__" /\ "__proto__" <> "__proto__"))
      as [[_ ?]|_]; done. }
  assert (forall o : option string,
             (if decide (key' = key /\ key <> "__proto__") then Some value else o)
             = if decide (key' = key) then Some value else o) as ->.
  { intros o. destruct (decide (key' = key)) as [->|Hne].
    - destruct (decide (key = key /\ key <> "__proto__")) as [_|H]; [done|].
      exfalso. by apply H.
    - destruct (decide (key' = key /\ key <> "__proto__")) as [[? _]|_]; done. }
  destruct (hasOwnProperty key (properties collection)) eqn:Hhas.
  - apply hasOwnProperty_iff in Hhas. simpl. by apply get_overwrite.
  - apply hasOwnProperty_false in Hhas.
    destruct (array_index key) as [n|]; simpl.
    + by apply get_insert_indexed.
    + by apply get_app_new.
Qed.

Lemma lookup_own_keys (key : string) (collection : object) :
  is_Some (collection !! key) <-> key ∈ own_keys collection.
Proof.
  unfold lookup, object_lookup, own_keys.
  destruct (get key (properties collection)) eqn:E.
  - split; [intros _ | by eexists].
    destruct (decide (key ∈ (properties collection).*1)) as [?|Hno]; [done|].
    apply get_None in Hno. congruence.
  - split; [by intros [? ?]|]. intros Hin. by apply get_None in E.
Qed.

Lemma assign_NoDup (key value : string) (collection : object) :
  NoDup (own_keys collection) -> NoDup (own_keys (assign key value collection)).
Proof.
  unfold assign, own_keys. intros Hnd.
  destruct (String.eqb key "__proto__"); [done|].
  destruct (hasOwnProperty key (properties collection)) eqn:Hhas; simpl.
  - by rewrite keys_overwrite.
  - apply hasOwnProperty_false in Hhas.
    assert (NoDup (((key, value) :: properties collection).*1)) as Hcons.
    { simpl. by apply NoDup_cons. }
    destruct (array_index key) as [n|]; simpl.
    + by rewrite (insert_indexed_perm n key value (properties collection)).
    + rewrite fmap_app. simpl.
      apply NoDup_app. split; [done|]. split; [|apply NoDup_singleton].
      intros k Hk ->%list_elem_of_singleton. done.
Qed.



(** What a sequence of assignments leaves under a key. *)
Lemma assign_all_lookup (kvs : list (string * string)) :
  forall (collection : object) (key : string),
  assign_all kvs collection !! key
  = if decide (key = "__proto__") then collection !! key
    else match last_value key kvs with
         | Some v => Some v
         | None => collection !! key
         end.
Proof.
  unfold assign_all.
  induction kvs as [|[k v] kvs IH]; intros collection key; simpl.
  - by destruct (decide (key = "__proto__")).
  - rewrite IH, lookup_assign.
    destruct (decide (key = "__proto__")) as [->|Hproto].
    + destruct (decide ("__proto__" = k /\ k <> "__proto__")) as [[<- ?]|_]; done.
    + destruct (last_value key kvs); [done|].
      destruct (decide (k = key)) as [->|Hne].
      * destruct (decide (key = key /\ key <> "__proto__")) as [_|H]; [done|].
        exfalso. by apply H.
      * destruct (decide (key = k /\ k <> "__proto__")) as [[? _]|_]; done.
Qed.

Lemma assign_all_NoDup (kvs : list (string * string)) :
  forall collection : object,
  NoDup (own_keys collection) -> NoDup (own_keys (assign_all kvs collection)).
Proof.
  unfold assign_all.
  induction kvs as [|[k v] kvs IH]; intros collection Hnd; simpl; [done|].
  by apply IH, assign_NoDup.
Qed.


Lemma group_of_lookup (toks : list string) (key : string) :
  key <> "__proto__" ->
  group_of toks !! key = last_value key (pairs toks).
Proof.
  intros Hproto. unfold group_of. rewrite assign_all_lookup.
  destruct (decide (key = "__proto__")); [done|].
  by destruct (last_value key (pairs toks)).
Qed.

Lemma group_of_proto (toks : list string) : group_of toks !! "__proto__" = None.
Proof. unfold group_of. by rewrite assign_all_lookup. Qed.

Lemma group_of_NoDup (toks : list string) : NoDup (own_keys (group_of toks)).
Proof. apply assign_all_NoDup. constructor. Qed.

(** ** Facts about the measure parser *)

(** Induction over a list two elements at a time. *)
Lemma list_pair_ind {A : Type} (P : list A -> Prop) :
  P [] -> (forall x, P [x]) -> (forall x y l, P l -> P (x :: y :: l)) ->
  forall l, P l.
Proof.
  intros Hnil Hone Hstep.
  assert (forall l, P l /\ forall x, P (x :: l)) as H.
  { induction l as [|y l [IH1 IH2]]; split; auto. }
  intros l. apply H.
Qed.

Lemma even_length_pairs (toks : list string) :
  Nat.Even (length toks) ->
  toks = flat_map (fun kv => [kv.1; kv.2]) (pairs toks).
Proof.
  induction toks as [| x | x y l IH] using list_pair_ind; intros Hev.
  - done.
  - destruct Hev as [n Hn]. simpl in Hn. lia.
  - simpl. f_equal. f_equal. apply IH.
    destruct Hev as [n Hn]. simpl in Hn. exists (pred n). lia.
Qed.

(** The loop of [chunk] ends, for a chunk size of two, within
    [length lst + 1] turns, whatever the list. *)
Lemma chunk_loop_two (lst : list string) :
  forall (fuel : nat) (chunks : list (list string)),
  length lst < fuel ->
  chunk_loop fuel lst 2 chunks = Returns (chunks ++ chunks2 lst).
Proof.
  induction lst as [| x | x y l IH] using list_pair_ind; intros fuel chunks Hlt.
  - destruct fuel; [lia|]. simpl. by rewrite app_nil_r.
  - destruct fuel as [|[|fuel]]; simpl in *; try lia. done.
  - destruct fuel as [|fuel]; simpl in *; [lia|].
    rewrite IH by lia. by rewrite <- app_assoc.
Qed.

Lemma chunk_two (lst : list string) : chunk lst 2 = Returns (chunks2 lst).
Proof. unfold chunk. rewrite chunk_loop_two by lia. done. Qed.

Lemma chunks2_even (toks : list string) :
  Nat.Even (length toks) ->
  chunks2 toks = map (fun kv => [kv.1; kv.2]) (pairs toks).
Proof.
  induction toks as [| x | x y l IH] using list_pair_ind; intros Hev.
  - done.
  - destruct Hev as [n Hn]. simpl in Hn. lia.
  - simpl. f_equal. apply IH.
    destruct Hev as [n Hn]. simpl in Hn. exists (pred n). lia.
Qed.

Lemma reduce_addAttributePair (kvs : list (string * string)) :
  forall collection : object,
  reduce addAttributePair (map (fun kv => [kv.1; kv.2]) kvs) collection
  = Returns (assign_all kvs collection).
Proof.
  induction kvs as [|[k v] kvs IH]; intros collection; simpl; [done|].
  apply IH.
Qed.

(** The guard of [parseGroup] rejects exactly the token sequences that are
    not well formed. *)
Lemma parseGroup_guard (toks : list string) :
  (length toks =? 0)%nat
  || negb (length toks mod 2 =? 0)%nat
  || (0 <? length (filter (fun a => isEmpty a = true) toks))%nat = false
  <-> well_formed toks.
Proof.
  unfold well_formed.
  rewrite !orb_false_iff, negb_false_iff, Nat.eqb_neq, Nat.eqb_eq, Nat.ltb_ge.
  split.
  - intros [[Hlen Hmod] Hfil]. split; [|split].
    + intros ->. by apply Hlen.
    + exists (length toks / 2). pose proof (Nat.div_mod_eq (length toks) 2). lia.
    + apply Forall_forall. intros t Hin ->.
      assert (EmptyString ∈ filter (fun a => isEmpty a = true) toks) as Hf.
      { apply list_elem_of_filter. by split. }
      destruct (filter (fun a => isEmpty a = true) toks); [by inversion Hf|].
      simpl in Hfil. lia.
  - intros (Hne & [n Hn] & Hall). split; [split|].
    + destruct toks; [done | simpl; lia].
    + rewrite Hn. rewrite Nat.mul_comm. apply Nat.Div0.mod_mul.
    + assert (filter (fun a => isEmpty a = true) toks = []) as ->; [|simpl; lia].
      clear -Hall. induction Hall as [|t l Ht _ IH]; [done|].
      rewrite filter_cons. destruct (decide (isEmpty t = true)) as [He|He]; [|done].
      destruct t; [done | discriminate].
Qed.

Lemma well_formed_dec (toks : list string) : {well_formed toks} + {~ well_formed toks}.
Proof.
  destruct ((length toks =? 0)%nat
            || negb (length toks mod 2 =? 0)%nat
            || (0 <? length (filter (fun a => isEmpty a = true) toks))%nat) eqn:E.
  - right. intros H. apply parseGroup_guard in H. congruence.
  - left. by apply parseGroup_guard.
Qed.

Lemma parseGroup_well_formed (group : string) :
  well_formed (split bar group) ->
  parseGroup group = Returns (group_of (split bar group)).
Proof.
  intros Hwf. unfold parseGroup.
  pose proof (proj2 (parseGroup_guard _) Hwf) as ->.
  rewrite chunk_two. destruct Hwf as (_ & Hev & _).
  rewrite chunks2_even by done.
  change (reduce addAttributePair
            (map (fun kv => [kv.1; kv.2]) (pairs (split bar group))) (Obj [])
          = Returns (group_of (split bar group))).
  by rewrite reduce_addAttributePair.
Qed.

Lemma parseGroup_ill_formed (group : string) :
  ~ well_formed (split bar group) ->
  parseGroup group = Throws (ParseError (Concat "Parsing group:" group)).
Proof.
  intros Hwf. unfold parseGroup.
  destruct ((length (split bar group) =? 0)%nat
            || negb (length (split bar group) mod 2 =? 0)%nat
            || (0 <? length (filter (fun a => isEmpty a = true) (split bar group)))%nat)
    eqn:E; [done|].
  apply parseGroup_guard in E. done.
Qed.

Lemma map_throwing_all (groups : list string) :
  Forall (fun g => well_formed (split bar g)) groups ->
  map_throwing parseGroup groups
  = Returns (map (fun g => group_of (split bar g)) groups).
Proof.
  induction 1 as [|g groups Hg _ IH]; simpl; [done|].
  rewrite parseGroup_well_formed by done. simpl.
  rewrite IH. done.
Qed.

Lemma map_throwing_some (groups : list string) :
  ~ Forall (fun g => well_formed (split bar g)) groups ->
  fails_with_ParseError (map_throwing parseGroup groups).
Proof.
  induction groups as [|g groups IH]; intros Hno.
  - exfalso. apply Hno. constructor.
  - simpl. destruct (well_formed_dec (split bar g)) as [Hg|Hg].
    + rewrite parseGroup_well_formed by done. simpl.
      destruct IH as [msg Hmsg].
      { intros Hall. apply Hno. by constructor. }
      rewrite Hmsg. by exists msg.
    + rewrite parseGroup_ill_formed by done. by eexists.
Qed.

(** ** Facts about the command parsers *)

Lemma split_fields (payload : string) :
  split bar payload = first_field payload :: trailing_fields payload.
Proof.
  unfold first_field, trailing_fields.
  destruct (split_head bar payload) as [rest ->]. done.
Qed.

Lemma length_split (c : ascii) (s : string) : length (split c s) = S (count c s).
Proof.
  induction s as [|d s IH]; simpl; [done|].
  destruct (Ascii.eqb d c); simpl; [by rewrite IH|].
  destruct (split c s); simpl in *; lia.
Qed.

Lemma split_two_parts (c : ascii) (s : string) :
  length (split c s) = 2 -> split c s = [before c s; after c s].
Proof.
  rewrite length_split. intros Hc.
  assert (occurs c s) as Hocc by (apply count_pos_iff; lia).
  rewrite split_present by done. f_equal.
  apply split_absent. rewrite <- count_pos_iff, count_after. lia.
Qed.

Lemma split_at_least_two (c : ascii) (s : string) :
  occurs c s ->
  split c s !! 0 = Some (before c s) /\
  split c s !! 1 = Some (before c (after c s)).
Proof.
  intros Hocc. rewrite split_present by done. split; [done|].
  destruct (split_head c (after c s)) as [rest ->]. done.
Qed.

Lemma before_after (c : ascii) (s : string) :
  occurs c s -> s = (before c s ++ String c (after c s))%string.
Proof.
  induction s as [|d s IH]; simpl; [tauto|]. intros Hocc.
  destruct (Ascii.eqb_spec d c) as [->|Hne]; [done|].
  change (String d s = String d (before c s ++ String c (after c s))%string).
  f_equal. apply IH. destruct Hocc; [congruence | done].
Qed.

Lemma two_parts_dec (field : string) : {two_parts field} + {~ two_parts field}.
Proof. unfold two_parts. apply Nat.eq_dec. Qed.

Lemma addAttribute_two_parts (collection : object) (field : string) :
  two_parts field ->
  addAttribute equals collection field
  = Returns (assign (key_value field).1 (key_value field).2 collection).
Proof.
  intros H. unfold addAttribute. by rewrite (split_two_parts _ _ H).
Qed.

Lemma addAttribute_other (collection : object) (field : string) :
  ~ two_parts field ->
  addAttribute equals collection field
  = Throws (ParseError (Concat "Extracting attribute:" field)).
Proof.
  unfold two_parts, addAttribute. intros H.
  destruct (split equals field) as [|a [|b [|d l]]]; try done.
Qed.

Lemma reduce_addAttribute_all (fields : list string) :
  forall collection : object,
  Forall two_parts fields ->
  reduce (addAttribute equals) fields collection
  = Returns (assign_all (map key_value fields) collection).
Proof.
  induction fields as [|f fields IH]; intros collection Hall; simpl; [done|].
  inversion Hall; subst.
  rewrite addAttribute_two_parts by done. simpl. by apply IH.
Qed.

Lemma reduce_addAttribute_some (fields : list string) :
  forall collection : object,
  ~ Forall two_parts fields ->
  fails_with_ParseError (reduce (addAttribute equals) fields collection).
Proof.
  induction fields as [|f fields IH]; intros collection Hno.
  - exfalso. apply Hno. constructor.
  - simpl. destruct (two_parts_dec f) as [Hf|Hf].
    + rewrite addAttribute_two_parts by done. simpl.
      apply IH. intros Hall. apply Hno. by constructor.
    + rewrite addAttribute_other by done. by eexists.
Qed.

Lemma Forall_two_parts_dec (fields : list string) :
  {Forall two_parts fields} + {~ Forall two_parts fields}.
Proof. apply Forall_dec. intros f. apply two_parts_dec. Qed.

Lemma command_unfold (payload : string) :
  command payload
  = if (indexOf at_sign (first_field payload) <? 0)%Z
    then Throws (ParseError (Concat "Parsing command:" payload))
    else
      commandData ← reduce (addAttribute equals) (trailing_fields payload) (Obj []);
      Returns {| ci_deviceId := split at_sign (first_field payload) !! 0;
                 ci_command := split at_sign (first_field payload) !! 1;
                 ci_params := commandData |}.
Proof. unfold command. by rewrite split_fields. Qed.

Lemma result_unfold (payload : string) :
  result payload
  = if (indexOf at_sign (first_field payload) <? 0)%Z
    then Throws (ParseError (Concat "Parsing command:" payload))
    else
      Returns {| cr_deviceId := split at_sign (first_field payload) !! 0;
                 cr_command := split at_sign (first_field payload) !! 1;
                 cr_result := trailing_fields payload !! 0 |}.
Proof. unfold result. by rewrite split_fields. Qed.

Lemma indexOf_nonneg (c : ascii) (s : string) :
  occurs c s -> (indexOf c s <? 0)%Z = false.
Proof.
  intros H. destruct (indexOf c s <? 0)%Z eqn:E; [|done].
  apply indexOf_neg_iff in E. done.
Qed.

Lemma indexOf_neg (c : ascii) (s : string) :
  ~ occurs c s -> (indexOf c s <? 0)%Z = true.
Proof. apply indexOf_neg_iff. Qed.

Lemma last_value_None (key : string) (kvs : list (string * string)) :
  last_value key kvs = None <-> key ∉ kvs.*1.
Proof.
  induction kvs as [|[k w] kvs IH]; simpl.
  - split; [intros _; apply not_elem_of_nil | done].
  - rewrite not_elem_of_cons.
    destruct (last_value key kvs) as [v'|].
    + split; [done|]. intros [_ Hno]. by apply IH in Hno.
    + destruct (decide (k = key)) as [->|Hne].
      * split; [done | intros [? _]; done].
      * split; [|done]. intros _. split; [done | by apply IH].
Qed.

Lemma last_value_app (key : string) (l1 l2 : list (string * string)) :
  last_value key (l1 ++ l2)
  = match last_value key l2 with
    | Some v => Some v
    | None => last_value key l1
    end.
Proof.
  induction l1 as [|[k w] l1 IH]; simpl.
  - by destruct (last_value key l2).
  - rewrite IH. by destruct (last_value key l2).
Qed.

Lemma last_value_Some (key : string) (kvs : list (string * string)) (v : string) :
  last_value key kvs = Some v <->
  exists earlier later, kvs = earlier ++ (key, v) :: later /\ key ∉ later.*1.
Proof.
  split.
  - revert v. induction kvs as [|[k w] kvs IH]; intros v; simpl; [done|].
    destruct (last_value key kvs) as [v'|] eqn:E.
    + intros [= ->]. destruct (IH v eq_refl) as (earlier & later & -> & Hl).
      by exists ((k, w) :: earlier), later.
    + destruct (decide (k = key)) as [->|Hne]; [|done].
      intros [= ->]. exists [], kvs. split; [done|]. by apply last_value_None.
  - intros (earlier & later & -> & Hl).
    rewrite last_value_app. simpl.
    apply last_value_None in Hl. rewrite Hl.
    by destruct (decide (key = key)).
Qed.

Lemma last_value_is_Some (key : string) (kvs : list (string * string)) :
  key ∈ kvs.*1 -> is_Some (last_value key kvs).
Proof.
  intros Hin. destruct (last_value key kvs) eqn:E; [done|].
  apply last_value_None in E. done.
Qed.

Lemma all_well_formed_dec (groups : list string) :
  {Forall (fun g => well_formed (split bar g)) groups}
  + {~ Forall (fun g => well_formed (split bar g)) groups}.
Proof. apply Forall_dec. intros g. apply well_formed_dec. Qed.

Lemma parse_returns_iff (payload : string) (groups : list object) :
  parse payload = Returns groups <->
  Forall (fun g => well_formed (split bar g)) (split hash payload) /\
  groups = map (fun g => group_of (split bar g)) (split hash payload).
Proof.
  unfold parse.
  destruct (all_well_formed_dec (split hash payload)) as [Hall|Hno].
  - rewrite map_throwing_all by done. split.
    + intros [= <-]. done.
    + intros [_ ->]. done.
  - destruct (map_throwing_some _ Hno) as [msg ->]. split; [done | tauto].
Qed.

Lemma parse_fails_iff (payload : string) :
  fails_with_ParseError (parse payload) <->
  ~ Forall (fun g => well_formed (split bar g)) (split hash payload).
Proof.
  unfold parse.
  destruct (all_well_formed_dec (split hash payload)) as [Hall|Hno].
  - rewrite map_throwing_all by done. split; [intros [msg ?]; done | tauto].
  - split; [done|]. intros _. by apply map_throwing_some.
Qed.

(** ** The measure parser: claims C3 and C8 *)

(** C3, as the specification words it, fails at its own example: on
    [a=1|b=2#c=3] the parser splits the second group on ['|'] into the single
    token [c=3], an odd number of tokens, and throws instead of returning the
    groups [{a:1, b:2}] and [{c:3}]. *)
Lemma parse_spec_example_rejected :
  parse "a=1|b=2#c=3" = Throws (ParseError (Concat "Parsing group:" "c=3")) /\
  parse "a=1|b=2#c=3"
  <> Returns [ Obj [("a", "1"); ("b", "2")]; Obj [("c", "3")] ].
Proof. split; [vm_compute; reflexivity | vm_compute; discriminate]. Qed.

(** C3 (amended): [parse] splits the payload on ['#'] into one or more groups
    and each group on ['|']; it returns the groups in order, each the object
    to which the consecutive tokens were assigned as key and value, exactly
    when every group is a non-empty, even-length token sequence without an
    empty token, and throws a [ParseError] otherwise.  Under every key other
    than [__proto__] a returned group holds the value that follows the last
    occurrence of the key.  The empty payload is rejected, and
    [a|1|b|2#c|3] yields [{a:1, b:2}] then [{c:3}]. *)
Theorem parse_measures_spec (payload : string) :
  split hash payload <> [] /\
  (forall groups : list object,
     parse payload = Returns groups <->
     Forall (fun g => well_formed (split bar g)) (split hash payload) /\
     groups = map (fun g => group_of (split bar g)) (split hash payload)) /\
  (forall (group key : string),
     key <> "__proto__" ->
     group_of (split bar group) !! key = last_value key (pairs (split bar group))) /\
  (fails_with_ParseError (parse payload) <->
     ~ Forall (fun g => well_formed (split bar g)) (split hash payload)) /\
  fails_with_ParseError (parse "") /\
  parse "a|1|b|2#c|3" = Returns [ Obj [("a", "1"); ("b", "2")]; Obj [("c", "3")] ].
Proof.
  split; [apply split_not_nil|].
  split; [apply parse_returns_iff|].
  split; [intros group key Hkey; by apply group_of_lookup|].
  split; [apply parse_fails_iff|].
  split.
  - eexists. vm_compute. reflexivity.
  - vm_compute. reflexivity.
Qed.

(** C8, as the specification words it, fails at its own example: [a=1|a=2]
    is accepted, but as the single pair with key [a=1] and value [a=2]; the
    resulting group has no key [a], so it does not map [a] to [2]. *)
Lemma duplicate_example_is_one_pair :
  parse "a=1|a=2" = Returns [ Obj [("a=1", "a=2")] ] /\
  ~ (exists group, parse "a=1|a=2" = Returns [group] /\ group !! "a" = Some "2").
Proof.
  split; [vm_compute; reflexivity|].
  intros (group & H & Hl). vm_compute in H. injection H as <-.
  vm_compute in Hl. discriminate.
Qed.

(** C8 (amended): when every group of a payload is well formed and some
    group holds the same key token, other than [__proto__], at two or more
    key positions (as in [a|1|a|2]), [parse] succeeds and the group it
    returns maps that key to the value that follows its last occurrence. *)
Theorem duplicate_key_last_wins
    (payload : string) (i : nat) (group key : string) :
  Forall (fun g => well_formed (split bar g)) (split hash payload) ->
  split hash payload !! i = Some group ->
  2 <= length (filter (fun kv => kv.1 = key) (pairs (split bar group))) ->
  key <> "__proto__" ->
  exists groups parsed earlier value later,
    parse payload = Returns groups /\
    groups !! i = Some parsed /\
    pairs (split bar group) = earlier ++ (key, value) :: later /\
    key ∈ earlier.*1 /\ (key ∉ later.*1) /\
    parsed !! key = Some value.
Proof.
  intros Hall Hi Hdup Hproto.
  assert (key ∈ (pairs (split bar group)).*1) as Hin.
  { destruct (filter (fun kv => kv.1 = key) (pairs (split bar group)))
      as [|kv l] eqn:E; [simpl in Hdup; lia|].
    assert (kv ∈ filter (fun kv => kv.1 = key) (pairs (split bar group))) as Hkv.
    { rewrite E. apply list_elem_of_here. }
    apply list_elem_of_filter in Hkv as [<- Hkv].
    apply list_elem_of_fmap. by exists kv. }
  destruct (last_value_is_Some _ _ Hin) as [value Hv].
  destruct (proj1 (last_value_Some _ _ _) Hv) as (earlier & later & Heq & Hlater).
  exists (map (fun g => group_of (split bar g)) (split hash payload)),
    (group_of (split bar group)), earlier, value, later.
  split; [|split; [|split; [|split; [|split]]]]; try done.
  - unfold parse. by apply map_throwing_all.
  - rewrite list_lookup_fmap, Hi. done.
  - rewrite Heq in Hdup. rewrite filter_app, length_app in Hdup.
    rewrite filter_cons in Hdup. simpl in Hdup.
    destruct (decide (key = key)); [|done]. simpl in Hdup.
    assert (filter (fun kv => kv.1 = key) later = []) as Hnil.
    { clear -Hlater. induction later as [|[k w] later IH]; [done|].
      rewrite filter_cons. simpl.
      apply not_elem_of_cons in Hlater as [Hne Hl]. simpl in Hne.
      destruct (decide (k = key)); [congruence|]. by apply IH. }
    rewrite Hnil in Hdup. simpl in Hdup.
    destruct (filter (fun kv => kv.1 = key) earlier) as [|kv l] eqn:E;
      [simpl in Hdup; lia|].
    assert (kv ∈ filter (fun kv => kv.1 = key) earlier) as Hkv.
    { rewrite E. apply list_elem_of_here. }
    apply list_elem_of_filter in Hkv as [<- Hkv].
    apply list_elem_of_fmap. by exists kv.
  - by rewrite group_of_lookup.
Qed.

Lemma duplicate_key_last_wins_witness :
  exists groups parsed earlier value later,
    parse "a|1|a|2" = Returns groups /\
    groups !! 0 = Some parsed /\
    pairs (split bar "a|1|a|2") = earlier ++ ("a", value) :: later /\
    "a" ∈ earlier.*1 /\ ("a" ∉ later.*1) /\
    parsed !! "a" = Some value.
Proof.
  apply (duplicate_key_last_wins "a|1|a|2" 0 "a|1|a|2" "a").
  - constructor; [|constructor]. apply parseGroup_guard. reflexivity.
  - reflexivity.
  - vm_compute. lia.
  - discriminate.
Defined.

Lemma result_accepts (payload : string) :
  occurs at_sign (first_field payload) ->
  result payload
  = Returns {| cr_deviceId := Some (before at_sign (first_field payload));
               cr_command :=
                 Some (before at_sign (after at_sign (first_field payload)));
               cr_result := trailing_fields payload !! 0 |}.
Proof.
  intros Hat. rewrite result_unfold, indexOf_nonneg by done.
  destruct (split_at_least_two _ _ Hat) as [-> ->]. done.
Qed.

Lemma command_accepts (payload : string) :
  occurs at_sign (first_field payload) ->
  Forall two_parts (trailing_fields payload) ->
  command payload
  = Returns {| ci_deviceId := Some (before at_sign (first_field payload));
               ci_command :=
                 Some (before at_sign (after at_sign (first_field payload)));
               ci_params :=
                 assign_all (map key_value (trailing_fields payload)) (Obj []) |}.
Proof.
  intros Hat Hall. rewrite command_unfold, indexOf_nonneg by done.
  rewrite reduce_addAttribute_all by done. simpl.
  destruct (split_at_least_two _ _ Hat) as [-> ->]. done.
Qed.

(** ** The command parsers: claims C4, C5, C9 and C10 *)

(** C4: [command] throws a [ParseError] when the first ['|']-delimited field
    has no ['@'] or when some trailing field does not split into exactly two
    parts on ['=']; otherwise it returns the invocation whose [deviceId] and
    [command] are the first two pieces of the first field split on ['@'].
    Its [params] hold the trailing [key=value] fields (a later field
    replacing an earlier one with the same key) for every key but
    [__proto__]: a field with that key is accepted and lost.  On
    [dev1@ping|times=3] it returns
    [{deviceId: dev1, command: ping, params: {times: 3}}]; on
    [d@c|__proto__=x] it returns empty [params]. *)
Theorem command_spec (payload : string) :
  (fails_with_ParseError (command payload) <->
     ~ occurs at_sign (first_field payload) \/
     ~ Forall two_parts (trailing_fields payload)) /\
  (occurs at_sign (first_field payload) /\
   Forall two_parts (trailing_fields payload) ->
     exists params,
       command payload
       = Returns {| ci_deviceId := Some (before at_sign (first_field payload));
                    ci_command :=
                      Some (before at_sign (after at_sign (first_field payload)));
                    ci_params := params |} /\
       split at_sign (first_field payload) !! 0
       = Some (before at_sign (first_field payload)) /\
       split at_sign (first_field payload) !! 1
       = Some (before at_sign (after at_sign (first_field payload))) /\
       (forall key,
          key <> "__proto__" ->
          params !! key
          = last_value key (map key_value (trailing_fields payload))) /\
       params !! "__proto__" = None) /\
  command "dev1@ping|times=3"
  = Returns {| ci_deviceId := Some "dev1";
               ci_command := Some "ping";
               ci_params := Obj [("times", "3")] |} /\
  two_parts "__proto__=x" /\
  command "d@c|__proto__=x"
  = Returns {| ci_deviceId := Some "d";
               ci_command := Some "c";
               ci_params := Obj [] |}.
Proof.
  split; [|split; [|split; [|split]]].
  - rewrite command_unfold.
    destruct (occurs_dec at_sign (first_field payload)) as [Hat|Hat].
    + rewrite indexOf_nonneg by done.
      destruct (Forall_two_parts_dec (trailing_fields payload)) as [Hall|Hno].
      * rewrite reduce_addAttribute_all by done. simpl.
        split; [intros [msg ?]; done | tauto].
      * destruct (reduce_addAttribute_some _ (Obj []) Hno) as [msg ->]. simpl.
        split; [tauto | intros _; by exists msg].
    + rewrite indexOf_neg by done. split; [tauto | intros _; by eexists].
  - intros [Hat Hall]. rewrite command_accepts by done.
    destruct (split_at_least_two _ _ Hat) as [H0 H1].
    eexists. split; [reflexivity|]. split; [done|]. split; [done|]. split.
    + intros key Hkey. rewrite assign_all_lookup.
      destruct (decide (key = "__proto__")); [done|].
      by destruct (last_value key (map key_value (trailing_fields payload))).
    + by rewrite assign_all_lookup.
  - vm_compute. reflexivity.
  - reflexivity.
  - vm_compute. reflexivity.
Qed.

(** C5: [result] throws a [ParseError] exactly when the first
    ['|']-delimited field has no ['@']; otherwise it returns the record whose
    [result] is the first ['|']-segment after the header, whatever follows
    that segment being dropped.  On [dev1@ping|OK|ignored] it returns
    [{deviceId: dev1, command: ping, result: OK}]. *)
Theorem result_spec (payload : string) :
  (fails_with_ParseError (result payload) <->
     ~ occurs at_sign (first_field payload)) /\
  (occurs at_sign (first_field payload) ->
     result payload
     = Returns {| cr_deviceId := Some (before at_sign (first_field payload));
                  cr_command :=
                    Some (before at_sign (after at_sign (first_field payload)));
                  cr_result := trailing_fields payload !! 0 |}) /\
  (forall header segment extra : string,
     occurs at_sign header -> ~ occurs bar header -> ~ occurs bar segment ->
     result (header ++ String bar (segment ++ String bar extra))
     = result (header ++ String bar segment) /\
     exists deviceId cmd,
       result (header ++ String bar segment)
       = Returns {| cr_deviceId := deviceId; cr_command := cmd;
                    cr_result := Some segment |}) /\
  result "dev1@ping|OK|ignored"
  = Returns {| cr_deviceId := Some "dev1";
               cr_command := Some "ping";
               cr_result := Some "OK" |}.
Proof.
  split; [|split; [|split]].
  - rewrite result_unfold.
    destruct (occurs_dec at_sign (first_field payload)) as [Hat|Hat].
    + rewrite indexOf_nonneg by done. split; [intros [msg ?]; done | tauto].
    + rewrite indexOf_neg by done. split; [tauto | intros _; by eexists].
  - apply result_accepts.
  - intros header segment extra Hat Hbar Hseg.
    unfold result.
    rewrite !split_app by done.
    rewrite (split_absent bar segment) by done.
    rewrite indexOf_nonneg by done. simpl. split; [done|]. eauto.
  - vm_compute. reflexivity.
Qed.

(** C9: a payload with an ['@'] and no ['|'] is accepted by [result]:
    [deviceId] and [command] come from the header and the [result] field is
    [undefined]. *)
Theorem result_without_segment (payload : string) :
  occurs at_sign payload -> ~ occurs bar payload ->
  result payload
  = Returns {| cr_deviceId := Some (before at_sign payload);
               cr_command := Some (before at_sign (after at_sign payload));
               cr_result := None |}.
Proof.
  intros Hat Hbar. unfold result.
  rewrite split_absent by done.
  rewrite indexOf_nonneg by done.
  destruct (split_at_least_two _ _ Hat) as [-> ->]. done.
Qed.

Lemma result_without_segment_witness :
  result "dev1@ping"
  = Returns {| cr_deviceId := Some "dev1";
               cr_command := Some "ping";
               cr_result := None |}.
Proof.
  apply (result_without_segment "dev1@ping").
  - simpl. tauto.
  - simpl. intros H. repeat (destruct H as [H|H]; [discriminate H|]). done.
Defined.

(** C10, as the specification words it, fails for [command]: the header of
    [a@b@c|x] has two ['@'], yet [command] throws because the trailing field
    [x] has no ['=']. *)
Lemma command_extra_at_rejected :
  2 <= count at_sign (first_field "a@b@c|x") /\
  command "a@b@c|x" = Throws (ParseError (Concat "Extracting attribute:" "x")).
Proof. split; [vm_compute; lia | vm_compute; reflexivity]. Qed.

(** C10 (amended): when the first ['|']-delimited field holds more than one
    ['@'], [result] succeeds, and [command] succeeds when every trailing
    field splits into exactly two parts on ['='] and throws a [ParseError]
    otherwise; both take the text before the first ['@'] as [deviceId] and
    the text between the first and the second ['@'] as [command], and what
    follows the second ['@'] in the header is dropped. *)
Theorem extra_at_signs_dropped (payload : string) :
  2 <= count at_sign (first_field payload) ->
  exists deviceId cmd rest,
    first_field payload
    = (deviceId ++ String at_sign (cmd ++ String at_sign rest))%string /\
    ~ occurs at_sign deviceId /\ ~ occurs at_sign cmd /\
    result payload
    = Returns {| cr_deviceId := Some deviceId;
                 cr_command := Some cmd;
                 cr_result := trailing_fields payload !! 0 |} /\
    (Forall two_parts (trailing_fields payload) ->
     exists params,
       command payload
       = Returns {| ci_deviceId := Some deviceId;
                    ci_command := Some cmd;
                    ci_params := params |}) /\
    (~ Forall two_parts (trailing_fields payload) ->
     fails_with_ParseError (command payload)).
Proof.
  intros Hcount.
  assert (occurs at_sign (first_field payload)) as Hat
    by (apply count_pos_iff; lia).
  assert (occurs at_sign (after at_sign (first_field payload))) as Hat2
    by (apply count_pos_iff; rewrite count_after; lia).
  exists (before at_sign (first_field payload)),
    (before at_sign (after at_sign (first_field payload))),
    (after at_sign (after at_sign (first_field payload))).
  split; [|split; [|split; [|split; [|split]]]].
  - rewrite <- (before_after _ _ Hat2). by apply before_after.
  - apply before_no_sep.
  - apply before_no_sep.
  - by apply result_accepts.
  - intros Hall. eexists. by apply command_accepts.
  - intros Hno. rewrite command_unfold, indexOf_nonneg by done.
    destruct (reduce_addAttribute_some _ (Obj []) Hno) as [msg ->].
    by exists msg.
Qed.

Lemma extra_at_signs_dropped_witness :
  exists deviceId cmd rest,
    first_field "a@b@c"
    = (deviceId ++ String at_sign (cmd ++ String at_sign rest))%string /\
    ~ occurs at_sign deviceId /\ ~ occurs at_sign cmd /\
    result "a@b@c"
    = Returns {| cr_deviceId := Some deviceId;
                 cr_command := Some cmd;
                 cr_result := trailing_fields "a@b@c" !! 0 |} /\
    (Forall two_parts (trailing_fields "a@b@c") ->
     exists params,
       command "a@b@c"
       = Returns {| ci_deviceId := Some deviceId;
                    ci_command := Some cmd;
                    ci_params := params |}) /\
    (~ Forall two_parts (trailing_fields "a@b@c") ->
     fails_with_ParseError (command "a@b@c")).
Proof.
  apply (extra_at_signs_dropped "a@b@c"). vm_compute. lia.
Defined.

(** ** The encoder of the specification: claim C6 *)

Lemma occurs_append (c : ascii) (a b : string) :
  occurs c (a ++ b)%string <-> occurs c a \/ occurs c b.
Proof.
  induction a as [|d a IH].
  - simpl. tauto.
  - change (occurs c (String d (a ++ b)%string) <-> occurs c (String d a) \/ occurs c b).
    simpl. tauto.
Qed.

Lemma occurs_join (c d : ascii) (pieces : list string) :
  d <> c -> Forall (fun piece => ~ occurs d piece) pieces ->
  ~ occurs d (join c pieces).
Proof.
  intros Hne. induction 1 as [|piece rest Hp Hrest IH]; [simpl; tauto|].
  destruct rest as [|piece' rest']; [done|].
  change (~ occurs d (piece ++ String c (join c (piece' :: rest')))%string).
  rewrite occurs_append. simpl. intros [?|[?|?]]; [done | congruence | done].
Qed.

Lemma pairs_elements (toks : list string) (k v : string) :
  (k, v) ∈ pairs toks -> k ∈ toks /\ v ∈ toks.
Proof.
  induction toks as [| x | x y l IH] using list_pair_ind; simpl.
  - by intros ?%elem_of_nil.
  - by intros ?%elem_of_nil.
  - intros [[= -> ->]|Hin]%elem_of_cons.
    + split; [apply list_elem_of_here|]. apply list_elem_of_further, list_elem_of_here.
    + destruct (IH Hin). split; by do 2 apply list_elem_of_further.
Qed.

Lemma last_value_elem (key v : string) (kvs : list (string * string)) :
  last_value key kvs = Some v -> (key, v) ∈ kvs.
Proof.
  intros (earlier & later & -> & _)%last_value_Some.
  apply elem_of_app. right. apply list_elem_of_here.
Qed.

(** The properties of a parsed group are the pairs of the group, a repeated
    key with its last value; [__proto__] is no property. *)
Lemma group_of_properties (toks : list string) (key value : string) :
  (key, value) ∈ properties (group_of toks) <->
  key <> "__proto__" /\ last_value key (pairs toks) = Some value.
Proof.
  split.
  - intros Hin. apply elem_get in Hin; [|apply group_of_NoDup].
    change (group_of toks !! key = Some value) in Hin.
    destruct (decide (key = "__proto__")) as [->|Hkey].
    + by rewrite group_of_proto in Hin.
    + by rewrite group_of_lookup in Hin.
  - intros [Hkey Hv]. apply get_elem.
    change (group_of toks !! key = Some value). by rewrite group_of_lookup.
Qed.











(** ** Facts about the agent *)

Section AgentFacts.

Context {World Error Config Arg : Type}.

Local Abbreviation StateT := (@State World Error Config Arg).
Local Abbreviation CallbackT := (@Callback World Error Config Arg).
Local Abbreviation BindingT := (@Binding World Error Config Arg).
Local Abbreviation MapStateT := (@MapState World Error Config Arg).
Local Abbreviation AsyncT := (@Async World Error).
Local Abbreviation EventT := (@Event Error).
Local Abbreviation PendingT := (gmap nat (@Continuation World Error)).

Implicit Types (s : StateT) (callback : CallbackT) (m : MapStateT)
  (evs : list EventT) (f : AsyncT) (p : PendingT).

Lemma extend_nothing s : extend s (world s) [] = s.
Proof. destruct s. unfold extend. simpl. by rewrite app_nil_r. Qed.

Lemma extend_extend s w evs w' evs' :
  extend (extend s w evs) w' evs' = extend s w' (evs ++ evs').
Proof. unfold extend. simpl. by rewrite app_assoc. Qed.

(** A call is the invocation and, when the function calls back, its
    callback and what follows. *)
Lemma call_run (c : Callee) f callback s (w : World) (result : option (option Error)) :
  answer f (world s) = (w, result) ->
  call c f callback s
  = match result with
    | Some r => callback r (extend s w [Invoked c; CalledBack c r])
    | None => extend s w [Invoked c]
    end.
Proof.
  unfold call, answer. cbn [world record].
  destruct (f (world s)) as [w1 [r|k|]].
  - intros [= <- <-]. unfold extend, record, set_world. simpl.
    by rewrite <- app_assoc.
  - destruct (k w1) as [w2 r]. intros [= <- <-].
    unfold extend, record, set_world. simpl. by rewrite <- app_assoc.
  - intros [= <- <-]. done.
Qed.

Lemma addHandler_fold (argument : list Arg) (functionName : string)
    (bindings : list BindingT) :
  forall (k : nat) (current : list (@Task World Error Config Arg)),
  fold_left (addHandler argument functionName)
    (imap (fun (i : nat) (binding : BindingT) => (k + i, binding)) bindings) current
  = current ++ handler_tasks argument functionName k bindings.
Proof.
  unfold handler_tasks.
  induction bindings as [|b bindings IH]; intros k current; simpl.
  - by rewrite app_nil_r.
  - rewrite (imap_ext _ (fun i binding => (S k + i, binding))) by (intros; simpl; f_equal; lia).
    rewrite IH. rewrite (IH (S k) (addHandler _ _ [] _)).
    unfold addHandler at 1 3. simpl.
    destruct (binding_handler b functionName); simpl.
    + by rewrite <- app_assoc.
    + done.
Qed.

Lemma handler_tasks_cons (argument : list Arg) (functionName : string)
    (k : nat) (b : BindingT) (bindings : list BindingT) :
  handler_tasks argument functionName k (b :: bindings)
  = match binding_handler b functionName with
    | Some h => [call (BindingHandler functionName k) (h argument)]
    | None => []
    end ++ handler_tasks argument functionName (S k) bindings.
Proof.
  unfold handler_tasks at 1. simpl.
  rewrite (imap_ext _ (fun i binding => (S k + i, binding)))
    by (intros; simpl; f_equal; lia).
  rewrite addHandler_fold. f_equal.
  unfold addHandler. simpl. rewrite Nat.add_0_r.
  by destruct (binding_handler b functionName).
Qed.

(** The series of the handlers is the handlers in turn. *)
Lemma series_handlers (argument : list Arg) (functionName : string)
    (bindings : list BindingT) :
  forall (k : nat) callback s,
  exists evs (w' : World) (result : option (option Error)),
    in_turn argument functionName k bindings (world s) evs w' result /\
    series (handler_tasks argument functionName k bindings) callback s
    = finish callback result (extend s w' evs).
Proof.
  induction bindings as [|b bindings IH]; intros k callback s.
  - exists [], (world s), (Some None). split; [constructor|].
    simpl. by rewrite extend_nothing.
  - rewrite handler_tasks_cons.
    destruct (binding_handler b functionName) as [h|] eqn:Hh.
    + cbn [app series].
      destruct (answer (h argument) (world s)) as [w1 [[e|]|]] eqn:Ha;
        rewrite (call_run _ _ _ _ _ _ Ha).
      * eexists _, w1, (Some (Some e)). split; [by eapply in_turn_failed|]. done.
      * destruct (IH (S k) callback
                    (extend s w1 [Invoked (BindingHandler functionName k);
                                  CalledBack (BindingHandler functionName k) None]))
          as (evs & w' & result & Hturn & Hrun).
        eexists _, w', result. split; [by eapply in_turn_next|].
        rewrite Hrun, extend_extend. done.
      * eexists _, w1, None. split; [by eapply in_turn_waiting|]. done.
    + destruct (IH (S k) callback s) as (evs & w' & result & Hturn & Hrun).
      exists evs, w', result. split; [by apply in_turn_skip|]. done.
Qed.

Lemma implementing_bounds (functionName : string) (bindings : list BindingT) :
  forall k i, i ∈ implementing functionName k bindings -> k <= i.
Proof.
  induction bindings as [|b bindings IH]; intros k i; simpl.
  - by intros ?%elem_of_nil.
  - destruct (binding_handler b functionName).
    + intros [->|Hin]%elem_of_cons; [lia|]. apply IH in Hin. lia.
    + intros Hin. apply IH in Hin. lia.
Qed.

Lemma implementing_elem (functionName : string) (bindings : list BindingT) :
  forall k i,
  i ∈ implementing functionName k bindings <->
  exists b, k <= i /\ bindings !! (i - k) = Some b /\
            is_Some (binding_handler b functionName).
Proof.
  induction bindings as [|b bindings IH]; intros k i; simpl.
  - split; [by intros ?%elem_of_nil | by intros (b & _ & ? & _)].
  - assert (i ∈ implementing functionName (S k) bindings <->
            exists b', S k <= i /\ (b :: bindings) !! (i - k) = Some b' /\
                       is_Some (binding_handler b' functionName)) as Hrest.
    { rewrite IH. split; intros (b' & Hle & Hl & Hh); exists b'.
      - split; [lia|]. split; [|done].
        replace (i - k) with (S (i - S k)) by lia. done.
      - split; [lia|]. split; [|done].
        replace (i - k) with (S (i - S k)) in Hl by lia. done. }
    destruct (binding_handler b functionName) as [h|] eqn:E.
    + rewrite elem_of_cons, Hrest. split.
      * intros [->|(b' & Hle & Hl & Hh)].
        -- exists b. rewrite Nat.sub_diag. split; [lia|]. split; [done|].
           rewrite E. eauto.
        -- exists b'. split; [lia|]. done.
      * intros (b' & Hle & Hl & Hh).
        destruct (decide (i = k)) as [->|Hne]; [by left|].
        right. exists b'. split; [lia|]. done.
    + rewrite Hrest. split.
      * intros (b' & Hle & Hl & Hh). exists b'. split; [lia|]. done.
      * intros (b' & Hle & Hl & Hh).
        destruct (decide (i = k)) as [->|Hne].
        -- rewrite Nat.sub_diag in Hl. simpl in Hl. injection Hl as <-.
           rewrite E in Hh. by destruct Hh.
        -- exists b'. split; [lia|]. done.
Qed.

Lemma implementing_sorted (functionName : string) (bindings : list BindingT) :
  forall k, StronglySorted lt (implementing functionName k bindings).
Proof.
  induction bindings as [|b bindings IH]; intros k; simpl; [constructor|].
  destruct (binding_handler b functionName); [|apply IH].
  constructor; [apply IH|].
  apply Forall_forall. intros i Hi%implementing_bounds. lia.
Qed.

(** The events of handlers called in turn: the implementing bindings in
    registration order, each calling back before the next is invoked, up to
    the first that fails or never calls back. *)
Lemma in_turn_events (argument : list Arg) (functionName : string)
    (k : nat) (bindings : list BindingT) (w : World) evs (w' : World)
    (result : option (option Error)) :
  in_turn argument functionName k bindings w evs w' result ->
  match result with
  | Some None =>
      evs = handler_events functionName
              (map (fun i => (i, None)) (implementing functionName k bindings))
  | Some (Some e) =>
      exists earlier i,
        (earlier ++ [i]) `prefix_of` implementing functionName k bindings /\
        evs = handler_events functionName
                (map (fun j => (j, None)) earlier ++ [(i, Some e)])
  | None =>
      exists earlier i,
        (earlier ++ [i]) `prefix_of` implementing functionName k bindings /\
        evs = handler_events functionName (map (fun j => (j, None)) earlier)
              ++ [Invoked (BindingHandler functionName i)]
  end.
Proof.
  induction 1 as [k w | k b bindings w evs w' result Hh _ IH
                  | k b bindings h w w1 evs w' result Hh Ha _ IH
                  | k b bindings h w w1 e Hh Ha
                  | k b bindings h w w1 Hh Ha];
    cbn [implementing]; rewrite ?Hh.
  - done.
  - exact IH.
  - destruct result as [[e|]|].
    + destruct IH as (earlier & i & Hpre & ->).
      exists (k :: earlier), i. split; [by apply prefix_cons|]. done.
    + by rewrite IH.
    + destruct IH as (earlier & i & Hpre & ->).
      exists (k :: earlier), i. split; [by apply prefix_cons|]. done.
  - exists [], k. split; [apply prefix_cons, prefix_nil | done].
  - exists [], k. split; [apply prefix_cons, prefix_nil | done].
Qed.

Lemma in_turn_nothing (argument : list Arg) (functionName : string)
    (k : nat) (bindings : list BindingT) (w : World) evs (w' : World)
    (result : option (option Error)) :
  in_turn argument functionName k bindings w evs w' result ->
  implementing functionName k bindings = [] ->
  evs = [] /\ w' = w /\ result = Some None.
Proof.
  induction 1 as [k w | k b bindings w evs w' result Hh _ IH
                  | k b bindings h w w1 evs w' result Hh Ha _ IH
                  | k b bindings h w w1 e Hh Ha
                  | k b bindings h w w1 Hh Ha];
    cbn [implementing]; rewrite ?Hh; try done.
Qed.

(** C1: [applyFunctionFromBinding], the broadcast of an event, applies the
    handlers named [functionName] of the registered bindings to its
    arguments in turn: in registration order, a binding without such a
    handler being passed over, each handler in the world left by the one
    before and only when that one has called back without error.  When all
    have, the callback gets no error; when one calls back with an error the
    callback gets that error and the implementing bindings after it are not
    invoked; when one never calls back, neither are they, and the callback is
    not called.  When no binding implements the handler the callback gets
    no error, in the unchanged state. *)
Theorem broadcast_in_sequence
    (argument : list Arg) (functionName : string) callback s :
  exists evs (w' : World) (result : option (option Error)),
    in_turn argument functionName 0 (transportBindings s) (world s) evs w' result /\
    applyFunctionFromBinding argument functionName callback s
    = finish callback result (extend s w' evs) /\
    match result with
    | Some None =>
        evs = handler_events functionName
                (map (fun i => (i, None))
                   (implementing functionName 0 (transportBindings s)))
    | Some (Some e) =>
        exists earlier i,
          (earlier ++ [i]) `prefix_of` implementing functionName 0 (transportBindings s) /\
          evs = handler_events functionName
                  (map (fun j => (j, None)) earlier ++ [(i, Some e)])
    | None =>
        exists earlier i,
          (earlier ++ [i]) `prefix_of` implementing functionName 0 (transportBindings s) /\
          evs = handler_events functionName (map (fun j => (j, None)) earlier)
                ++ [Invoked (BindingHandler functionName i)]
    end /\
    (implementing functionName 0 (transportBindings s) = [] ->
       applyFunctionFromBinding argument functionName callback s = callback None s) /\
    (forall i,
       i ∈ implementing functionName 0 (transportBindings s) <->
       exists b, transportBindings s !! i = Some b /\
                 is_Some (binding_handler b functionName)) /\
    StronglySorted lt (implementing functionName 0 (transportBindings s)).
Proof.
  destruct (series_handlers argument functionName (transportBindings s) 0 callback s)
    as (evs & w' & result & Hturn & Hrun).
  change (applyFunctionFromBinding argument functionName callback s
          = finish callback result (extend s w' evs)) in Hrun.
  exists evs, w', result.
  split; [done|]. split; [done|].
  split; [by apply (in_turn_events _ _ _ _ _ _ _ _ Hturn)|].
  split; [|split; [|apply implementing_sorted]].
  - intros Hnone.
    destruct (in_turn_nothing _ _ _ _ _ _ _ _ Hturn Hnone) as (-> & -> & ->).
    rewrite Hrun. simpl. by rewrite extend_nothing.
  - intros i. rewrite implementing_elem, Nat.sub_0_r.
    split; [intros (b & _ & ?); by exists b | intros (b & ?); exists b; split; [lia | done]].
Qed.

(** The example of the specification: of the bindings [A] (no handler), [B]
    (its handler fails) and [C] (a handler), only the handler of [B] is
    invoked, and the broadcast fails with the error of [B]. *)
Example broadcast_example :
  log (applyFunctionFromBinding ["id"; "type"; "attributes"] "commandHandler" report
         (Sample.initial
            [ Sample.binding Sample.succeeds_now Sample.succeeds_now None;
              Sample.binding Sample.succeeds_now Sample.succeeds_now
                (Some (Sample.fails_later "B failed"));
              Sample.binding Sample.succeeds_now Sample.succeeds_now
                (Some Sample.succeeds_now) ]))
  = [ Invoked (BindingHandler "commandHandler" 1);
      CalledBack (BindingHandler "commandHandler" 1) (Some "B failed");
      Completed (Some "B failed") ].
Proof. reflexivity. Qed.

(** A handler that never calls back leaves the broadcast waiting: the
    handler of the next binding is not invoked and the callback is not
    called. *)
Example broadcast_waits_example :
  log (applyFunctionFromBinding ["id"; "type"; "attributes"] "commandHandler" report
         (Sample.initial
            [ Sample.binding Sample.succeeds_now Sample.succeeds_now
                (Some Sample.never_calls_back);
              Sample.binding Sample.succeeds_now Sample.succeeds_now
                (Some Sample.succeeds_now) ]))
  = [ Invoked (BindingHandler "commandHandler" 0) ].
Proof. reflexivity. Qed.

(** *** [async.map] *)

Lemma performed_app (callee : nat -> Callee) (fs : list AsyncT)
    (w : World) p evs1 (w1 : World) p1 evs2 (w2 : World) p2 :
  performed callee fs w p evs1 w1 p1 ->
  performed callee fs w1 p1 evs2 w2 p2 ->
  performed callee fs w p (evs1 ++ evs2) w2 p2.
Proof.
  induction 1; intros Hrest; simpl; [done | | | |].
  - eapply performed_now; eauto.
  - eapply performed_later; eauto.
  - eapply performed_never; eauto.
  - eapply performed_callback; eauto.
Qed.

Lemma performed_events_of (callee : nat -> Callee) (fs : list AsyncT)
    (w : World) p evs (w' : World) p' :
  performed callee fs w p evs w' p' -> events_of callee evs.
Proof.
  unfold events_of.
  induction 1; repeat constructor; try done; eexists; eauto.
Qed.

(** Functions that never report an error leave no failure. *)
Lemma performed_no_failure (callee : nat -> Callee) (fs : list AsyncT)
    (w : World) p evs (w' : World) p' :
  Forall succeeds fs ->
  performed callee fs w p evs w' p' ->
  (forall i k, p !! i = Some k -> forall w0, (k w0).2 = None) ->
  no_failure evs.
Proof.
  intros Hfs. unfold no_failure.
  induction 1 as [w p | i f w w1 r p evs w' p' Hi Hf _ IH
                  | i f w w1 k p evs w' p' Hi Hf _ IH
                  | i f w w1 p evs w' p' Hi Hf _ IH
                  | i k w w1 r p evs w' p' Hi Hk _ IH]; intros Hp.
  - constructor.
  - assert (succeeds f) as Hs.
    { rewrite Forall_forall in Hfs. apply Hfs. by eapply list_elem_of_lookup_2. }
    specialize (Hs w). rewrite Hf in Hs. simpl in Hs. subst r.
    constructor; [intros ? ? [=]|]. constructor; [intros ? ? [=]|]. by apply IH.
  - assert (succeeds f) as Hs.
    { rewrite Forall_forall in Hfs. apply Hfs. by eapply list_elem_of_lookup_2. }
    specialize (Hs w). rewrite Hf in Hs. simpl in Hs.
    constructor; [intros ? ? [=]|]. apply IH.
    intros j k' [[<- <-]|[_ Hj]]%lookup_insert_Some; [done | by eapply Hp].
  - constructor; [intros ? ? [=]|]. by apply IH.
  - pose proof (Hp i k Hi w) as Hr. rewrite Hk in Hr. simpl in Hr. subst r.
    constructor; [intros ? ? [=]|]. apply IH.
    intros j k' [_ Hj]%lookup_delete_Some. by eapply Hp.
Qed.

Section AsyncMap.

Variables (callee : nat -> Callee) (fs : list AsyncT) (n : nat)
  (callback : CallbackT).

Lemma events_of_app evs1 evs2 :
  events_of callee evs1 -> events_of callee evs2 -> events_of callee (evs1 ++ evs2).
Proof. unfold events_of. rewrite Forall_app. tauto. Qed.

Lemma invocations_app evs1 evs2 :
  invocations (evs1 ++ evs2) = invocations evs1 ++ invocations evs2.
Proof. apply omap_app. Qed.

Lemma iteratorCallback_called err m :
  ms_called m = true ->
  ms_state (iteratorCallback n callback err m) = ms_state m /\
  ms_called (iteratorCallback n callback err m) = true /\
  ms_pending (iteratorCallback n callback err m) = ms_pending m.
Proof.
  intros Hc. unfold iteratorCallback, once. destruct err as [e|].
  - by rewrite Hc.
  - destruct (S (ms_completed m) =? n)%nat;
      cbn [ms_called ms_state ms_pending]; rewrite ?Hc; done.
Qed.

Lemma iteratorCallback_uncalled err m :
  ms_called m = false ->
  iteratorCallback n callback err m
  = match err with
    | Some e => {| ms_state := callback (Some e) (ms_state m);
                   ms_completed := ms_completed m;
                   ms_called := true;
                   ms_pending := ms_pending m |}
    | None =>
        if (S (ms_completed m) =? n)%nat
        then {| ms_state := callback None (ms_state m);
                ms_completed := S (ms_completed m);
                ms_called := true;
                ms_pending := ms_pending m |}
        else {| ms_state := ms_state m;
                ms_completed := S (ms_completed m);
                ms_called := false;
                ms_pending := ms_pending m |}
    end.
Proof.
  intros Hc. unfold iteratorCallback, once. destruct err as [e|].
  - by rewrite Hc.
  - destruct (S (ms_completed m) =? n)%nat;
      cbn [ms_called ms_state ms_pending ms_completed]; rewrite ?Hc; done.
Qed.

Lemma dispatch_called m (item : nat * AsyncT) :
  ms_called m = true ->
  fs !! item.1 = Some item.2 ->
  step_adds callee fs m (dispatch callee n callback m item) [callee item.1].
Proof.
  intros Hc Hitem. unfold step_adds, dispatch. cbn [world record].
  destruct (item.2 (world (ms_state m))) as [w [err|k|]] eqn:Hf.
  - match goal with |- context [iteratorCallback n callback err ?m1] =>
      destruct (iteratorCallback_called err m1 Hc) as (-> & -> & ->) end.
    split; [done|]. cbn [ms_state ms_pending log record set_world world transportBindings].
    exists [Invoked (callee item.1); CalledBack (callee item.1) err].
    rewrite <- app_assoc. split; [done|]. split; [done|]. split; [|done].
    eapply performed_now; [done | done | constructor].
  - cbn [ms_called ms_state ms_pending log record set_world world transportBindings].
    split; [done|]. exists [Invoked (callee item.1)].
    split; [done|]. split; [done|]. split; [|done].
    eapply performed_later; [done | done | constructor].
  - cbn [ms_called ms_state ms_pending log record set_world world transportBindings].
    split; [done|]. exists [Invoked (callee item.1)].
    split; [done|]. split; [done|]. split; [|done].
    eapply performed_never; [done | done | constructor].
Qed.

Lemma settle_called m (i : nat) :
  ms_called m = true ->
  step_adds callee fs m (settle callee n callback m i) [].
Proof.
  intros Hc. unfold step_adds, settle.
  destruct (ms_pending m !! i) as [k|] eqn:Hi.
  - destruct (k (world (ms_state m))) as [w err] eqn:Hk.
    match goal with |- context [iteratorCallback n callback err ?m1] =>
      destruct (iteratorCallback_called err m1 Hc) as (-> & -> & ->) end.
    split; [done|]. cbn [ms_state ms_pending log record set_world world transportBindings].
    exists [CalledBack (callee i) err].
    split; [done|]. split; [done|]. split; [|done].
    eapply performed_callback; [done | done | constructor].
  - split; [done|]. exists []. rewrite app_nil_r.
    split; [done|]. split; [done|]. split; [constructor | done].
Qed.

Lemma step_adds_trans m m1 m2 (l1 l2 : list Callee) :
  step_adds callee fs m m1 l1 -> step_adds callee fs m1 m2 l2 -> step_adds callee fs m m2 (l1 ++ l2).
Proof.
  intros (_ & evs1 & Hl1 & Ht1 & Hp1 & Hi1) (Hc & evs2 & Hl2 & Ht2 & Hp2 & Hi2).
  split; [done|]. exists (evs1 ++ evs2).
  rewrite Hl2, Hl1, Ht2, Ht1, <- app_assoc, invocations_app, Hi1, Hi2.
  split; [done|]. split; [done|]. split; [|done].
  by eapply performed_app.
Qed.

Lemma dispatches_called (items : list (nat * AsyncT)) :
  forall m,
  ms_called m = true ->
  Forall (fun item => fs !! item.1 = Some item.2) items ->
  step_adds callee fs m (fold_left (dispatch callee n callback) items m) (map callee items.*1).
Proof.
  induction items as [|item items IH]; intros m Hc Hitems; simpl.
  - split; [done|]. exists []. rewrite app_nil_r.
    split; [done|]. split; [done|]. split; [constructor | done].
  - apply Forall_cons in Hitems as [Hitem Hitems].
    pose proof (dispatch_called m item Hc Hitem) as H1.
    apply (step_adds_trans _ _ _ [_] _ H1). apply IH; [apply H1 | done].
Qed.

Lemma settles_called (schedule : list nat) :
  forall m,
  ms_called m = true ->
  step_adds callee fs m (fold_left (settle callee n callback) schedule m) [].
Proof.
  induction schedule as [|i schedule IH]; intros m Hc; simpl.
  - split; [done|]. exists []. rewrite app_nil_r.
    split; [done|]. split; [done|]. split; [constructor | done].
  - pose proof (settle_called m i Hc) as H1.
    apply (step_adds_trans _ _ _ [] _ H1). apply IH. apply H1.
Qed.

Lemma settles_nothing_pending (schedule : list nat) m :
  ms_pending m = ∅ -> fold_left (settle callee n callback) schedule m = m.
Proof.
  intros Hp. induction schedule as [|i schedule IH]; simpl; [done|].
  unfold settle at 2. rewrite Hp, lookup_empty. done.
Qed.

(** Once the final callback was called, the rest of the run is what the
    iteratees still to be invoked or to call back do. *)
Lemma called_run (items : list (nat * AsyncT)) (schedule : list nat)
    (completed : nat) p :
  Forall (fun item => fs !! item.1 = Some item.2) items ->
  let rest := fun s' =>
    ms_state (run_map callee n callback items schedule
                {| ms_state := s'; ms_completed := completed;
                   ms_called := true; ms_pending := p |}) in
  (forall s', exists evs p2,
      log (rest s') = log s' ++ evs /\
      transportBindings (rest s') = transportBindings s' /\
      performed callee fs (world s') p evs (world (rest s')) p2 /\
      invocations evs = map callee items.*1) /\
  (items = [] -> p = ∅ -> forall s', rest s' = s').
Proof.
  intros Hitems rest. split.
  - intros s'. unfold rest, run_map.
    set (m := {| ms_state := s'; ms_completed := completed;
                 ms_called := true; ms_pending := p |}).
    pose proof (dispatches_called items m eq_refl Hitems) as H1.
    pose proof (settles_called schedule _ (proj1 H1)) as H2.
    destruct (step_adds_trans _ _ _ _ _ H1 H2) as (_ & evs & Hl & Ht & Hp & Hi).
    exists evs, (ms_pending (fold_left (settle callee n callback) schedule
                               (fold_left (dispatch callee n callback) items m))).
    rewrite app_nil_r in Hi. done.
  - intros -> -> s'. unfold rest, run_map. simpl.
    by rewrite settles_nothing_pending.
Qed.

Lemma no_failure_app evs1 evs2 :
  no_failure evs1 -> no_failure evs2 -> no_failure (evs1 ++ evs2).
Proof. unfold no_failure. rewrite Forall_app. tauto. Qed.

Lemma no_failure_success (c : Callee) : no_failure [CalledBack c (None : option Error)].
Proof. repeat constructor. intros ? ? [=]. Qed.

Lemma no_failure_invoked (c : Callee) : no_failure [(Invoked c : EventT)].
Proof. repeat constructor. intros ? ? [=]. Qed.

Lemma settle_phase (s0 : StateT) (schedule : list nat) :
  forall m,
  map_inv callee fs n s0 n m ->
  (forall i, is_Some (ms_pending m !! i) -> i ∈ schedule) ->
  exists outcome s1 rest,
    ms_state (fold_left (settle callee n callback) schedule m)
    = rest (callback outcome s1) /\
    map_post callee fs n s0 outcome s1 rest.
Proof.
  induction schedule as [|i schedule IH];
    intros m (Hc & Htb & Hsize & Hlt & Hkeys & evs & Hlog & Hperf & Hnf & Hinv & Hdone) Hsched.
  - exfalso.
    assert (ms_pending m = ∅) as Hp.
    { apply map_empty. intros i. destruct (ms_pending m !! i) eqn:E; [|done].
      assert (i ∈ @nil nat) as Hin by (apply Hsched; eauto). by apply elem_of_nil in Hin. }
    rewrite Hp, map_size_empty in Hsize. lia.
  - simpl. unfold settle at 2.
    destruct (ms_pending m !! i) as [k|] eqn:E.
    + destruct (k (world (ms_state m))) as [w err] eqn:Hk.
      rewrite iteratorCallback_uncalled by done. cbn [ms_state ms_completed ms_pending].
      pose proof (map_size_delete_Some i (ms_pending m) (ltac:(eauto))) as Hdel.
      assert (performed callee fs (world s0) ∅ (evs ++ [CalledBack (callee i) err])
                w (delete i (ms_pending m))) as Hperf'.
      { eapply performed_app; [exact Hperf|].
        eapply performed_callback; [done | done | constructor]. }
      destruct err as [e|]; [|destruct (Nat.eqb_spec (S (ms_completed m)) n) as [Hn|Hn]].
      * destruct (called_run [] schedule (ms_completed m) (delete i (ms_pending m)))
          as [Hrest _]; [constructor|].
        exists (Some e),
          (record (CalledBack (callee i) (Some e)) (set_world w (ms_state m))),
          (fun s' => ms_state (run_map callee n callback [] schedule
                                 {| ms_state := s'; ms_completed := ms_completed m;
                                    ms_called := true;
                                    ms_pending := delete i (ms_pending m) |})).
        split; [reflexivity|].
        exists (evs ++ [CalledBack (callee i) (Some e)]), (delete i (ms_pending m)).
        simpl. rewrite Hlog, <- app_assoc.
        split; [done|]. split; [done|]. split; [done|].
        split; [|split; [done|]].
        -- intros s'. destruct (Hrest s') as (evs2 & p2 & Hl2 & Ht2 & Hp2 & Hi2).
           exists evs2, p2. split; [done|]. split; [done|]. split; [done|].
           rewrite !invocations_app, Hi2, Hinv. simpl. by rewrite !app_nil_r.
        -- intros e' [= <-]. by exists i, evs.
      * destruct (called_run [] schedule (S (ms_completed m)) (delete i (ms_pending m)))
          as [Hrest Hid]; [constructor|].
        assert (delete i (ms_pending m) = ∅) as Hempty.
        { apply map_size_empty_inv. lia. }
        exists None,
          (record (CalledBack (callee i) None) (set_world w (ms_state m))),
          (fun s' => ms_state (run_map callee n callback [] schedule
                                 {| ms_state := s'; ms_completed := S (ms_completed m);
                                    ms_called := true;
                                    ms_pending := delete i (ms_pending m) |})).
        split; [reflexivity|].
        exists (evs ++ [CalledBack (callee i) None]), (delete i (ms_pending m)).
        simpl. rewrite Hlog, <- app_assoc.
        split; [done|]. split; [done|]. split; [done|].
        split; [|split; [|done]].
        -- intros s'. destruct (Hrest s') as (evs2 & p2 & Hl2 & Ht2 & Hp2 & Hi2).
           exists evs2, p2. split; [done|]. split; [done|]. split; [done|].
           rewrite !invocations_app, Hi2, Hinv. simpl. by rewrite !app_nil_r.
        -- intros _. split; [by apply Hid|]. split; [done|].
           split; [apply no_failure_app; [done | apply no_failure_success]|].
           intros j Hj. apply elem_of_app.
           destruct (Hdone j Hj) as [Hpend|Hin]; [|by left].
           right. destruct (decide (j = i)) as [->|Hne]; [apply list_elem_of_here|].
           exfalso. rewrite <- (lookup_delete_ne (ms_pending m) i j) in Hpend by done.
           rewrite Hempty, lookup_empty in Hpend. by destruct Hpend.
      * apply IH.
        -- split; [done|]. split; [done|]. cbn [ms_completed ms_pending ms_state].
           split; [lia|]. split; [lia|].
           split.
           { intros j Hj. apply Hkeys. apply lookup_delete_is_Some in Hj. tauto. }
           exists (evs ++ [CalledBack (callee i) None]). simpl.
           rewrite Hlog, <- app_assoc. split; [done|]. split; [done|].
           split; [apply no_failure_app; [done | apply no_failure_success]|].
           split; [by rewrite invocations_app, Hinv, app_nil_r|].
           intros j Hj. destruct (decide (j = i)) as [->|Hne].
           { right. apply elem_of_app. right. apply list_elem_of_here. }
           destruct (Hdone j Hj) as [Hpend|Hin].
           ++ left. by rewrite lookup_delete_ne.
           ++ right. apply elem_of_app. by left.
        -- cbn [ms_pending]. intros j Hj. apply lookup_delete_is_Some in Hj as [Hne Hj].
           apply Hsched in Hj. apply elem_of_cons in Hj as [->|Hj]; done.
    + apply IH.
      * split; [done|]. split; [done|]. split; [done|]. split; [done|]. split; [done|].
        by exists evs.
      * intros j Hj. pose proof (Hsched j Hj) as Hin.
        apply elem_of_cons in Hin as [->|Hin]; [|done].
        rewrite E in Hj. by destruct Hj.
Qed.

Lemma items_indices (asyncs : list AsyncT) (k : nat) :
  (imap (fun (j : nat) (a : AsyncT) => (k + j, a)) asyncs).*1 = seq k (length asyncs).
Proof.
  revert k. induction asyncs as [|a asyncs IH]; intros k; simpl; [done|].
  rewrite Nat.add_0_r. f_equal.
  rewrite (imap_ext _ (fun j a => (S k + j, a))) by (intros; simpl; f_equal; lia).
  apply IH.
Qed.

Lemma items_functions (asyncs : list AsyncT) (k : nat) :
  (forall j a, asyncs !! j = Some a -> fs !! (k + j) = Some a) ->
  Forall (fun item => fs !! item.1 = Some item.2)
    (imap (fun (j : nat) (a : AsyncT) => (k + j, a)) asyncs).
Proof.
  intros Hfs. apply Forall_forall. intros [i a] Hin.
  apply elem_of_lookup_imap in Hin as (j & a' & [= -> ->] & Hj).
  by apply Hfs.
Qed.

Lemma seq_middle (k len : nat) :
  seq 0 k ++ k :: seq (S k) len = seq 0 (k + S len).
Proof.
  rewrite (seq_app k (S len) 0). done.
Qed.

Lemma dispatch_phase (s0 : StateT) (schedule : list nat) (asyncs : list AsyncT) :
  complete n schedule ->
  forall (k : nat) m,
  map_inv callee fs n s0 k m ->
  k + length asyncs = n ->
  (forall j a, asyncs !! j = Some a -> fs !! (k + j) = Some a) ->
  Forall calls_back asyncs ->
  exists outcome s1 rest,
    ms_state (run_map callee n callback (imap (fun (j : nat) (a : AsyncT) => (k + j, a)) asyncs)
                schedule m)
    = rest (callback outcome s1) /\
    map_post callee fs n s0 outcome s1 rest.
Proof.
  intros Hcomplete.
  induction asyncs as [|a asyncs IH];
    intros k m Hinv_m Hk Hfs Hback.
  - simpl in Hk. rewrite Nat.add_0_r in Hk. subst k.
    unfold run_map. simpl. apply settle_phase; [done|].
    intros i Hi. apply Hcomplete.
    destruct Hinv_m as (_ & _ & _ & _ & Hkeys & _). by apply Hkeys.
  - destruct Hinv_m
      as (Hc & Htb & Hsize & Hlt & Hkeys & evs & Hlog & Hperf & Hnf & Hinv & Hdone).
    simpl in Hk.
    apply Forall_cons in Hback as [Ha Hback].
    assert (fs !! k = Some a) as Hfk.
    { rewrite <- (Nat.add_0_r k). by apply Hfs. }
    assert (forall j a', asyncs !! j = Some a' -> fs !! (S k + j) = Some a') as Hfs'.
    { intros j a' Hj. replace (S k + j) with (k + S j) by lia. by apply Hfs. }
    assert (Forall (fun item => fs !! item.1 = Some item.2)
              (imap (fun (j : nat) (a : AsyncT) => (S k + j, a)) asyncs)) as Hitems
      by by apply items_functions.
    assert (ms_pending m !! k = None) as Hfresh.
    { destruct (ms_pending m !! k) eqn:E; [|done].
      assert (k < k) by (apply Hkeys; eauto). lia. }
    unfold run_map. rewrite imap_cons. simpl fold_left at 2.
    rewrite (imap_ext _ (fun j a => (S k + j, a))) by (intros; simpl; f_equal; lia).
    rewrite Nat.add_0_r.
    change (fold_left (settle callee n callback) schedule
              (fold_left (dispatch callee n callback)
                 (imap (fun (j : nat) (a : AsyncT) => (S k + j, a)) asyncs)
                 (dispatch callee n callback m (k, a))))
      with (run_map callee n callback (imap (fun (j : nat) (a : AsyncT) => (S k + j, a)) asyncs)
              schedule (dispatch callee n callback m (k, a))).
    unfold dispatch. cbn [fst snd world record].
    pose proof (Ha (world (ms_state m))) as Hnever.
    destruct (a (world (ms_state m))) as [w [err|kk|]] eqn:Hf; [| |done].
    + rewrite iteratorCallback_uncalled by done.
      cbn [ms_state ms_completed ms_pending].
      assert (performed callee fs (world s0) ∅
                (evs ++ [Invoked (callee k); CalledBack (callee k) err])
                w (ms_pending m)) as Hperf'.
      { eapply performed_app; [exact Hperf|].
        eapply performed_now; [done | done | constructor]. }
      destruct err as [e|]; [|destruct (Nat.eqb_spec (S (ms_completed m)) n) as [Hn|Hn]].
      * destruct (called_run
                    (imap (fun (j : nat) (a : AsyncT) => (S k + j, a)) asyncs)
                    schedule (ms_completed m) (ms_pending m) Hitems) as [Hrest _].
        exists (Some e),
          (record (CalledBack (callee k) (Some e))
             (set_world w (record (Invoked (callee k)) (ms_state m)))),
          (fun s' => ms_state
                       (run_map callee n callback (imap (fun (j : nat) (a : AsyncT) => (S k + j, a)) asyncs)
                          schedule
                          {| ms_state := s'; ms_completed := ms_completed m;
                             ms_called := true; ms_pending := ms_pending m |})).
        split; [reflexivity|].
        exists (evs ++ [Invoked (callee k); CalledBack (callee k) (Some e)]),
          (ms_pending m).
        simpl. rewrite Hlog, <- !app_assoc.
        split; [done|]. split; [done|]. split; [done|].
        split; [|split; [done|]].
        -- intros s'. destruct (Hrest s') as (evs2 & p2 & Hl2 & Ht2 & Hp2 & Hi2).
           exists evs2, p2. split; [done|]. split; [done|]. split; [done|].
           rewrite !invocations_app, Hi2, Hinv, items_indices. simpl.
           rewrite <- Hk, <- seq_middle, map_app, <- app_assoc. done.
        -- intros e' [= <-]. exists k, (evs ++ [Invoked (callee k)]).
           rewrite <- app_assoc. split; [done|].
           apply no_failure_app; [done | apply no_failure_invoked].
      * assert (asyncs = []) as -> by (destruct asyncs; [done | simpl in Hk; lia]).
        assert (ms_pending m = ∅) as Hempty by (apply map_size_empty_inv; simpl in Hk; lia).
        destruct (called_run [] schedule (S (ms_completed m)) (ms_pending m))
          as [Hrest Hid]; [constructor|].
        exists None,
          (record (CalledBack (callee k) None)
             (set_world w (record (Invoked (callee k)) (ms_state m)))),
          (fun s' => ms_state
                       (run_map callee n callback [] schedule
                          {| ms_state := s'; ms_completed := S (ms_completed m);
                             ms_called := true; ms_pending := ms_pending m |})).
        split; [reflexivity|].
        exists (evs ++ [Invoked (callee k); CalledBack (callee k) None]),
          (ms_pending m).
        simpl. rewrite Hlog, <- !app_assoc.
        split; [done|]. split; [done|]. split; [done|].
        split; [|split; [|done]].
        -- intros s'. destruct (Hrest s') as (evs2 & p2 & Hl2 & Ht2 & Hp2 & Hi2).
           exists evs2, p2. split; [done|]. split; [done|]. split; [done|].
           rewrite !invocations_app, Hi2, Hinv. simpl. rewrite app_nil_r.
           rewrite <- Hk. simpl. rewrite Nat.add_1_r, seq_S, map_app. done.
        -- intros _. split; [by apply Hid|]. split; [done|].
           split.
           { apply no_failure_app; [done|].
             apply (no_failure_app [_] [_]);
               [apply no_failure_invoked | apply no_failure_success]. }
           intros j Hj. apply elem_of_app.
           destruct (decide (j = k)) as [->|Hne].
           { right. apply list_elem_of_further, list_elem_of_here. }
           assert (j < k) as Hjk by (simpl in Hk; lia).
           destruct (Hdone j Hjk) as [Hpend|Hin]; [|by left].
           rewrite Hempty, lookup_empty in Hpend. by destruct Hpend.
      * apply IH; [|lia|done|done].
        split; [done|]. split; [done|]. cbn [ms_completed ms_pending ms_state].
        split; [lia|]. split; [lia|].
        split; [intros j Hj; apply Hkeys in Hj; lia|].
        exists (evs ++ [Invoked (callee k); CalledBack (callee k) None]).
        cbn [log record set_world world].
        rewrite Hlog, <- !app_assoc. split; [done|]. split; [done|].
        split.
        { apply no_failure_app; [done|].
          apply (no_failure_app [_] [_]);
            [apply no_failure_invoked | apply no_failure_success]. }
        split; [by rewrite invocations_app, Hinv, seq_S, map_app|].
        intros j Hj. destruct (decide (j = k)) as [->|Hne].
        { right. apply elem_of_app. right.
          apply list_elem_of_further, list_elem_of_here. }
        destruct (Hdone j ltac:(lia)) as [Hpend|Hin]; [by left|].
        right. apply elem_of_app. by left.
    + apply IH; [|lia|done|done].
      split; [done|]. split; [done|]. cbn [ms_completed ms_pending ms_state].
      split; [rewrite map_size_insert_None by done; lia|]. split; [done|].
      split.
      { intros j Hj. apply lookup_insert_is_Some in Hj as [->|[_ Hj]]; [lia|].
        apply Hkeys in Hj. lia. }
      exists (evs ++ [Invoked (callee k)]). cbn [log record set_world world].
      rewrite Hlog, <- !app_assoc. split; [done|].
      split.
      { eapply performed_app; [exact Hperf|].
        eapply performed_later; [done | done | constructor]. }
      split; [apply no_failure_app; [done | apply no_failure_invoked]|].
      split; [by rewrite invocations_app, Hinv, seq_S, map_app|].
      intros j Hj. destruct (decide (j = k)) as [->|Hne].
      { left. rewrite lookup_insert_eq. eauto. }
      destruct (Hdone j ltac:(lia)) as [Hpend|Hin].
      * left. by rewrite lookup_insert_ne.
      * right. apply elem_of_app. by left.
Qed.

Lemma settles_registry (schedule : list nat) :
  forall m,
  ms_called m = false ->
  (exists outcome s1 (rest : StateT -> StateT),
      ms_state (fold_left (settle callee n callback) schedule m)
      = rest (callback outcome s1) /\
      transportBindings s1 = transportBindings (ms_state m) /\
      forall s', transportBindings (rest s') = transportBindings s') \/
  (ms_called (fold_left (settle callee n callback) schedule m) = false /\
   transportBindings (ms_state (fold_left (settle callee n callback) schedule m))
   = transportBindings (ms_state m)).
Proof.
  induction schedule as [|i schedule IH]; intros m Hc; simpl; [by right|].
  unfold settle at 2 4 6.
  destruct (ms_pending m !! i) as [k|] eqn:E; [|by apply IH].
  destruct (k (world (ms_state m))) as [w err] eqn:Hk.
  rewrite iteratorCallback_uncalled by done. cbn [ms_state ms_completed ms_pending].
  assert (forall completed,
             exists outcome s1 (rest : StateT -> StateT),
               ms_state (fold_left (settle callee n callback) schedule
                           {| ms_state := callback err
                                            (record (CalledBack (callee i) err)
                                               (set_world w (ms_state m)));
                              ms_completed := completed;
                              ms_called := true;
                              ms_pending := delete i (ms_pending m) |})
               = rest (callback outcome s1) /\
               transportBindings s1 = transportBindings (ms_state m) /\
               forall s', transportBindings (rest s') = transportBindings s') as Hfired.
  { intros completed.
    destruct (called_run [] schedule completed (delete i (ms_pending m)))
      as [Hrest _]; [constructor|].
    exists err, (record (CalledBack (callee i) err) (set_world w (ms_state m))),
      (fun s' => ms_state (run_map callee n callback [] schedule
                             {| ms_state := s'; ms_completed := completed;
                                ms_called := true;
                                ms_pending := delete i (ms_pending m) |})).
    split; [reflexivity|]. split; [done|].
    intros s'. by destruct (Hrest s') as (? & ? & _ & ? & _). }
  destruct err as [e|]; [left; apply Hfired|].
  destruct (S (ms_completed m) =? n)%nat; [left; apply Hfired|].
  match goal with |- context [fold_left _ schedule ?m1] =>
    destruct (IH m1 eq_refl) as [H|H] end; [left; exact H | right; exact H].
Qed.

Lemma dispatches_registry (items : list (nat * AsyncT)) (schedule : list nat) :
  Forall (fun item => fs !! item.1 = Some item.2) items ->
  forall m,
  ms_called m = false ->
  (exists outcome s1 (rest : StateT -> StateT),
      ms_state (run_map callee n callback items schedule m)
      = rest (callback outcome s1) /\
      transportBindings s1 = transportBindings (ms_state m) /\
      forall s', transportBindings (rest s') = transportBindings s') \/
  (ms_called (run_map callee n callback items schedule m) = false /\
   transportBindings (ms_state (run_map callee n callback items schedule m))
   = transportBindings (ms_state m)).
Proof.
  induction 1 as [|item items Hitem Hitems IH]; intros m Hc.
  - unfold run_map. simpl. by apply settles_registry.
  - unfold run_map. simpl fold_left at 2 4 6.
    change (fold_left (settle callee n callback) schedule
              (fold_left (dispatch callee n callback) items
                 (dispatch callee n callback m item)))
      with (run_map callee n callback items schedule (dispatch callee n callback m item)).
    unfold dispatch. cbn [world record].
    destruct (item.2 (world (ms_state m))) as [w [err|k|]] eqn:Hf.
    + rewrite iteratorCallback_uncalled by done. cbn [ms_state ms_completed ms_pending].
      assert (forall completed,
                 exists outcome s1 (rest : StateT -> StateT),
                   ms_state (run_map callee n callback items schedule
                               {| ms_state := callback err
                                     (record (CalledBack (callee item.1) err)
                                        (set_world w (record (Invoked (callee item.1))
                                                        (ms_state m))));
                                  ms_completed := completed;
                                  ms_called := true;
                                  ms_pending := ms_pending m |})
                   = rest (callback outcome s1) /\
                   transportBindings s1 = transportBindings (ms_state m) /\
                   forall s', transportBindings (rest s') = transportBindings s')
        as Hfired.
      { intros completed.
        destruct (called_run items schedule completed (ms_pending m) Hitems)
          as [Hrest _].
        exists err,
          (record (CalledBack (callee item.1) err)
             (set_world w (record (Invoked (callee item.1)) (ms_state m)))),
          (fun s' => ms_state (run_map callee n callback items schedule
                                 {| ms_state := s'; ms_completed := completed;
                                    ms_called := true;
                                    ms_pending := ms_pending m |})).
        split; [reflexivity|]. split; [done|].
        intros s'. by destruct (Hrest s') as (? & ? & _ & ? & _). }
      destruct err as [e|]; [left; apply Hfired|].
      destruct (S (ms_completed m) =? n)%nat; [left; apply Hfired|].
      match goal with |- context [run_map _ _ _ items schedule ?m1] =>
        destruct (IH m1 eq_refl) as [H|H] end; [left; exact H | right; exact H].
    + match goal with |- context [run_map _ _ _ items schedule ?m1] =>
        destruct (IH m1 Hc) as [H|H] end; [left; exact H | right; exact H].
    + match goal with |- context [run_map _ _ _ items schedule ?m1] =>
        destruct (IH m1 Hc) as [H|H] end; [left; exact H | right; exact H].
Qed.

End AsyncMap.

Lemma async_map_run {A : Type} (callee : nat -> Callee) (coll : list A)
    (iteratee : A -> AsyncT) (schedule : list nat) callback s :
  complete (length coll) schedule ->
  Forall (fun item => calls_back (iteratee item)) coll ->
  exists outcome s1 rest,
    async_map callee coll iteratee schedule callback s = rest (callback outcome s1) /\
    map_post callee (map iteratee coll) (length coll) s outcome s1 rest.
Proof.
  intros Hcomplete Hback. unfold async_map.
  destruct coll as [|item coll].
  - exists None, s, (fun s' => s'). simpl. unfold once. simpl.
    rewrite settles_nothing_pending by done. split; [done|].
    exists [], ∅. rewrite app_nil_r. split; [done|]. split; [done|].
    split; [constructor|]. split; [|split; [|done]].
    + intros s'. exists [], ∅. rewrite app_nil_r. repeat split; try done. constructor.
    + intros _. split; [done|]. split; [done|]. split; [constructor|]. intros i Hi. lia.
  - change (length (item :: coll) =? 0)%nat with false. cbv iota.
    rewrite <- (length_map iteratee (item :: coll)) in Hcomplete |- *.
    assert (imap (fun (i : nat) (item0 : A) => (i, iteratee item0)) (item :: coll)
            = imap (fun (j : nat) (a : AsyncT) => (0 + j, a)) (map iteratee (item :: coll)))
      as -> by (symmetry; apply (imap_fmap _ iteratee)).
    apply (dispatch_phase callee (map iteratee (item :: coll)) _ callback s schedule
             (map iteratee (item :: coll)) Hcomplete 0); [|done|done|by apply Forall_fmap].
    unfold map_inv. cbn [ms_called ms_state ms_completed ms_pending].
    split; [done|]. split; [done|]. split; [done|]. split; [simpl; lia|].
    split; [intros i [? Hi]; by rewrite lookup_empty in Hi|].
    exists []. rewrite app_nil_r. split; [done|]. split; [constructor|].
    split; [constructor|]. split; [done|]. intros i Hi. lia.
Qed.

Lemma async_map_registry {A : Type} (callee : nat -> Callee) (coll : list A)
    (iteratee : A -> AsyncT) (schedule : list nat) callback s :
  keeps_registry callback s (async_map callee coll iteratee schedule callback s).
Proof.
  unfold async_map, keeps_registry.
  destruct coll as [|item coll].
  - left. exists None, s, (fun s' => s'). simpl. unfold once. simpl.
    by rewrite settles_nothing_pending.
  - change (length (item :: coll) =? 0)%nat with false. cbv iota.
    match goal with |- context [fold_left (dispatch _ ?len _) ?items ?m0] =>
      destruct (dispatches_registry callee (map iteratee (item :: coll)) len callback
                  items schedule) with (m := m0) as [H|[_ H]] end.
    + assert (imap (fun (i : nat) (item0 : A) => (i, iteratee item0)) (item :: coll)
              = imap (fun (j : nat) (a : AsyncT) => (0 + j, a))
                  (map iteratee (item :: coll)))
        as -> by (symmetry; apply (imap_fmap _ iteratee)).
      by apply items_functions.
    + done.
    + by left.
    + by right.
Qed.

(** C7, as the specification words it, fails: the first of two bindings
    reports an error when it calls back, and the aggregate callback is
    called with that error at once, before the second binding, which was
    started too, has called back. *)
Lemma startAll_does_not_wait :
  log (startTransportBindings tt
         [ Sample.binding (Sample.fails_later "boom") Sample.succeeds_now None;
           Sample.binding Sample.succeeds_later Sample.succeeds_now None ]
         [0; 1] report (Sample.initial []))
  = [ Invoked (BindingStart 0);
      Invoked (BindingStart 1);
      CalledBack (BindingStart 0) (Some "boom");
      Completed (Some "boom");
      CalledBack (BindingStart 1) None ].
Proof. reflexivity. Qed.

(** C7 (amended): when every binding calls back at some point,
    [startTransportBindings] applies [start] to the configuration for every
    binding found, in order, each in the world left by what came before,
    also after one of them has failed, and calls its callback once.  The
    callback gets no error only if every [start] called back without error,
    and then it is called after the last of them, nothing being left to
    come.  When a [start] fails, the callback gets the first error reported,
    at the moment it is reported: the bindings still to be started or to
    call back do so afterwards. *)
Theorem startAll_spec (newConfig : Config) (found : list BindingT)
    (schedule : list nat) callback s :
  complete (length found) schedule ->
  Forall (fun binding => calls_back (binding_start binding newConfig)) found ->
  exists outcome s1 rest evs1 p1,
    startTransportBindings newConfig found schedule callback s
    = rest (callback outcome s1) /\
    log s1 = log s ++ evs1 /\
    transportBindings s1 = found /\
    performed BindingStart (map (fun binding => binding_start binding newConfig) found)
      (world s) ∅ evs1 (world s1) p1 /\
    (forall s', exists evs2 p2,
        log (rest s') = log s' ++ evs2 /\
        transportBindings (rest s') = transportBindings s' /\
        performed BindingStart
          (map (fun binding => binding_start binding newConfig) found)
          (world s') p1 evs2 (world (rest s')) p2 /\
        invocations (evs1 ++ evs2) = map BindingStart (seq 0 (length found))) /\
    (outcome = None ->
       (forall s', rest s' = s') /\
       p1 = ∅ /\
       no_failure evs1 /\
       forall i, i < length found -> CalledBack (BindingStart i) None ∈ evs1) /\
    (forall e, outcome = Some e ->
       exists i pre,
         evs1 = pre ++ [CalledBack (BindingStart i) (Some e)] /\ no_failure pre).
Proof.
  intros Hcomplete Hback. unfold startTransportBindings.
  destruct (async_map_run BindingStart found
              (fun binding => binding_start binding newConfig) schedule callback
              (set_transportBindings found s) Hcomplete Hback)
    as (outcome & s1 & rest & Hrun & evs1 & p1 & Hpost).
  exists outcome, s1, rest, evs1, p1. split; [exact Hrun|]. exact Hpost.
Qed.

(** C2, as the specification words it, fails: when the [stop] of a binding
    reports an error, [async.series] ends there; neither [resetMiddlewares]
    nor [deactivate] is called, and [stop] still reports success. *)
Lemma stop_skips_backend :
  log (stop Sample.backend [0] report
         (Sample.initial
            [ Sample.binding Sample.succeeds_now (Sample.fails_now "boom") None ]))
  = [ Invoked (BindingStop 0);
      CalledBack (BindingStop 0) (Some "boom");
      Completed None ].
Proof. reflexivity. Qed.

(** When [resetMiddlewares] never calls back, [stop] is left waiting:
    [deactivate] is not called and neither is the callback. *)
Example stop_waits_example :
  log (stop {| resetMiddlewares := Sample.never_calls_back;
               deactivate := Sample.succeeds_now |}
         [0] report
         (Sample.initial
            [ Sample.binding Sample.succeeds_now Sample.succeeds_later None ]))
  = [ Invoked (BindingStop 0);
      CalledBack (BindingStop 0) None;
      Invoked ResetMiddlewares ].
Proof. reflexivity. Qed.

(** The two backend steps of [stop], started in the state [s1]. *)
Lemma backend_run (lib : @IotAgentLib World Error) callback s1 :
  series [ call ResetMiddlewares (resetMiddlewares lib);
           call Deactivate (deactivate lib) ]
    (fun _ => callback None) s1
  = (if (backend_steps lib (world s1)).2 then callback None else fun s' => s')
      (extend s1 (backend_steps lib (world s1)).1.1 (backend_steps lib (world s1)).1.2).
Proof.
  unfold backend_steps. cbn [series].
  destruct (answer (resetMiddlewares lib) (world s1)) as [w2 [[e|]|]] eqn:Hreset;
    rewrite (call_run _ _ _ _ _ _ Hreset); [done | | done].
  cbn [series].
  destruct (answer (deactivate lib) w2) as [w3 [r|]] eqn:Hdeact.
  - rewrite (call_run _ _ _ _ w3 (Some r)) by done.
    rewrite extend_extend. by destruct r.
  - rewrite (call_run _ _ _ _ w3 None) by done.
    by rewrite extend_extend.
Qed.

Lemma backend_steps_reached (lib : @IotAgentLib World Error) (w : World) :
  calls_back (resetMiddlewares lib) -> calls_back (deactivate lib) ->
  (backend_steps lib w).2 = true.
Proof.
  assert (forall f w0, calls_back f -> (answer f w0).2 <> None) as Hanswer.
  { intros f w0 Hf. unfold answer. specialize (Hf w0).
    destruct (f w0) as [w1 [r|k|]]; [done | by destruct (k w1) | done]. }
  intros Hreset Hdeact. unfold backend_steps.
  pose proof (Hanswer _ w Hreset) as H1.
  destruct (answer (resetMiddlewares lib) w) as [w2 [[e|]|]]; [done | | done].
  pose proof (Hanswer _ w2 Hdeact) as H2.
  by destruct (answer (deactivate lib) w2) as [w3 [r|]].
Qed.

(** C2 (amended): when every binding calls back at some point, [stop] first
    stops the bindings, each [stop] applied in the world left by what came
    before.  If one of them fails the backend is left alone and the callback
    is called at once, without error.  Otherwise, all bindings having called
    back, [resetMiddlewares] is called in the world they left, and
    [deactivate] after it, in the world it left, only if it has called back
    without error; the callback is then called, without error whatever the
    two have reported, as soon as one of them has reported an error or
    [deactivate] has called back.  It is reached whenever [resetMiddlewares]
    and [deactivate] call back. *)
Theorem stop_steps (lib : @IotAgentLib World Error) (schedule : list nat) callback s :
  complete (length (transportBindings s)) schedule ->
  Forall (fun binding => calls_back (binding_stop binding)) (transportBindings s) ->
  exists outcome s1 rest evs1 p1,
    log s1 = log s ++ evs1 /\
    transportBindings s1 = transportBindings s /\
    performed BindingStop (map (fun binding => binding_stop binding) (transportBindings s))
      (world s) ∅ evs1 (world s1) p1 /\
    (forall s', exists evs2 p2,
        log (rest s') = log s' ++ evs2 /\
        performed BindingStop
          (map (fun binding => binding_stop binding) (transportBindings s))
          (world s') p1 evs2 (world (rest s')) p2) /\
    (forall e, outcome = Some e ->
       (exists i pre,
          evs1 = pre ++ [CalledBack (BindingStop i) (Some e)] /\ no_failure pre) /\
       stop lib schedule callback s = rest (callback None s1)) /\
    (outcome = None ->
       all_called_back BindingStop (length (transportBindings s)) evs1 /\
       (forall s', rest s' = s') /\
       stop lib schedule callback s
       = (if (backend_steps lib (world s1)).2 then callback None else fun s' => s')
           (extend s1 (backend_steps lib (world s1)).1.1
              (backend_steps lib (world s1)).1.2)) /\
    (calls_back (resetMiddlewares lib) -> calls_back (deactivate lib) ->
     exists s2, stop lib schedule callback s = rest (callback None s2)).
Proof.
  intros Hcomplete Hback. unfold stop, stopTransportBindings. cbn [series].
  match goal with |- context [async_map _ _ _ _ ?K s] => set (K1 := K) end.
  destruct (async_map_run BindingStop (transportBindings s)
              (fun binding => binding_stop binding) schedule K1 s Hcomplete Hback)
    as (outcome & s1 & rest & Hrun & evs1 & p1 & Hlog1 & Htb1 & Hperf1 & Hrest & Hnone & Hsome).
  rewrite Hrun.
  exists outcome, s1, rest, evs1, p1.
  split; [done|]. split; [done|]. split; [done|].
  split.
  { intros s'. destruct (Hrest s') as (evs2 & p2 & ? & _ & ? & _). by exists evs2, p2. }
  assert (K1 None s1
          = (if (backend_steps lib (world s1)).2 then callback None else fun s' => s')
              (extend s1 (backend_steps lib (world s1)).1.1
                 (backend_steps lib (world s1)).1.2)) as Hbackend
    by apply backend_run.
  split; [|split].
  - intros e ->. split; [by apply Hsome | done].
  - intros ->. destruct (Hnone eq_refl) as (Hid & _ & Hnf & Hall).
    split; [|split; [done|]].
    + split; [by eapply performed_events_of|]. split; [done|]. split; [|done].
      destruct (Hrest s1) as (evs2 & p2 & Hl2 & _ & _ & Hinv).
      rewrite Hid in Hl2. rewrite <- (app_nil_r (log s1)) in Hl2 at 1.
      apply app_inv_head in Hl2. subst evs2. by rewrite app_nil_r in Hinv.
    + by rewrite Hid, Hbackend.
  - intros Hreset Hdeact. destruct outcome as [e|]; [by exists s1|].
    rewrite Hbackend, backend_steps_reached by done. eauto.
Qed.

End AgentFacts.

Lemma complete_two : complete 2 [0; 1].
Proof.
  intros i Hi. destruct i as [|[|i]]; [| |lia].
  - apply list_elem_of_here.
  - apply list_elem_of_further, list_elem_of_here.
Defined.

Lemma calls_back_now (r : option string) :
  calls_back (fun w : unit => (w, Now r)).
Proof. intros w. discriminate. Defined.

Lemma calls_back_later (k : @Continuation unit string) :
  calls_back (fun w : unit => (w, Later k)).
Proof. intros w. discriminate. Defined.

Lemma startAll_spec_witness :
  exists outcome s1 rest evs1 p1,
    startTransportBindings tt
      [ Sample.binding Sample.succeeds_later Sample.succeeds_now None;
        Sample.binding Sample.succeeds_now Sample.succeeds_now None ]
      [0; 1] report (Sample.initial [])
    = rest (report outcome s1) /\
    log s1 = log (Sample.initial []) ++ evs1 /\
    transportBindings s1
    = [ Sample.binding Sample.succeeds_later Sample.succeeds_now None;
        Sample.binding Sample.succeeds_now Sample.succeeds_now None ] /\
    performed BindingStart [Sample.succeeds_later; Sample.succeeds_now]
      tt ∅ evs1 (world s1) p1 /\
    (forall s', exists evs2 p2,
        log (rest s') = log s' ++ evs2 /\
        transportBindings (rest s') = transportBindings s' /\
        performed BindingStart [Sample.succeeds_later; Sample.succeeds_now]
          (world s') p1 evs2 (world (rest s')) p2 /\
        invocations (evs1 ++ evs2) = map BindingStart (seq 0 2)) /\
    (outcome = None ->
       (forall s', rest s' = s') /\
       p1 = ∅ /\
       no_failure evs1 /\
       forall i, i < 2 -> CalledBack (BindingStart i) None ∈ evs1) /\
    (forall e, outcome = Some e ->
       exists i pre,
         evs1 = pre ++ [CalledBack (BindingStart i) (Some e)] /\ no_failure pre).
Proof.
  apply (startAll_spec tt
           [ Sample.binding Sample.succeeds_later Sample.succeeds_now None;
             Sample.binding Sample.succeeds_now Sample.succeeds_now None ]
           [0; 1] report (Sample.initial [])).
  - exact complete_two.
  - apply Forall_cons. split; [exact (calls_back_later _)|].
    apply Forall_cons. split; [exact (calls_back_now _) | constructor].
Defined.

Lemma stop_steps_witness :
  exists outcome s1 rest evs1 p1,
    log s1 = [] ++ evs1 /\
    transportBindings s1
    = [ Sample.binding Sample.succeeds_now Sample.succeeds_later None;
        Sample.binding Sample.succeeds_now Sample.succeeds_now None ] /\
    performed BindingStop [Sample.succeeds_later; Sample.succeeds_now]
      tt ∅ evs1 (world s1) p1 /\
    (forall s', exists evs2 p2,
        log (rest s') = log s' ++ evs2 /\
        performed BindingStop [Sample.succeeds_later; Sample.succeeds_now]
          (world s') p1 evs2 (world (rest s')) p2) /\
    (forall e, outcome = Some e ->
       (exists i pre,
          evs1 = pre ++ [CalledBack (BindingStop i) (Some e)] /\ no_failure pre) /\
       stop Sample.backend [0; 1] report
         (Sample.initial
            [ Sample.binding Sample.succeeds_now Sample.succeeds_later None;
              Sample.binding Sample.succeeds_now Sample.succeeds_now None ])
       = rest (report None s1)) /\
    (outcome = None ->
       all_called_back BindingStop 2 evs1 /\
       (forall s', rest s' = s') /\
       stop Sample.backend [0; 1] report
         (Sample.initial
            [ Sample.binding Sample.succeeds_now Sample.succeeds_later None;
              Sample.binding Sample.succeeds_now Sample.succeeds_now None ])
       = (if (backend_steps Sample.backend (world s1)).2
          then report None else fun s' => s')
           (extend s1 (backend_steps Sample.backend (world s1)).1.1
              (backend_steps Sample.backend (world s1)).1.2)) /\
    (calls_back (resetMiddlewares Sample.backend) ->
     calls_back (deactivate Sample.backend) ->
     exists s2,
       stop Sample.backend [0; 1] report
         (Sample.initial
            [ Sample.binding Sample.succeeds_now Sample.succeeds_later None;
              Sample.binding Sample.succeeds_now Sample.succeeds_now None ])
       = rest (report None s2)).
Proof.
  apply (stop_steps Sample.backend [0; 1] report
           (Sample.initial
              [ Sample.binding Sample.succeeds_now Sample.succeeds_later None;
                Sample.binding Sample.succeeds_now Sample.succeeds_now None ])).
  - exact complete_two.
  - apply Forall_cons. split; [exact (calls_back_later _)|].
    apply Forall_cons. split; [exact (calls_back_now _) | constructor].
Defined.

(** ** More facts about the parser *)

Lemma chunk_loop_partitions {A : Type} (size : nat) :
  0 < size ->
  forall (fuel : nat) (lst : list A) (acc : list (list A)),
  length lst < fuel ->
  exists chunks,
    chunk_loop fuel lst size acc = Returns (acc ++ chunks) /\
    concat chunks = lst /\
    Forall (fun c => 0 < length c <= size) chunks /\
    (forall i c, chunks !! i = Some c -> S i < length chunks -> length c = size).
Proof.
  intros Hsize. induction fuel as [|fuel IH]; intros lst acc Hlt; [lia|].
  destruct lst as [|x lst].
  - exists []. simpl. rewrite app_nil_r. repeat split; [constructor|].
    intros i c Hi. by rewrite lookup_nil in Hi.
  - cbn [chunk_loop].
    assert (length (drop size (x :: lst)) < fuel) as Hd.
    { rewrite length_drop. simpl in *. lia. }
    destruct (IH (drop size (x :: lst)) (acc ++ [take size (x :: lst)]) Hd)
      as (chunks & Hrun & Hcat & Hall & Hfull).
    exists (take size (x :: lst) :: chunks).
    split; [by rewrite Hrun, <- app_assoc|].
    split; [simpl; by rewrite Hcat, take_drop|].
    split.
    { constructor; [|done]. rewrite length_take. simpl. lia. }
    intros i c Hi Hlen. destruct i as [|i]; simpl in *.
    + injection Hi as <-. rewrite length_take.
      destruct chunks as [|c' chunks]; [simpl in Hlen; lia|].
      inversion Hall as [|? ? Hc' _]; subst.
      assert (0 < length (drop size (x :: lst))) as Hpos.
      { rewrite <- Hcat. simpl. rewrite length_app. lia. }
      rewrite length_drop in Hpos. simpl in *. lia.
    + apply (Hfull i c Hi). lia.
Qed.

(** X1: for a chunk size of at least one, [chunk] returns, whatever the
    list: the chunks put end to end are the list, no chunk is empty or
    longer than [size], and every chunk but the last has exactly [size]
    elements. *)
Theorem chunk_partitions {A : Type} (lst : list A) (size : nat) :
  0 < size ->
  exists chunks,
    chunk lst size = Returns chunks /\
    concat chunks = lst /\
    Forall (fun c => 0 < length c <= size) chunks /\
    (forall i c, chunks !! i = Some c -> S i < length chunks -> length c = size).
Proof.
  intros Hsize. unfold chunk.
  destruct (chunk_loop_partitions size Hsize (S (length lst)) lst [] ltac:(lia))
    as (chunks & Hrun & H).
  exists chunks. by split.
Qed.

Lemma chunk_partitions_witness :
  exists chunks,
    chunk [1; 2; 3; 4; 5] 2 = Returns chunks /\
    concat chunks = [1; 2; 3; 4; 5] /\
    Forall (fun c => 0 < length c <= 2) chunks /\
    (forall i c, chunks !! i = Some c -> S i < length chunks -> length c = 2).
Proof. apply (chunk_partitions [1; 2; 3; 4; 5] 2). lia. Defined.

(** X2: with a chunk size of zero, [chunk] does not return on a non-empty
    list: [splice(0, 0)] removes nothing, so the loop [while (list.length)]
    runs out of any number of turns. *)
Theorem chunk_zero_diverges {A : Type} (lst : list A) :
  lst <> [] ->
  (forall (fuel : nat) (chunks : list (list A)),
     chunk_loop fuel lst 0 chunks = Diverges) /\
  chunk lst 0 = Diverges.
Proof.
  intros Hne.
  assert (forall (fuel : nat) (chunks : list (list A)),
             chunk_loop fuel lst 0 chunks = Diverges) as H.
  { induction fuel as [|fuel IH]; intros chunks; [done|].
    destruct lst as [|x lst]; [done|]. cbn [chunk_loop]. rewrite drop_0. apply IH. }
  split; [done | apply H].
Qed.

Lemma chunk_zero_diverges_witness :
  (forall (fuel : nat) (chunks : list (list nat)),
     chunk_loop fuel [7] 0 chunks = Diverges) /\
  chunk [7] 0 = Diverges.
Proof. apply (chunk_zero_diverges [7]). discriminate. Defined.

(** *** Tokens and stray separators *)

(** A character put in front of the first piece. *)
Lemma split_cons_other (c d : ascii) (s : string) :
  d <> c ->
  exists piece pieces,
    split c s = piece :: pieces /\ split c (String d s) = String d piece :: pieces.
Proof.
  intros Hne. simpl. destruct (Ascii.eqb_spec d c) as [->|_]; [done|].
  destruct (split c s) as [|piece pieces] eqn:E; [by apply split_not_nil in E|].
  by exists piece, pieces.
Qed.

Lemma split_app_sep (c : ascii) (a b : string) :
  split c (a ++ String c b) = split c a ++ split c b.
Proof.
  induction a as [|d a IH].
  - simpl. by rewrite Ascii.eqb_refl.
  - change (split c (String d (a ++ String c b)%string)
            = split c (String d a) ++ split c b).
    simpl. destruct (Ascii.eqb d c); rewrite IH; [done|].
    destruct (split c a) as [|piece pieces] eqn:E; [by apply split_not_nil in E|].
    done.
Qed.

Lemma tokens_separator (c : ascii) (s : string) :
  separator c -> tokens (String c s) = EmptyString :: tokens s.
Proof.
  unfold tokens. intros [->| ->].
  - simpl. done.
  - destruct (split_cons_other hash bar s ltac:(done)) as (piece & pieces & E & ->).
    rewrite E. simpl. done.
Qed.

Lemma tokens_app_sep (c : ascii) (a b : string) :
  separator c -> tokens (a ++ String c b) = tokens a ++ tokens b.
Proof.
  intros Hc. induction a as [|d a IH].
  - change (tokens (String c b) = tokens EmptyString ++ tokens b).
    by rewrite tokens_separator.
  - change (tokens (String d (a ++ String c b)%string)
            = tokens (String d a) ++ tokens b).
    destruct (Ascii.eqb_spec d hash) as [->|Hh];
      [|destruct (Ascii.eqb_spec d bar) as [->|Hb]].
    + rewrite !tokens_separator by (by left). by rewrite IH.
    + rewrite !tokens_separator by (by right). by rewrite IH.
    + unfold tokens in *.
      destruct (split_cons_other hash d (a ++ String c b) Hh)
        as (g & gs & E & ->).
      destruct (split_cons_other hash d a Hh) as (g' & gs' & E' & ->).
      rewrite E, E' in IH. cbn [flat_map] in IH |- *.
      destruct (split_cons_other bar d g Hb) as (t & ts & Et & ->).
      destruct (split_cons_other bar d g' Hb) as (t' & ts' & Et' & ->).
      rewrite Et, Et' in IH. rewrite <- !app_comm_cons in IH |- *.
      injection IH as -> ->. done.
Qed.

Lemma parse_tokens_not_empty (payload : string) (groups : list object) :
  parse payload = Returns groups ->
  Forall (fun t => t <> EmptyString) (tokens payload).
Proof.
  intros [Hwf _]%parse_returns_iff. unfold tokens.
  induction Hwf as [|g gs (_ & _ & Hg) _ IH]; simpl; [constructor|].
  apply Forall_app. by split.
Qed.

(** X6: [parse] throws a [ParseError] on every payload that starts with a
    separator (['#'] or ['|']), ends with one, or holds two separators in a
    row: such a payload has an empty group or an empty token. *)
Theorem parse_rejects_stray_separators (c1 c2 : ascii) (a b : string) :
  separator c1 -> separator c2 ->
  fails_with_ParseError (parse (String c1 b)) /\
  fails_with_ParseError (parse (a ++ String c1 EmptyString)) /\
  fails_with_ParseError (parse (a ++ String c1 (String c2 b))).
Proof.
  intros H1 H2.
  assert (forall payload, EmptyString ∈ tokens payload ->
                          fails_with_ParseError (parse payload)) as Hfail.
  { intros payload Hin.
    destruct (all_well_formed_dec (split hash payload)) as [Hall|Hno];
      [|by apply parse_fails_iff].
    exfalso.
    assert (parse payload
            = Returns (map (fun g => group_of (split bar g)) (split hash payload))) as Hp
      by (by apply parse_returns_iff).
    apply parse_tokens_not_empty in Hp. rewrite Forall_forall in Hp.
    by apply (Hp EmptyString). }
  split; [|split]; apply Hfail.
  - rewrite tokens_separator by done. apply list_elem_of_here.
  - rewrite tokens_app_sep by done. apply elem_of_app. right. apply list_elem_of_here.
  - rewrite tokens_app_sep, tokens_separator by done.
    apply elem_of_app. right. apply list_elem_of_here.
Qed.

Lemma parse_rejects_stray_separators_witness :
  fails_with_ParseError (parse (String hash "b|2")) /\
  fails_with_ParseError (parse ("a|1" ++ String hash EmptyString)) /\
  fails_with_ParseError (parse ("a|1" ++ String hash (String bar "b|2"))).
Proof.
  apply (parse_rejects_stray_separators hash bar "a|1" "b|2").
  - by left.
  - by right.
Defined.

(** *** What is in the parsed groups *)

Lemma group_of_lookup_tokens (toks : list string) (k v : string) :
  group_of toks !! k = Some v -> k <> "__proto__" /\ k ∈ toks /\ v ∈ toks.
Proof.
  intros H. apply get_elem, group_of_properties in H as [Hk H].
  split; [done|]. by apply pairs_elements, last_value_elem.
Qed.

(** X3: when [parse] returns, it returns one group more than the payload
    has ['#'] characters. *)
Theorem parse_group_count (payload : string) (groups : list object) :
  parse payload = Returns groups ->
  length groups = S (count hash payload).
Proof.
  intros [_ ->]%parse_returns_iff. by rewrite length_map, length_split.
Qed.

Lemma parse_group_count_witness :
  length [ Obj [("a", "1"); ("b", "2")]; Obj [("c", "3")] ]
  = S (count hash "a|1|b|2#c|3").
Proof. apply (parse_group_count "a|1|b|2#c|3"). vm_compute. reflexivity. Defined.

(** X4: when [parse] returns, every key and every value of every group is
    a non-empty string without ['|'] and without ['#'], no group has the
    property [__proto__], and a group has no property only when every key
    of the group in the payload is [__proto__]. *)
Theorem parsed_groups_content (payload : string) (groups : list object) :
  parse payload = Returns groups ->
  Forall (fun group =>
            forall key value,
              group !! key = Some value ->
              key <> "__proto__" /\ plain key /\ plain value)
    groups /\
  Forall2 (fun piece group =>
             properties group = [] ->
             Forall (fun key => key = "__proto__") (pairs (split bar piece)).*1)
    (split hash payload) groups.
Proof.
  intros [Hwf ->]%parse_returns_iff.
  pose proof (split_pieces_no_sep hash payload) as Hhash.
  rewrite Forall_forall in Hwf, Hhash. split.
  - apply Forall_fmap. apply Forall_forall.
    intros g Hg. simpl. specialize (Hwf g Hg). specialize (Hhash g Hg). simpl in *.
    intros key value (Hproto & Hk & Hv)%group_of_lookup_tokens.
    destruct Hwf as (_ & _ & Hne). rewrite Forall_forall in Hne.
    pose proof (split_pieces_no_sep bar g) as Hbar. rewrite Forall_forall in Hbar.
    pose proof (occurs_split_pieces bar hash g Hhash) as Hh. rewrite Forall_forall in Hh.
    unfold plain. split; [done|]. split; (split; [|split]); auto.
  - apply Forall2_fmap_r, Forall_Forall2_diag, Forall_forall.
    intros g _ Hnil. apply Forall_forall. intros key Hkey.
    destruct (decide (key = "__proto__")) as [?|Hproto]; [done|].
    destruct (last_value_is_Some _ _ Hkey) as [w Hw].
    assert ((key, w) ∈ properties (group_of (split bar g))) as Hin
      by by apply group_of_properties.
    rewrite Hnil in Hin. by apply elem_of_nil in Hin.
Qed.

Lemma parsed_groups_content_witness :
  Forall (fun group =>
            forall key value,
              group !! key = Some value ->
              key <> "__proto__" /\ plain key /\ plain value)
    [ Obj [("a", "1")]; Obj [] ] /\
  Forall2 (fun piece group =>
             properties group = [] ->
             Forall (fun key => key = "__proto__") (pairs (split bar piece)).*1)
    (split hash "a|1#__proto__|3") [ Obj [("a", "1")]; Obj [] ].
Proof. apply (parsed_groups_content "a|1#__proto__|3"). vm_compute. reflexivity. Defined.

(** *** The first malformed group *)

Lemma map_throwing_first (groups : list string) :
  ~ Forall (fun g => well_formed (split bar g)) groups ->
  exists good bad rest,
    groups = good ++ bad :: rest /\
    Forall (fun g => well_formed (split bar g)) good /\
    ~ well_formed (split bar bad) /\
    map_throwing parseGroup groups
    = Throws (ParseError (Concat "Parsing group:" bad)).
Proof.
  induction groups as [|g groups IH]; intros Hno.
  - exfalso. apply Hno. constructor.
  - simpl. destruct (well_formed_dec (split bar g)) as [Hg|Hg].
    + destruct IH as (good & bad & rest & -> & Hgood & Hbad & Hrun).
      { intros Hall. apply Hno. by constructor. }
      exists (g :: good), bad, rest. split; [done|]. split; [by constructor|].
      split; [done|]. rewrite parseGroup_well_formed by done. simpl. by rewrite Hrun.
    + exists [], g, groups. split; [done|]. split; [constructor|]. split; [done|].
      by rewrite parseGroup_ill_formed.
Qed.

(** X5: when some group of the payload is malformed, [parse] throws the
    [ParseError] whose message is [Parsing group:] followed by the first
    malformed group, the groups before it being well formed. *)
Theorem parse_reports_first_malformed_group (payload : string) :
  ~ Forall (fun g => well_formed (split bar g)) (split hash payload) ->
  exists good bad rest,
    split hash payload = good ++ bad :: rest /\
    Forall (fun g => well_formed (split bar g)) good /\
    ~ well_formed (split bar bad) /\
    parse payload = Throws (ParseError (Concat "Parsing group:" bad)).
Proof. intros Hno. by apply map_throwing_first. Qed.

Lemma parse_reports_first_malformed_group_witness :
  exists good bad rest,
    split hash "a|1#b#c" = good ++ bad :: rest /\
    Forall (fun g => well_formed (split bar g)) good /\
    ~ well_formed (split bar bad) /\
    parse "a|1#b#c" = Throws (ParseError (Concat "Parsing group:" bad)).
Proof.
  apply (parse_reports_first_malformed_group "a|1#b#c").
  intros Hall. inversion Hall as [|? ? _ Hrest]; subst.
  inversion Hrest as [|? ? Hb _]; subst.
  apply parseGroup_guard in Hb. vm_compute in Hb. discriminate.
Defined.

(** *** Reading back what was written *)

Lemma pairs_flat_map (kvs : list (string * string)) :
  pairs (flat_map (fun kv => [kv.1; kv.2]) kvs) = kvs.
Proof. induction kvs as [|[k v] kvs IH]; simpl; [done|]. by rewrite IH. Qed.

Lemma group_text_split (kvs : list (string * string)) :
  kvs <> [] ->
  Forall (fun kv => plain kv.1 /\ plain kv.2) kvs ->
  split bar (group_text kvs) = flat_map (fun kv => [kv.1; kv.2]) kvs /\
  well_formed (flat_map (fun kv => [kv.1; kv.2]) kvs) /\
  ~ occurs hash (group_text kvs).
Proof.
  intros Hne Hall.
  assert (Forall plain (flat_map (fun kv => [kv.1; kv.2]) kvs)) as Hplain.
  { clear Hne. induction Hall as [|kv kvs [Hk Hv] _ IH]; simpl; [constructor|].
    constructor; [done|]. constructor; [done|]. exact IH. }
  split; [|split].
  - apply split_join.
    + destruct kvs; [done | simpl; discriminate].
    + eapply Forall_impl; [exact Hplain|]. by intros t (_ & ? & _).
  - split; [destruct kvs; [done | simpl; discriminate]|]. split.
    + exists (length kvs). clear. induction kvs as [|kv kvs IH]; simpl; [done|]. lia.
    + eapply Forall_impl; [exact Hplain|]. by intros t (? & _).
  - apply occurs_join; [done|].
    eapply Forall_impl; [exact Hplain|]. by intros t (_ & _ & ?).
Qed.

(** Assignments of distinct new keys, none of them [__proto__] or an array
    index, add the properties in order. *)
Lemma assign_all_fresh (kvs : list (string * string)) :
  forall collection : object,
  NoDup (own_keys collection ++ kvs.*1) ->
  Forall (fun key => key <> "__proto__" /\ named key) kvs.*1 ->
  assign_all kvs collection = Obj (properties collection ++ kvs).
Proof.
  unfold assign_all.
  induction kvs as [|[k v] kvs IH]; intros [props] Hnd Hall; simpl.
  - by rewrite app_nil_r.
  - rewrite fmap_cons in Hall. apply Forall_cons in Hall as [[Hproto Hnamed] Hall].
    unfold named in Hnamed. unfold own_keys in Hnd. simpl in Hnd, Hproto, Hnamed.
    assert (k ∉ props.*1) as Hnew.
    { apply NoDup_app in Hnd as (_ & Hdisj & _). intros Hk.
      apply (Hdisj k Hk). apply list_elem_of_here. }
    assert (assign k v (Obj props) = Obj (props ++ [(k, v)])) as ->.
    { unfold assign. simpl.
      destruct (String.eqb_spec k "__proto__") as [?|_]; [done|].
      apply hasOwnProperty_false in Hnew. rewrite Hnew.
      by rewrite Hnamed. }
    rewrite IH; simpl.
    + by rewrite <- app_assoc.
    + unfold own_keys. simpl. rewrite fmap_app. simpl.
      by rewrite <- app_assoc.
    + done.
Qed.

(** X7: reading back what was written: for groups of key/value pairs, each
    group not empty and every key and value non-empty and free of ['|'] and
    ['#'], [parse] accepts the payload that writes keys and values in turn
    joined by ['|'] and the groups joined by ['#'], and returns as many
    groups in the same order.  A returned group has no property
    [__proto__] and holds under every other key the value of the last pair
    with that key; when the keys of a group are distinct and none of them
    is [__proto__] or an array index, the returned group is the group that
    was written, pair by pair and in the same order. *)
Theorem parse_measures_text (groups : list (list (string * string))) :
  groups <> [] ->
  Forall (fun kvs => kvs <> [] /\ Forall (fun kv => plain kv.1 /\ plain kv.2) kvs)
    groups ->
  exists parsed,
    parse (measures_text groups) = Returns parsed /\
    Forall2 (fun group kvs =>
               (forall key, key <> "__proto__" -> group !! key = last_value key kvs) /\
               group !! "__proto__" = None /\
               (NoDup kvs.*1 ->
                Forall (fun key => key <> "__proto__" /\ named key) kvs.*1 ->
                group = Obj kvs))
      parsed groups.
Proof.
  intros Hne Hall.
  assert (split hash (measures_text groups) = map group_text groups) as Hsplit.
  { apply split_join; [by destruct groups|].
    apply Forall_fmap. eapply Forall_impl; [exact Hall|].
    intros kvs [Hk Hp]. by apply group_text_split. }
  exists (map (fun g => group_of (split bar g)) (map group_text groups)).
  split.
  - apply parse_returns_iff. rewrite Hsplit. split; [|done].
    apply Forall_fmap. eapply Forall_impl; [exact Hall|].
    intros kvs [Hk Hp]. simpl.
    destruct (group_text_split kvs Hk Hp) as (-> & Hwf & _). done.
  - rewrite map_map. clear Hne Hsplit.
    induction Hall as [|kvs groups [Hk Hp] _ IH]; simpl; constructor; [|done].
    destruct (group_text_split kvs Hk Hp) as (-> & _ & _).
    split; [|split].
    + intros key Hkey. by rewrite group_of_lookup, pairs_flat_map.
    + apply group_of_proto.
    + intros Hnd Hkeys. unfold group_of. rewrite pairs_flat_map.
      by rewrite assign_all_fresh.
Qed.

Lemma parse_measures_text_witness :
  exists parsed,
    parse (measures_text [ [("t", "15"); ("h", "40")]; [("t", "16")] ])
    = Returns parsed /\
    Forall2 (fun group kvs =>
               (forall key, key <> "__proto__" -> group !! key = last_value key kvs) /\
               group !! "__proto__" = None /\
               (NoDup kvs.*1 ->
                Forall (fun key => key <> "__proto__" /\ named key) kvs.*1 ->
                group = Obj kvs))
      parsed [ [("t", "15"); ("h", "40")]; [("t", "16")] ].
Proof.
  apply (parse_measures_text [ [("t", "15"); ("h", "40")]; [("t", "16")] ]).
  - discriminate.
  - assert (forall t, t <> EmptyString -> indexOf bar t = (-1)%Z ->
                      indexOf hash t = (-1)%Z -> plain t) as Hplain.
    { intros t Ht Hb Hh. split; [done|].
      split; apply indexOf_neg_iff; [rewrite Hb | rewrite Hh]; reflexivity. }
    repeat constructor; try discriminate; apply Hplain; try discriminate; reflexivity.
Defined.

(** *** Facts about [before] and [after] *)

Lemma before_absent (c : ascii) (s : string) : ~ occurs c s -> before c s = s.
Proof.
  induction s as [|d s IH]; simpl; [done|]. intros Hno.
  destruct (Ascii.eqb_spec d c) as [->|_]; [tauto|]. f_equal. apply IH. tauto.
Qed.

Lemma before_append (c : ascii) (a b : string) :
  ~ occurs c a -> before c (a ++ String c b) = a.
Proof.
  induction a as [|d a IH]; intros Hno.
  - simpl. by rewrite Ascii.eqb_refl.
  - change (before c (String d (a ++ String c b)%string) = String d a).
    simpl in *. destruct (Ascii.eqb_spec d c) as [->|_]; [tauto|].
    f_equal. apply IH. tauto.
Qed.

Lemma after_append (c : ascii) (a b : string) :
  ~ occurs c a -> after c (a ++ String c b) = b.
Proof.
  induction a as [|d a IH]; intros Hno.
  - simpl. by rewrite Ascii.eqb_refl.
  - change (after c (String d (a ++ String c b)%string) = b).
    simpl in *. destruct (Ascii.eqb_spec d c) as [->|_]; [tauto|].
    apply IH. tauto.
Qed.

Lemma occurs_before (c d : ascii) (s : string) :
  occurs d (before c s) -> occurs d s.
Proof.
  induction s as [|e s IH]; simpl; [done|].
  destruct (Ascii.eqb e c); simpl; tauto.
Qed.

Lemma occurs_after (c d : ascii) (s : string) :
  occurs d (after c s) -> occurs d s.
Proof.
  induction s as [|e s IH]; simpl; [done|].
  destruct (Ascii.eqb e c); tauto.
Qed.

Lemma first_field_no_bar (payload : string) : ~ occurs bar (first_field payload).
Proof. apply before_no_sep. Qed.

Lemma trailing_fields_no_bar (payload : string) :
  Forall (fun field => ~ occurs bar field) (trailing_fields payload).
Proof.
  pose proof (split_pieces_no_sep bar payload) as H.
  rewrite split_fields in H. by inversion H.
Qed.

Lemma command_returns_inv (payload : string) (inv : CommandInvocation) :
  command payload = Returns inv ->
  occurs at_sign (first_field payload) /\
  Forall two_parts (trailing_fields payload).
Proof.
  rewrite command_unfold.
  destruct (occurs_dec at_sign (first_field payload)) as [Hat|Hat].
  - rewrite indexOf_nonneg by done.
    destruct (Forall_two_parts_dec (trailing_fields payload)) as [Hall|Hno]; [done|].
    destruct (reduce_addAttribute_some _ (Obj []) Hno) as [msg ->]. done.
  - by rewrite indexOf_neg.
Qed.

(** *** Reading back a written command *)

(** X8: reading back a written command: when [deviceId] and [cmd] hold
    neither ['@'] nor ['|'] and the keys and values of the parameters
    neither ['='] nor ['|'], [command] accepts the text
    [deviceId@cmd|key=value|...] and returns [deviceId], [cmd] and
    parameters that have no property [__proto__] and hold under every other
    key the value of the last pair with that key; when the keys are distinct
    and none of them is [__proto__] or an array index, the parameters are the
    pairs that were written, in the same order.  Keys, values, [deviceId]
    and [cmd] may be empty. *)
Theorem command_reads_command_text
    (deviceId cmd : string) (params : list (string * string)) :
  ~ occurs at_sign deviceId -> ~ occurs bar deviceId ->
  ~ occurs at_sign cmd -> ~ occurs bar cmd ->
  Forall (fun kv => ~ occurs equals kv.1 /\ ~ occurs bar kv.1 /\
                    ~ occurs equals kv.2 /\ ~ occurs bar kv.2) params ->
  exists params_read,
    command (command_text deviceId cmd params)
    = Returns {| ci_deviceId := Some deviceId;
                 ci_command := Some cmd;
                 ci_params := params_read |} /\
    (forall key, key <> "__proto__" -> params_read !! key = last_value key params) /\
    params_read !! "__proto__" = None /\
    (NoDup params.*1 ->
     Forall (fun key => key <> "__proto__" /\ named key) params.*1 ->
     params_read = Obj params).
Proof.
  intros Hd1 Hd2 Hc1 Hc2 Hparams.
  set (header := (deviceId ++ String at_sign cmd)%string).
  set (fields := map (fun kv => (kv.1 ++ String equals kv.2)%string) params).
  assert (split bar (command_text deviceId cmd params) = header :: fields) as Hsplit.
  { unfold command_text. apply split_join; [done|]. constructor.
    - unfold header. rewrite occurs_append. simpl. intros [?|[?|?]]; done.
    - apply Forall_fmap. eapply Forall_impl; [exact Hparams|].
      intros kv (_ & Hk & _ & Hv). simpl. rewrite occurs_append. simpl.
      intros [?|[?|?]]; done. }
  rewrite split_fields in Hsplit. injection Hsplit as Hfirst Htrailing.
  assert (Forall two_parts fields /\ map key_value fields = params) as [Htwo Hkv].
  { unfold fields. clear -Hparams.
    induction Hparams as [|[k v] params (Hk & _ & Hv & _) _ [IH1 IH2]]; simpl in *;
      [by split|].
    split.
    - constructor; [|done]. unfold two_parts.
      rewrite split_app by done. by rewrite split_absent.
    - f_equal; [|done]. unfold key_value.
      by rewrite before_append, after_append. }
  rewrite command_accepts; rewrite ?Hfirst, ?Htrailing; try done.
  - unfold header. rewrite before_append, after_append by done.
    rewrite before_absent by done.
    eexists. split; [reflexivity|]. rewrite Hkv. split; [|split].
    + intros key Hkey. rewrite assign_all_lookup.
      destruct (decide (key = "__proto__")); [done|].
      by destruct (last_value key params).
    + by rewrite assign_all_lookup.
    + intros Hnd Hkeys. by rewrite assign_all_fresh.
  - unfold header. rewrite occurs_append. simpl. tauto.
Qed.

Lemma command_reads_command_text_witness :
  exists params_read,
    command (command_text "dev1" "ping" [("times", "3"); ("", "")])
    = Returns {| ci_deviceId := Some "dev1";
                 ci_command := Some "ping";
                 ci_params := params_read |} /\
    (forall key,
       key <> "__proto__" ->
       params_read !! key = last_value key [("times", "3"); ("", "")]) /\
    params_read !! "__proto__" = None /\
    (NoDup [("times", "3"); ("", "")].*1 ->
     Forall (fun key => key <> "__proto__" /\ named key) [("times", "3"); ("", "")].*1 ->
     params_read = Obj [("times", "3"); ("", "")]).
Proof.
  assert (forall c t, indexOf c t = (-1)%Z -> ~ occurs c t) as Hno.
  { intros c t H. apply indexOf_neg_iff. by rewrite H. }
  apply (command_reads_command_text "dev1" "ping" [("times", "3"); ("", "")]);
    try (apply Hno; reflexivity).
  repeat constructor; apply Hno; reflexivity.
Defined.

(** X9: reading back a written command result: when [deviceId] and [cmd]
    hold neither ['@'] nor ['|'], [result] accepts the text
    [deviceId@cmd|res] and returns [deviceId], [cmd] and, as the result, the
    part of [res] before its first ['|'] (all of [res] when it has none). *)
Theorem result_reads_result_text (deviceId cmd res : string) :
  ~ occurs at_sign deviceId -> ~ occurs bar deviceId ->
  ~ occurs at_sign cmd -> ~ occurs bar cmd ->
  result (result_text deviceId cmd res)
  = Returns {| cr_deviceId := Some deviceId;
               cr_command := Some cmd;
               cr_result := Some (before bar res) |}.
Proof.
  intros Hd1 Hd2 Hc1 Hc2. unfold result_text.
  set (header := (deviceId ++ String at_sign cmd)%string).
  assert (~ occurs bar header) as Hh.
  { unfold header. rewrite occurs_append. simpl. intros [?|[?|?]]; done. }
  assert ((deviceId ++ String at_sign (cmd ++ String bar res))%string
          = (header ++ String bar res)%string) as ->.
  { unfold header. clear. induction deviceId as [|d deviceId IH]; [done|].
    change (String d (deviceId ++ String at_sign (cmd ++ String bar res))%string
            = String d ((deviceId ++ String at_sign cmd) ++ String bar res)%string).
    by rewrite IH. }
  pose proof (split_fields (header ++ String bar res)) as Hsplit.
  rewrite split_app in Hsplit by done. injection Hsplit as Hfirst Htrailing.
  rewrite result_accepts; rewrite <- ?Hfirst, <- ?Htrailing.
  - unfold header. rewrite before_append, after_append by done.
    rewrite before_absent by done.
    destruct (split_head bar res) as [rest ->]. done.
  - unfold header. rewrite occurs_append. simpl. tauto.
Qed.

Lemma result_reads_result_text_witness :
  result (result_text "dev1" "ping" "OK|ignored")
  = Returns {| cr_deviceId := Some "dev1";
               cr_command := Some "ping";
               cr_result := Some (before bar "OK|ignored") |}.
Proof.
  assert (forall c t, indexOf c t = (-1)%Z -> ~ occurs c t) as Hno.
  { intros c t H. apply indexOf_neg_iff. by rewrite H. }
  apply (result_reads_result_text "dev1" "ping" "OK|ignored");
    apply Hno; reflexivity.
Defined.

(** X10: whenever [command] accepts a payload, [result] accepts it too,
    with the same [deviceId] and [command]; its [result] is the first
    trailing field, taken whole. *)
Theorem command_success_implies_result (payload : string) (inv : CommandInvocation) :
  command payload = Returns inv ->
  result payload
  = Returns {| cr_deviceId := ci_deviceId inv;
               cr_command := ci_command inv;
               cr_result := trailing_fields payload !! 0 |}.
Proof.
  intros Hc. destruct (command_returns_inv _ _ Hc) as [Hat Hall].
  rewrite command_accepts in Hc by done. injection Hc as <-.
  by rewrite result_accepts.
Qed.

Lemma command_success_implies_result_witness :
  result "dev1@ping|times=3"
  = Returns {| cr_deviceId := Some "dev1";
               cr_command := Some "ping";
               cr_result := Some "times=3" |}.
Proof.
  apply (command_success_implies_result "dev1@ping|times=3"
           {| ci_deviceId := Some "dev1"; ci_command := Some "ping";
              ci_params := Obj [("times", "3")] |}).
  vm_compute. reflexivity.
Defined.

(** X11: which error is thrown.  When the first field has no ['@'],
    [command] and [result] both throw the [ParseError] with message
    [Parsing command:] followed by the payload, whatever the trailing fields
    are.  When it has one, [command] throws on the first trailing field that
    does not split in two on ['='], with message [Extracting attribute:]
    followed by that field. *)
Theorem command_error_messages (payload : string) :
  (~ occurs at_sign (first_field payload) ->
     command payload = Throws (ParseError (Concat "Parsing command:" payload)) /\
     result payload = Throws (ParseError (Concat "Parsing command:" payload))) /\
  (occurs at_sign (first_field payload) ->
     forall good bad rest,
       trailing_fields payload = good ++ bad :: rest ->
       Forall two_parts good -> ~ two_parts bad ->
       command payload = Throws (ParseError (Concat "Extracting attribute:" bad))).
Proof.
  split.
  - intros Hat. rewrite command_unfold, result_unfold, indexOf_neg by done. done.
  - intros Hat good bad rest Htr Hgood Hbad.
    rewrite command_unfold, indexOf_nonneg, Htr by done.
    assert (forall collection,
               reduce (addAttribute equals) (good ++ bad :: rest) collection
               = Throws (ParseError (Concat "Extracting attribute:" bad))) as ->; [|done].
    clear -Hgood Hbad. induction Hgood as [|f good Hf _ IH]; intros collection; simpl.
    + by rewrite addAttribute_other.
    + rewrite addAttribute_two_parts by done. simpl. apply IH.
Qed.

(** X12: what [command] returns never holds a separator: [deviceId] and
    [command] are defined and hold neither ['@'] nor ['|'], and the keys and
    values of [params] hold neither ['='] nor ['|']. *)
Theorem command_fields_clean (payload : string) (inv : CommandInvocation) :
  command payload = Returns inv ->
  exists deviceId cmd,
    ci_deviceId inv = Some deviceId /\ ci_command inv = Some cmd /\
    ~ occurs at_sign deviceId /\ ~ occurs bar deviceId /\
    ~ occurs at_sign cmd /\ ~ occurs bar cmd /\
    forall key value,
      ci_params inv !! key = Some value ->
      ~ occurs equals key /\ ~ occurs bar key /\
      ~ occurs equals value /\ ~ occurs bar value.
Proof.
  intros Hc. destruct (command_returns_inv _ _ Hc) as [Hat Hall].
  rewrite command_accepts in Hc by done. injection Hc as <-. simpl.
  pose proof (first_field_no_bar payload) as Hbar.
  exists (before at_sign (first_field payload)),
    (before at_sign (after at_sign (first_field payload))).
  split; [done|]. split; [done|].
  split; [apply before_no_sep|].
  split; [intros H; by apply Hbar, (occurs_before at_sign)|].
  split; [apply before_no_sep|].
  split; [intros H; by apply Hbar, (occurs_after at_sign), (occurs_before at_sign)|].
  intros key value Hl.
  rewrite assign_all_lookup in Hl.
  destruct (decide (key = "__proto__")); [done|].
  destruct (last_value key (map key_value (trailing_fields payload))) as [v|] eqn:E;
    [|done].
  injection Hl as ->.
  apply last_value_elem, list_elem_of_fmap in E as (field & [= -> ->] & Hin).
  pose proof (trailing_fields_no_bar payload) as Hnb.
  rewrite Forall_forall in Hall, Hnb.
  specialize (Hall field Hin). specialize (Hnb field Hin). simpl in Hnb.
  unfold two_parts in Hall. rewrite length_split in Hall.
  split; [apply before_no_sep|].
  split; [intros H; by apply Hnb, (occurs_before equals)|].
  split; [rewrite <- count_pos_iff, count_after; lia|].
  intros H. by apply Hnb, (occurs_after equals).
Qed.

Lemma command_fields_clean_witness :
  exists deviceId cmd,
    Some "a" = Some deviceId /\ Some "b" = Some cmd /\
    ~ occurs at_sign deviceId /\ ~ occurs bar deviceId /\
    ~ occurs at_sign cmd /\ ~ occurs bar cmd /\
    forall key value,
      Obj [("k", "v")] !! key = Some value ->
      ~ occurs equals key /\ ~ occurs bar key /\
      ~ occurs equals value /\ ~ occurs bar value.
Proof.
  refine (command_fields_clean "a@b@c|k=v"
            {| ci_deviceId := Some "a"; ci_command := Some "b";
               ci_params := Obj [("k", "v")] |} _).
  vm_compute. reflexivity.
Defined.

(** ** More facts about the agent *)

Section AgentExtras.

Context {World Error Config Arg : Type}.

Local Abbreviation StateT := (@State World Error Config Arg).
Local Abbreviation CallbackT := (@Callback World Error Config Arg).
Local Abbreviation BindingT := (@Binding World Error Config Arg).
Local Abbreviation MapStateT := (@MapState World Error Config Arg).
Local Abbreviation AsyncT := (@Async World Error).
Local Abbreviation EventT := (@Event Error).

Implicit Types (s : StateT) (callback : CallbackT) (m : MapStateT)
  (evs : list EventT) (f : AsyncT).

(** *** [stopTransportBindings] *)

(** X13: [stopTransportBindings] treats the registered bindings as
    [startTransportBindings] treats the bindings found.  When every binding
    calls back at some point, [stop] is applied for every registered
    binding, in order, each in the world left by what came before, also
    after one of them has failed; the callback is called once, without
    error only after every [stop] has called back without error, with the
    first error reported otherwise, at the moment it is reported.  The
    registry is left as it is. *)
Theorem stopAll_spec (schedule : list nat) callback s :
  complete (length (transportBindings s)) schedule ->
  Forall (fun binding => calls_back (binding_stop binding)) (transportBindings s) ->
  exists outcome s1 rest evs1 p1,
    stopTransportBindings schedule callback s = rest (callback outcome s1) /\
    log s1 = log s ++ evs1 /\
    transportBindings s1 = transportBindings s /\
    performed BindingStop
      (map (fun binding => binding_stop binding) (transportBindings s))
      (world s) ∅ evs1 (world s1) p1 /\
    (forall s', exists evs2 p2,
        log (rest s') = log s' ++ evs2 /\
        transportBindings (rest s') = transportBindings s' /\
        performed BindingStop
          (map (fun binding => binding_stop binding) (transportBindings s))
          (world s') p1 evs2 (world (rest s')) p2 /\
        invocations (evs1 ++ evs2)
        = map BindingStop (seq 0 (length (transportBindings s)))) /\
    (outcome = None ->
       (forall s', rest s' = s') /\
       p1 = ∅ /\
       no_failure evs1 /\
       forall i, i < length (transportBindings s) ->
                 CalledBack (BindingStop i) None ∈ evs1) /\
    (forall e, outcome = Some e ->
       exists i pre,
         evs1 = pre ++ [CalledBack (BindingStop i) (Some e)] /\ no_failure pre).
Proof.
  intros Hcomplete Hback. unfold stopTransportBindings.
  destruct (async_map_run BindingStop (transportBindings s)
              (fun binding => binding_stop binding) schedule callback s Hcomplete Hback)
    as (outcome & s1 & rest & Hrun & evs1 & p1 & Hpost).
  exists outcome, s1, rest, evs1, p1. split; [exact Hrun|]. exact Hpost.
Qed.

(** *** Runs in which nothing fails *)

Lemma answer_ok f (w : World) :
  calls_back f -> succeeds f -> exists w', answer f w = (w', Some None).
Proof.
  intros Hback Hok. unfold answer. specialize (Hback w). specialize (Hok w).
  destruct (f w) as [w1 [r|k|]]; simpl in *.
  - subst r. by exists w1.
  - specialize (Hok w1). destruct (k w1) as [w2 r]. simpl in Hok. subst r.
    by exists w2.
  - done.
Qed.

Lemma async_map_ok {A : Type} (callee : nat -> Callee) (coll : list A)
    (iteratee : A -> AsyncT) (schedule : list nat) callback s :
  complete (length coll) schedule ->
  Forall (fun item => calls_back (iteratee item)) coll ->
  Forall (fun item => succeeds (iteratee item)) coll ->
  exists s1 evs1,
    async_map callee coll iteratee schedule callback s = callback None s1 /\
    log s1 = log s ++ evs1 /\
    transportBindings s1 = transportBindings s /\
    performed callee (map iteratee coll) (world s) ∅ evs1 (world s1) ∅ /\
    all_called_back callee (length coll) evs1.
Proof.
  intros Hcomplete Hback Hok.
  destruct (async_map_run callee coll iteratee schedule callback s Hcomplete Hback)
    as (outcome & s1 & rest & Hrun
        & evs1 & p1 & Hlog1 & Htb1 & Hperf1 & Hrest & Hnone & Hsome).
  assert (no_failure evs1) as Hnf.
  { eapply performed_no_failure; [|exact Hperf1|].
    - by apply Forall_fmap.
    - intros i k Hi. by rewrite lookup_empty in Hi. }
  destruct outcome as [e|].
  - exfalso. destruct (Hsome e eq_refl) as (i & pre & -> & _).
    unfold no_failure in Hnf. rewrite Forall_app, Forall_singleton in Hnf.
    destruct Hnf as [_ Hnf]. by apply (Hnf (callee i) e).
  - destruct (Hnone eq_refl) as (Hid & -> & _ & Hall).
    exists s1, evs1. rewrite Hrun, Hid.
    split; [done|]. split; [done|]. split; [done|]. split; [done|].
    split; [by eapply performed_events_of|]. split; [done|]. split; [|done].
    destruct (Hrest s1) as (evs2 & p2 & Hl2 & _ & _ & Hinv).
    rewrite Hid in Hl2. rewrite <- (app_nil_r (log s1)) in Hl2 at 1.
    apply app_inv_head in Hl2. subst evs2. by rewrite app_nil_r in Hinv.
Qed.

(** X14: when every [start] calls back at some point and none ever reports
    an error, [startTransportBindings] calls its callback without error,
    after [start] was applied to the configuration for every binding found,
    each in the world left by what came before, and every one of them has
    called back, whatever the order of the callbacks; no callback is left
    to come. *)
Theorem startAll_succeeds (newConfig : Config) (found : list BindingT)
    (schedule : list nat) callback s :
  complete (length found) schedule ->
  Forall (fun binding => calls_back (binding_start binding newConfig)) found ->
  Forall (fun binding => succeeds (binding_start binding newConfig)) found ->
  exists s1 evs1,
    startTransportBindings newConfig found schedule callback s = callback None s1 /\
    log s1 = log s ++ evs1 /\
    transportBindings s1 = found /\
    performed BindingStart
      (map (fun binding => binding_start binding newConfig) found)
      (world s) ∅ evs1 (world s1) ∅ /\
    all_called_back BindingStart (length found) evs1.
Proof.
  intros Hcomplete Hback Hok. unfold startTransportBindings.
  apply (async_map_ok BindingStart found
           (fun binding => binding_start binding newConfig) schedule callback
           (set_transportBindings found s) Hcomplete Hback Hok).
Qed.

Lemma in_turn_ok (argument : list Arg) (functionName : string)
    (k : nat) (bindings : list BindingT) (w : World) evs (w' : World)
    (result : option (option Error)) :
  in_turn argument functionName k bindings w evs w' result ->
  (forall b h, b ∈ bindings -> binding_handler b functionName = Some h ->
               calls_back (h argument) /\ succeeds (h argument)) ->
  result = Some None.
Proof.
  induction 1 as [k w | k b bindings w evs w' result Hh _ IH
                  | k b bindings h w w1 evs w' result Hh Ha _ IH
                  | k b bindings h w w1 e Hh Ha
                  | k b bindings h w w1 Hh Ha]; intros Hok.
  - done.
  - apply IH. intros b' h' Hin. apply Hok. by apply list_elem_of_further.
  - apply IH. intros b' h' Hin. apply Hok. by apply list_elem_of_further.
  - destruct (Hok b h (list_elem_of_here _ _) Hh) as [Hback Hsucc].
    destruct (answer_ok (h argument) w Hback Hsucc) as [w2 Hw]. congruence.
  - destruct (Hok b h (list_elem_of_here _ _) Hh) as [Hback Hsucc].
    destruct (answer_ok (h argument) w Hback Hsucc) as [w2 Hw]. congruence.
Qed.

(** X15: when the handlers named [functionName] of the registered bindings
    call back and never report an error, [applyFunctionFromBinding] applies
    the handler of every implementing binding to its arguments, in
    registration order and one after the other, each in the world left by
    the one before, and calls its callback without error; the registry is
    left as it is. *)
Theorem broadcast_succeeds (argument : list Arg) (functionName : string) callback s :
  (forall b h, b ∈ transportBindings s ->
               binding_handler b functionName = Some h ->
               calls_back (h argument) /\ succeeds (h argument)) ->
  exists evs (w' : World),
    in_turn argument functionName 0 (transportBindings s) (world s) evs w'
      (Some None) /\
    evs = handler_events functionName
            (map (fun i => (i, None))
               (implementing functionName 0 (transportBindings s))) /\
    applyFunctionFromBinding argument functionName callback s
    = callback None (extend s w' evs) /\
    transportBindings (extend s w' evs) = transportBindings s.
Proof.
  intros Hok.
  destruct (series_handlers argument functionName (transportBindings s) 0 callback s)
    as (evs & w' & result & Hturn & Hrun).
  change (applyFunctionFromBinding argument functionName callback s
          = finish callback result (extend s w' evs)) in Hrun.
  pose proof (in_turn_ok _ _ _ _ _ _ _ _ Hturn Hok) as ->.
  exists evs, w'. split; [done|].
  split; [exact (in_turn_events _ _ _ _ _ _ _ _ Hturn)|]. by split.
Qed.

(** X16: when every [stop] of a binding, [resetMiddlewares] and
    [deactivate] call back at some point and none of them ever reports an
    error, [stop] performs all its steps: [stop] is applied for every
    binding and every one has called back, then [resetMiddlewares] is
    called in the world they left, then [deactivate] in the world it left,
    and the callback follows without error. *)
Theorem stop_runs_all_steps (lib : @IotAgentLib World Error)
    (schedule : list nat) callback s :
  complete (length (transportBindings s)) schedule ->
  Forall (fun binding => calls_back (binding_stop binding)) (transportBindings s) ->
  Forall (fun binding => succeeds (binding_stop binding)) (transportBindings s) ->
  calls_back (resetMiddlewares lib) -> succeeds (resetMiddlewares lib) ->
  calls_back (deactivate lib) -> succeeds (deactivate lib) ->
  exists s1 stops (w2 w3 : World),
    log s1 = log s ++ stops /\
    transportBindings s1 = transportBindings s /\
    performed BindingStop
      (map (fun binding => binding_stop binding) (transportBindings s))
      (world s) ∅ stops (world s1) ∅ /\
    all_called_back BindingStop (length (transportBindings s)) stops /\
    answer (resetMiddlewares lib) (world s1) = (w2, Some None) /\
    answer (deactivate lib) w2 = (w3, Some None) /\
    stop lib schedule callback s
    = callback None
        (extend s1 w3 [Invoked ResetMiddlewares;
                       CalledBack ResetMiddlewares None;
                       Invoked Deactivate;
                       CalledBack Deactivate None]).
Proof.
  intros Hcomplete Hback Hstops Hreset_back Hreset Hdeact_back Hdeact.
  unfold stop, stopTransportBindings. cbn [series].
  match goal with |- context [async_map _ _ _ _ ?K s] => set (K1 := K) end.
  destruct (async_map_ok BindingStop (transportBindings s)
              (fun binding => binding_stop binding) schedule K1 s
              Hcomplete Hback Hstops)
    as (s1 & stops & Hrun & Hlog1 & Htb1 & Hperf & Hall).
  destruct (answer_ok _ (world s1) Hreset_back Hreset) as [w2 Hw2].
  destruct (answer_ok _ w2 Hdeact_back Hdeact) as [w3 Hw3].
  exists s1, stops, w2, w3.
  split; [done|]. split; [done|]. split; [done|]. split; [done|].
  split; [done|]. split; [done|].
  assert (K1 None s1
          = (if (backend_steps lib (world s1)).2 then callback None else fun s' => s')
              (extend s1 (backend_steps lib (world s1)).1.1
                 (backend_steps lib (world s1)).1.2)) as Hbackend
    by apply backend_run.
  rewrite Hrun, Hbackend. unfold backend_steps.
  rewrite Hw2, Hw3. done.
Qed.

(** X17: [stop] never changes [transportBindings]: the bindings it has
    stopped stay registered, so that a later broadcast or a second [stop]
    reaches them again.  This holds when the callback is called, in the
    state in which it is called and for what the remaining bindings do
    afterwards, and also of the state in which [stop] is left waiting when
    it is never called.  The callback is called, without error, when every
    binding, [resetMiddlewares] and [deactivate] call back. *)
Theorem stop_keeps_registry (lib : @IotAgentLib World Error)
    (schedule : list nat) callback s :
  (exists s1 (rest : StateT -> StateT),
      (stop lib schedule callback s = rest (callback None s1) \/
       stop lib schedule callback s = rest s1) /\
      transportBindings s1 = transportBindings s /\
      forall s', transportBindings (rest s') = transportBindings s') /\
  (complete (length (transportBindings s)) schedule ->
   Forall (fun binding => calls_back (binding_stop binding)) (transportBindings s) ->
   calls_back (resetMiddlewares lib) -> calls_back (deactivate lib) ->
   exists s1 (rest : StateT -> StateT),
     stop lib schedule callback s = rest (callback None s1) /\
     transportBindings s1 = transportBindings s /\
     forall s', transportBindings (rest s') = transportBindings s').
Proof.
  unfold stop, stopTransportBindings. cbn [series].
  match goal with |- context [async_map _ _ _ _ ?K s] => set (K1 := K) end.
  assert (forall s1,
             K1 None s1
             = (if (backend_steps lib (world s1)).2 then callback None else fun s' => s')
                 (extend s1 (backend_steps lib (world s1)).1.1
                    (backend_steps lib (world s1)).1.2)) as Hbackend
    by (intros s1; apply backend_run).
  split.
  - destruct (async_map_registry BindingStop (transportBindings s)
                (fun binding => binding_stop binding) schedule K1 s)
      as [(outcome & s1 & rest & Hrun & Htb1 & Hrest)|Htb].
    + rewrite Hrun. destruct outcome as [e|].
      * exists s1, rest. split; [by left | done].
      * rewrite Hbackend.
        exists (extend s1 (backend_steps lib (world s1)).1.1
                  (backend_steps lib (world s1)).1.2), rest.
        split; [|done].
        destruct (backend_steps lib (world s1)).2; [by left | by right].
    + eexists _, (fun s' => s'). split; [right; reflexivity|]. done.
  - intros Hcomplete Hback Hreset Hdeact.
    destruct (async_map_run BindingStop (transportBindings s)
                (fun binding => binding_stop binding) schedule K1 s Hcomplete Hback)
      as (outcome & s1 & rest & Hrun & evs1 & p1 & _ & Htb1 & _ & Hrest & _).
    rewrite Hrun.
    assert (forall s', transportBindings (rest s') = transportBindings s') as Hrest'.
    { intros s'. by destruct (Hrest s') as (? & ? & _ & ? & _). }
    destruct outcome as [e|].
    + by exists s1, rest.
    + rewrite Hbackend, backend_steps_reached by done.
      eexists _, rest. split; [reflexivity|]. done.
Qed.

(** X18: when the [start] of the first binding found calls back with an
    error before it returns, [startTransportBindings] calls its callback
    with that error before any other binding is started; the other bindings
    are started afterwards all the same. *)
Theorem startAll_first_failure_at_once (newConfig : Config) (b : BindingT)
    (others : list BindingT) (schedule : list nat) callback s
    (w : World) (e : Error) :
  binding_start b newConfig (world s) = (w, Now (Some e)) ->
  exists s1 rest,
    startTransportBindings newConfig (b :: others) schedule callback s
    = rest (callback (Some e) s1) /\
    log s1 = log s ++ [Invoked (BindingStart 0); CalledBack (BindingStart 0) (Some e)] /\
    forall s', exists evs2,
      log (rest s') = log s' ++ evs2 /\
      invocations evs2 = map BindingStart (seq 1 (length others)).
Proof.
  intros Hstart. unfold startTransportBindings, async_map.
  cbn [transportBindings set_transportBindings].
  change (length (b :: others) =? 0)%nat with false. cbv iota.
  rewrite imap_cons. simpl fold_left at 2.
  unfold dispatch at 2. cbn [fst snd ms_state record world set_transportBindings].
  rewrite Hstart. rewrite iteratorCallback_uncalled by done.
  cbn [ms_state ms_completed ms_pending].
  set (items := imap _ others).
  assert (items = imap (fun (j : nat) (a : AsyncT) => (1 + j, a))
                    (map (fun binding => binding_start binding newConfig) others))
    as Hitems.
  { unfold items. rewrite imap_fmap. by apply imap_ext. }
  destruct (called_run BindingStart
              (map (fun binding => binding_start binding newConfig) (b :: others))
              (length (b :: others)) callback items schedule 0 ∅)
    as [Hrest _].
  { rewrite Hitems. apply items_functions. by intros j a Hj. }
  eexists _, (fun s' => ms_state (run_map BindingStart (length (b :: others)) callback
                                    items schedule
                                    {| ms_state := s'; ms_completed := 0;
                                       ms_called := true; ms_pending := ∅ |})).
  split; [reflexivity|]. cbn [log record set_world].
  split; [by rewrite <- app_assoc|].
  intros s'. destruct (Hrest s') as (evs2 & p2 & Hl & _ & _ & Hi).
  exists evs2. split; [done|]. rewrite Hi. f_equal.
  by rewrite Hitems, items_indices, length_map.
Qed.

(** X19: with an empty registry (as before the first [start]),
    [stopTransportBindings] and [applyFunctionFromBinding] call their
    callback at once, without error and in the unchanged state, and [stop]
    goes straight to [resetMiddlewares], called in the world as it is, and
    then to [deactivate] if [resetMiddlewares] has called back without
    error; its callback is called, without error, unless one of the two
    never calls back. *)
Theorem nothing_to_do_without_bindings (lib : @IotAgentLib World Error)
    (argument : list Arg) (functionName : string) (schedule : list nat) callback s :
  transportBindings s = [] ->
  stopTransportBindings schedule callback s = callback None s /\
  applyFunctionFromBinding argument functionName callback s = callback None s /\
  stop lib schedule callback s
  = (if (backend_steps lib (world s)).2 then callback None else fun s' => s')
      (extend s (backend_steps lib (world s)).1.1 (backend_steps lib (world s)).1.2) /\
  (exists evs, (backend_steps lib (world s)).1.2 = Invoked ResetMiddlewares :: evs) /\
  ((backend_steps lib (world s)).2 = false <->
   (answer (resetMiddlewares lib) (world s)).2 = None \/
   (answer (resetMiddlewares lib) (world s)).2 = Some None /\
   (answer (deactivate lib) (answer (resetMiddlewares lib) (world s)).1).2 = None).
Proof.
  intros Hnil.
  assert (forall K : CallbackT, stopTransportBindings schedule K s = K None s) as Hstop.
  { intros K. unfold stopTransportBindings, async_map. rewrite Hnil. simpl.
    unfold once. simpl. by rewrite settles_nothing_pending. }
  split; [apply Hstop|]. split; [|split; [|split]].
  - unfold applyFunctionFromBinding. by rewrite Hnil.
  - unfold stop. cbn [series]. rewrite Hstop. apply (backend_run lib callback s).
  - unfold backend_steps.
    destruct (answer (resetMiddlewares lib) (world s)) as [w2 [[e|]|]]; [eauto | | eauto].
    destruct (answer (deactivate lib) w2) as [w3 [r|]]; eauto.
  - unfold backend_steps.
    destruct (answer (resetMiddlewares lib) (world s)) as [w2 [[e|]|]]; simpl.
    + split; [done | intros [?|[? _]]; done].
    + destruct (answer (deactivate lib) w2) as [w3 [r|]]; simpl.
      * split; [done | intros [?|[_ ?]]; done].
      * split; [by right | done].
    + split; [by left | done].
Qed.

End AgentExtras.

Section StartFacts.

Context {World Error Config Arg IotaConfig Middleware : Type}.

Local Abbreviation StateT := (@State World Error Config Arg).
Local Abbreviation CallbackT := (@Callback World Error Config Arg).
Local Abbreviation BindingT := (@Binding World Error Config Arg).
Local Abbreviation AsyncT := (@Async World Error).
Local Abbreviation LibT := (@IotAgentLibStart World Error Config Arg IotaConfig Middleware).

Variable config_mqtt : Config -> option MqttSection.
Variable config_iota : Config -> IotaConfig.

Implicit Types (s : StateT) (callback : CallbackT) (f : AsyncT) (lib : LibT).

Lemma await_completes f callback s (r : option Error) (w' : World) :
  completes f (world s) r w' ->
  await f callback s = callback r (set_world w' s).
Proof.
  unfold await. intros [Hnow|(w1 & k & Hlater & Hk)].
  - by rewrite Hnow.
  - rewrite Hlater, Hk. done.
Qed.

(** X20: what [start] does before it reaches the bindings.  Without a
    [config.mqtt] it throws a [TypeError] and nothing else happens.  When
    [activate] reports an error, the callback gets that error, in a state
    where no handler was registered, no binding was started and the registry
    is unchanged. *)
Theorem start_stops_before_bindings lib (newConfig : Config)
    (found : list BindingT) (schedule : list nat) callback s :
  (config_mqtt newConfig = None ->
     start config_mqtt config_iota lib newConfig found schedule callback s
     = TypeError) /\
  (forall mqtt e w',
     config_mqtt newConfig = Some mqtt ->
     completes (activate lib (config_iota newConfig)) (world s) (Some e) w' ->
     start config_mqtt config_iota lib newConfig found schedule callback s
     = Ran (callback (Some e)
              {| world := w';
                 transportBindings := transportBindings s;
                 log := log s |})).
Proof.
  split.
  - intros Hm. unfold start. by rewrite Hm.
  - intros mqtt e w' Hm Hact. unfold start. rewrite Hm.
    by rewrite (await_completes _ _ _ _ _ Hact).
Qed.


End StartFacts.

(** *** Concrete runs of the statements above *)

Lemma succeeds_now_ok : succeeds Sample.succeeds_now.
Proof. intros w. reflexivity. Defined.

Lemma succeeds_later_ok : succeeds Sample.succeeds_later.
Proof. intros w w'. reflexivity. Defined.

Lemma stopAll_spec_witness :
  exists outcome s1 rest evs1 p1,
    stopTransportBindings [0; 1] report
      (Sample.initial
         [ Sample.binding Sample.succeeds_now (Sample.fails_later "boom") None;
           Sample.binding Sample.succeeds_now Sample.succeeds_now None ])
    = rest (report outcome s1) /\
    log s1 = [] ++ evs1 /\
    transportBindings s1
    = [ Sample.binding Sample.succeeds_now (Sample.fails_later "boom") None;
        Sample.binding Sample.succeeds_now Sample.succeeds_now None ] /\
    performed BindingStop [Sample.fails_later "boom"; Sample.succeeds_now]
      tt ∅ evs1 (world s1) p1 /\
    (forall s', exists evs2 p2,
        log (rest s') = log s' ++ evs2 /\
        transportBindings (rest s') = transportBindings s' /\
        performed BindingStop [Sample.fails_later "boom"; Sample.succeeds_now]
          (world s') p1 evs2 (world (rest s')) p2 /\
        invocations (evs1 ++ evs2) = map BindingStop (seq 0 2)) /\
    (outcome = None ->
       (forall s', rest s' = s') /\
       p1 = ∅ /\
       no_failure evs1 /\
       forall i, i < 2 -> CalledBack (BindingStop i) None ∈ evs1) /\
    (forall e, outcome = Some e ->
       exists i pre,
         evs1 = pre ++ [CalledBack (BindingStop i) (Some e)] /\ no_failure pre).
Proof.
  apply (stopAll_spec [0; 1] report
           (Sample.initial
              [ Sample.binding Sample.succeeds_now (Sample.fails_later "boom") None;
                Sample.binding Sample.succeeds_now Sample.succeeds_now None ])).
  - exact complete_two.
  - apply Forall_cons. split; [exact (calls_back_later _)|].
    apply Forall_cons. split; [exact (calls_back_now _) | constructor].
Defined.

Lemma startAll_succeeds_witness :
  exists s1 evs1,
    startTransportBindings tt
      [ Sample.binding Sample.succeeds_later Sample.succeeds_now None;
        Sample.binding Sample.succeeds_now Sample.succeeds_now None ]
      [0; 1] report (Sample.initial [])
    = report None s1 /\
    log s1 = [] ++ evs1 /\
    transportBindings s1
    = [ Sample.binding Sample.succeeds_later Sample.succeeds_now None;
        Sample.binding Sample.succeeds_now Sample.succeeds_now None ] /\
    performed BindingStart [Sample.succeeds_later; Sample.succeeds_now]
      tt ∅ evs1 (world s1) ∅ /\
    all_called_back BindingStart 2 evs1.
Proof.
  apply (startAll_succeeds tt
           [ Sample.binding Sample.succeeds_later Sample.succeeds_now None;
             Sample.binding Sample.succeeds_now Sample.succeeds_now None ]
           [0; 1] report (Sample.initial [])).
  - exact complete_two.
  - apply Forall_cons. split; [exact (calls_back_later _)|].
    apply Forall_cons. split; [exact (calls_back_now _) | constructor].
  - apply Forall_cons. split; [exact succeeds_later_ok|].
    apply Forall_cons. split; [exact succeeds_now_ok | constructor].
Defined.

Lemma broadcast_succeeds_witness :
  exists evs (w' : unit),
    in_turn ["id"] "commandHandler" 0
      [ Sample.binding Sample.succeeds_now Sample.succeeds_now None;
        Sample.binding Sample.succeeds_now Sample.succeeds_now
          (Some Sample.succeeds_later) ]
      tt evs w' (Some None) /\
    evs = handler_events "commandHandler" [(1, None)] /\
    applyFunctionFromBinding ["id"] "commandHandler" report
      (Sample.initial
         [ Sample.binding Sample.succeeds_now Sample.succeeds_now None;
           Sample.binding Sample.succeeds_now Sample.succeeds_now
             (Some Sample.succeeds_later) ])
    = report None
        (extend
           (Sample.initial
              [ Sample.binding Sample.succeeds_now Sample.succeeds_now None;
                Sample.binding Sample.succeeds_now Sample.succeeds_now
                  (Some Sample.succeeds_later) ]) w' evs) /\
    transportBindings
      (extend
         (Sample.initial
            [ Sample.binding Sample.succeeds_now Sample.succeeds_now None;
              Sample.binding Sample.succeeds_now Sample.succeeds_now
                (Some Sample.succeeds_later) ]) w' evs)
    = [ Sample.binding Sample.succeeds_now Sample.succeeds_now None;
        Sample.binding Sample.succeeds_now Sample.succeeds_now
          (Some Sample.succeeds_later) ].
Proof.
  apply (broadcast_succeeds ["id"] "commandHandler" report
           (Sample.initial
              [ Sample.binding Sample.succeeds_now Sample.succeeds_now None;
                Sample.binding Sample.succeeds_now Sample.succeeds_now
                  (Some Sample.succeeds_later) ])).
  intros b h Hin Hh. simpl in Hin.
  apply elem_of_cons in Hin. destruct Hin as [Hb|Hin].
  - subst b. discriminate Hh.
  - apply list_elem_of_singleton in Hin. subst b.
    injection Hh as <-. split; [exact (calls_back_later _) | exact succeeds_later_ok].
Defined.

Lemma stop_runs_all_steps_witness :
  exists s1 stops (w2 w3 : unit),
    log s1 = [] ++ stops /\
    transportBindings s1
    = [ Sample.binding Sample.succeeds_now Sample.succeeds_later None;
        Sample.binding Sample.succeeds_now Sample.succeeds_now None ] /\
    performed BindingStop [Sample.succeeds_later; Sample.succeeds_now]
      tt ∅ stops (world s1) ∅ /\
    all_called_back BindingStop 2 stops /\
    answer (resetMiddlewares Sample.backend) (world s1) = (w2, Some None) /\
    answer (deactivate Sample.backend) w2 = (w3, Some None) /\
    stop Sample.backend [0; 1] report
      (Sample.initial
         [ Sample.binding Sample.succeeds_now Sample.succeeds_later None;
           Sample.binding Sample.succeeds_now Sample.succeeds_now None ])
    = report None
        (extend s1 w3 [Invoked ResetMiddlewares;
                       CalledBack ResetMiddlewares None;
                       Invoked Deactivate;
                       CalledBack Deactivate None]).
Proof.
  apply (stop_runs_all_steps Sample.backend [0; 1] report
           (Sample.initial
              [ Sample.binding Sample.succeeds_now Sample.succeeds_later None;
                Sample.binding Sample.succeeds_now Sample.succeeds_now None ])).
  - exact complete_two.
  - apply Forall_cons. split; [exact (calls_back_later _)|].
    apply Forall_cons. split; [exact (calls_back_now _) | constructor].
  - apply Forall_cons. split; [exact succeeds_later_ok|].
    apply Forall_cons. split; [exact succeeds_now_ok | constructor].
  - exact (calls_back_now _).
  - exact succeeds_now_ok.
  - exact (calls_back_now _).
  - exact succeeds_now_ok.
Defined.

Lemma startAll_first_failure_at_once_witness :
  exists s1 rest,
    startTransportBindings tt
      [ Sample.binding (Sample.fails_now "boom") Sample.succeeds_now None;
        Sample.binding Sample.succeeds_later Sample.succeeds_now None ]
      [1] report (Sample.initial [])
    = rest (report (Some "boom") s1) /\
    log s1 = [] ++ [Invoked (BindingStart 0);
                    CalledBack (BindingStart 0) (Some "boom")] /\
    forall s' : @State unit string unit string, exists evs2,
      log (rest s') = log s' ++ evs2 /\
      invocations evs2 = map BindingStart (seq 1 1).
Proof.
  apply (startAll_first_failure_at_once tt
           (Sample.binding (Sample.fails_now "boom") Sample.succeeds_now None)
           [ Sample.binding Sample.succeeds_later Sample.succeeds_now None ]
           [1] report (Sample.initial []) tt "boom").
  reflexivity.
Defined.

Lemma nothing_to_do_without_bindings_witness :
  stopTransportBindings [] report (Sample.initial []) = report None (Sample.initial []) /\
  applyFunctionFromBinding ["id"] "commandHandler" report (Sample.initial [])
  = report None (Sample.initial []) /\
  stop Sample.backend [] report (Sample.initial [])
  = (if (backend_steps Sample.backend tt).2 then report None else fun s' => s')
      (extend (Sample.initial []) (backend_steps Sample.backend tt).1.1
         (backend_steps Sample.backend tt).1.2) /\
  (exists evs, (backend_steps Sample.backend tt).1.2 = Invoked ResetMiddlewares :: evs) /\
  ((backend_steps Sample.backend tt).2 = false <->
   (answer (resetMiddlewares Sample.backend) tt).2 = None \/
   (answer (resetMiddlewares Sample.backend) tt).2 = Some None /\
   (answer (deactivate Sample.backend)
      (answer (resetMiddlewares Sample.backend) tt).1).2 = None).
Proof.
  apply (nothing_to_do_without_bindings Sample.backend ["id"] "commandHandler" []
           report (Sample.initial [])).
  reflexivity.
Defined.

